(** * Text2Logic: parser, deduction rules and forward-chaining engine

    A shallow embedding of [Text2Logic/logic_parser.py],
    [Text2Logic/deduction_rules.py] and [Text2Logic/logic_engine.py].

    Python strings are sequences of Unicode code points, and the parser
    indexes them code point by code point ([text[i]], [text[i:i+2]]), so a
    character is modelled as its code point and a string as a list of them.
    Python exceptions are the [Raise] results of a small error monad. *)

From Stdlib Require Import String Ascii.
From Stdlib Require Import List ZArith NArith Bool Lia Permutation Sorted.
Import ListNotations.

Set Warnings "-register-all".

(* ------------------------------------------------------------------ *)
(** ** Strings *)

Definition char := N.
Definition str := list char.

(** An ASCII literal as a Python string. *)
Definition lit (s : string) : str := map N_of_ascii (list_ascii_of_string s).

(** The non-ASCII characters the sources use. *)
Definition glyph_and : char := 8743%N.     (* U+2227 *)
Definition glyph_or : char := 8744%N.      (* U+2228 *)
Definition glyph_not : char := 172%N.      (* U+00AC *)
Definition glyph_implies : char := 8594%N. (* U+2192 *)
Definition glyph_iff : char := 8596%N.     (* U+2194 *)
Definition glyph_turnstile : char := 8866%N. (* U+22A2 *)

Fixpoint list_eqb {A} (eqb : A -> A -> bool) (l1 l2 : list A) : bool :=
  match l1, l2 with
  | [], [] => true
  | x :: xs, y :: ys => eqb x y && list_eqb eqb xs ys
  | _, _ => false
  end.

Definition str_eqb : str -> str -> bool := list_eqb N.eqb.

(** [x in l] for a list of strings. *)
Definition str_in (x : str) (l : list str) : bool := existsb (str_eqb x) l.

(** [c in s] for a character and a string. *)
Definition char_in (c : char) (s : str) : bool := existsb (N.eqb c) s.

(** [sep.join(parts)] *)
Fixpoint join (sep : str) (parts : list str) : str :=
  match parts with
  | [] => []
  | [p] => p
  | p :: ps => p ++ sep ++ join sep ps
  end.

(** [str.isspace] on one character: the code points CPython's
    [_PyUnicode_IsWhitespace] accepts. *)
Definition isspace (c : char) : bool :=
  ((9 <=? c) && (c <=? 13) || (28 <=? c) && (c <=? 32) ||
   (c =? 133) || (c =? 160) || (c =? 5760) ||
   (8192 <=? c) && (c <=? 8202) || (c =? 8232) || (c =? 8233) ||
   (c =? 8239) || (c =? 8287) || (c =? 12288))%N.

Fixpoint lstrip (s : str) : str :=
  match s with
  | c :: s' => if isspace c then lstrip s' else s
  | [] => []
  end.

(** [s.strip()] *)
Definition strip (s : str) : str := rev (lstrip (rev (lstrip s))).

(** [s.split(',')], [sep] being one character. *)
Fixpoint split_on (sep : char) (s : str) : list str :=
  match s with
  | [] => [[]]
  | c :: s' =>
      if N.eqb c sep then [] :: split_on sep s'
      else match split_on sep s' with
           | p :: ps => (c :: p) :: ps
           | [] => [[c]]
           end
  end.

(** [s.startswith(c)], [c] being one character. *)
Definition startswith (s : str) (c : char) : bool :=
  match s with
  | c' :: _ => N.eqb c' c
  | [] => false
  end.

(** The longest prefix of characters satisfying [p], and what follows it:
    what a greedy character-class repetition of a regular expression
    consumes. *)
Fixpoint span (p : char -> bool) (s : str) : str * str :=
  match s with
  | c :: s' =>
      if p c then let '(a, b) := span p s' in (c :: a, b) else ([], s)
  | [] => ([], [])
  end.

(* ------------------------------------------------------------------ *)
(** ** Exceptions

    The exceptions the code of the repository raises, by a [raise] or by
    an index or attribute that is not there.  [RecursionError], which the
    interpreter raises when the recursion of [__eq__], [__hash__],
    [__str__] or [_parse_not] on a deeply nested expression goes beyond
    its recursion limit, is not among them: the limit is a setting of the
    interpreter, not of the repository.  The functions below compute what
    a call gives when that limit is not reached. *)

(** The messages of the [ValueError]s the parser raises. *)
Inductive ParseError :=
| EmptyExpression
| UnexpectedCharacter (c : char) (position : nat)
| UnexpectedToken (token : str)
| UnexpectedEnd
| InvalidAtomFormat (token : str)
| SubjectParentheses (subject : str)
| ObjectParentheses (object : str).

Inductive exn :=
| ValueError (e : ParseError)
| IndexError
| AttributeError.

Inductive result (A : Type) :=
| Ok (a : A)
| Raise (e : exn).
Arguments Ok {A} a.
Arguments Raise {A} e.

Definition bind {A B} (m : result A) (k : A -> result B) : result B :=
  match m with
  | Ok a => k a
  | Raise e => Raise e
  end.

Declare Scope result_scope.
Delimit Scope result_scope with result.
Notation "x <- m ;; k" := (bind m (fun x => k))
  (at level 100, m at next level, right associativity) : result_scope.
Notation "' p <- m ;; k" := (bind m (fun x => let 'p := x in k))
  (at level 100, p pattern, m at next level, right associativity) : result_scope.
Open Scope result_scope.

(** A [for] loop whose body may raise, threading the loop's state. *)
Fixpoint foldM {A S} (body : A -> S -> result S) (l : list A) (s : S) : result S :=
  match l with
  | [] => Ok s
  | x :: xs => s' <- body x s ;; foldM body xs s'
  end.

(* ------------------------------------------------------------------ *)
(** ** Operators and expressions *)

Inductive LogicalOperator := AND | OR | NOT | IMPLIES | IFF.

(** [LogicalOperator.value] *)
Definition value (op : LogicalOperator) : char :=
  match op with
  | AND => glyph_and
  | OR => glyph_or
  | NOT => glyph_not
  | IMPLIES => glyph_implies
  | IFF => glyph_iff
  end.

(** The table of [LogicalOperator.from_text]. *)
Definition mapping : list (str * LogicalOperator) :=
  [ ([glyph_and], AND); (lit "AND", AND); (lit "&", AND); (lit "^", AND);
    ([glyph_or], OR); (lit "OR", OR); (lit "|", OR); (lit "v", OR);
    ([glyph_not], NOT); (lit "NOT", NOT); (lit "~", NOT); (lit "!", NOT);
    ([glyph_implies], IMPLIES); (lit "IMPLIES", IMPLIES);
    (lit "->", IMPLIES); (lit "=>", IMPLIES);
    ([glyph_iff], IFF); (lit "IFF", IFF); (lit "<->", IFF); (lit "<=>", IFF) ].

(** [mapping.get(key)] *)
Fixpoint mapping_get (key : str) (m : list (str * LogicalOperator))
  : option LogicalOperator :=
  match m with
  | (k, op) :: rest => if str_eqb key k then Some op else mapping_get key rest
  | [] => None
  end.

Section FromText.

(** [str.upper], whose case tables are the interpreter's, not the
    repository's. *)
Variable upper : str -> str.

(** [LogicalOperator.from_text], for a [text] that is a [str]. *)
Definition from_text (text : str) : option LogicalOperator :=
  mapping_get (upper text) mapping.

End FromText.

Definition op_eqb (o1 o2 : LogicalOperator) : bool :=
  match o1, o2 with
  | AND, AND | OR, OR | NOT, NOT | IMPLIES, IMPLIES | IFF, IFF => true
  | _, _ => false
  end.

Definition operator_eqb (o1 o2 : option LogicalOperator) : bool :=
  match o1, o2 with
  | Some a, Some b => op_eqb a b
  | None, None => true
  | _, _ => false
  end.

Record Atom := mkAtom {
  subject : str;
  relation : str;
  objects : list str
}.

(** [Union[Atom, LogicalExpression]]: the values the parser produces and
    the knowledge base holds. *)
Inductive Expression :=
| EAtom (a : Atom)
| LogicalExpression (operator : option LogicalOperator) (operands : list Expression).

(** [Atom.__eq__] *)
Definition atom_eqb (a b : Atom) : bool :=
  str_eqb (subject a) (subject b) &&
  str_eqb (relation a) (relation b) &&
  list_eqb str_eqb (objects a) (objects b).

(** [==] on expressions: [Atom.__eq__] and [LogicalExpression.__eq__],
    each of which answers [False] for a value of the other class. *)
Fixpoint expr_eqb (e1 e2 : Expression) {struct e1} : bool :=
  match e1, e2 with
  | EAtom a, EAtom b => atom_eqb a b
  | LogicalExpression o1 l1, LogicalExpression o2 l2 =>
      operator_eqb o1 o2 &&
      (fix operands_eqb (l1 l2 : list Expression) {struct l1} : bool :=
         match l1, l2 with
         | [], [] => true
         | x :: xs, y :: ys => expr_eqb x y && operands_eqb xs ys
         | _, _ => false
         end) l1 l2
  | _, _ => false
  end.

(** [e in s] for a set (or list) of expressions. *)
Definition mem (e : Expression) (s : list Expression) : bool :=
  existsb (expr_eqb e) s.

(** [s.add(e)] on a set, kept as the list of its elements in the order
    they were first added. *)
Definition set_add (s : list Expression) (e : Expression) : list Expression :=
  if mem e s then s else s ++ [e].

(** [Atom.__str__] *)
Definition Atom_str (a : Atom) : str :=
  match objects a with
  | [] => lit "(" ++ subject a ++ lit ")" ++ relation a ++ lit "()"
  | _ => lit "(" ++ subject a ++ lit ")" ++ relation a ++
         lit "(" ++ join (lit ", ") (objects a) ++ lit ")"
  end.

(** [str(e)]: [Atom.__str__] and [LogicalExpression.__str__].
    [self.operands[0]] of a NOT without operands raises [IndexError]. *)
Fixpoint to_str (e : Expression) : result str :=
  match e with
  | EAtom a => Ok (Atom_str a)
  | LogicalExpression None ops =>
      match ops with
      | x :: _ => to_str x
      | [] => Ok []
      end
  | LogicalExpression (Some NOT) ops =>
      match ops with
      | x :: _ => s <- to_str x ;; Ok (glyph_not :: s)
      | [] => Raise IndexError
      end
  | LogicalExpression (Some op) ops =>
      operand_strs <-
        (fix strs (l : list Expression) : result (list str) :=
           match l with
           | [] => Ok []
           | x :: xs => s <- to_str x ;; ss <- strs xs ;; Ok (s :: ss)
           end) ops ;;
      Ok (lit "(" ++ join (lit " " ++ [value op] ++ lit " ") operand_strs ++ lit ")")
  end.

(* ------------------------------------------------------------------ *)
(** ** The parser *)

Definition is_ident_start (c : char) : bool :=
  ((65 <=? c) && (c <=? 90) || (97 <=? c) && (c <=? 122) || (c =? 95))%N.

Definition is_ident_char (c : char) : bool :=
  (is_ident_start c || (48 <=? c) && (c <=? 57))%N.

Definition lparen : char := 40%N.
Definition rparen : char := 41%N.
Definition not_rparen (c : char) : bool := negb (N.eqb c rparen).

(** [re.match] of the atom pattern, written here piece by piece:
    [\(] [[^)]+] [\)] [[A-Za-z_]] [[A-Za-z0-9_]*] [\(] [[^)]*] [\)],
    with groups around the first, the identifier and the last repetition.
    The result holds the three groups and the unmatched rest of [s].  Every
    repetition is followed by a character outside its class, so the greedy
    match is the only candidate and backtracking cannot find another. *)
Definition match_atom (s : str) : option (str * str * str * str) :=
  match s with
  | c0 :: s1 =>
      if negb (N.eqb c0 lparen) then None else
      match span not_rparen s1 with
      | ([], _) => None
      | (subj, c1 :: c2 :: s2) =>
          (* [c1] is the closing parenthesis: [span] stopped on it *)
          if negb (N.eqb c1 rparen) then None else
          if negb (is_ident_start c2) then None else
          match span is_ident_char s2 with
          | (rel, c3 :: s3) =>
              if negb (N.eqb c3 lparen) then None else
              match span not_rparen s3 with
              | (objs, c4 :: rest) =>
                  if N.eqb c4 rparen then Some (subj, c2 :: rel, objs, rest)
                  else None
              | (_, []) => None
              end
          | (_, []) => None
          end
      | (_, _) => None
      end
  | [] => None
  end.

(** What the match consumed: [atom_match.group(0)]. *)
Definition group0 (m : str * str * str * str) : str :=
  let '(subj, rel, objs, _) := m in
  lparen :: subj ++ rparen :: rel ++ lparen :: objs ++ [rparen].

Definition two_char_operators : list str :=
  [ [glyph_implies]; [glyph_iff]; lit "->"; lit "=>"; lit "<->"; lit "<=>" ].

Definition one_char_operators : list char :=
  [ glyph_and; glyph_or; glyph_not; glyph_implies; glyph_iff;
    38; 124; 126; 33; 94; 118 ]%N.   (* & | ~ ! ^ v *)

(** One round of the [while] loop of [_tokenize] at index [i], [text]
    being [text[i:]]: the token found (none for white space) and how many
    characters to advance. *)
Definition _tokenize_step (i : nat) (text : str) (c : char) : result (option str * nat) :=
  if isspace c then Ok (None, 1) else
  match match_atom text with
  | Some m => Ok (Some (group0 m), length (group0 m))
  | None =>
      let two_char := firstn 2 text in
      if (2 <=? length text) && str_in two_char two_char_operators then
        if str_eqb two_char (lit "->") then Ok (Some [glyph_implies], 2)
        else if str_eqb two_char (lit "=>") then Ok (Some [glyph_implies], 2)
        else if str_eqb two_char (lit "<->") then Ok (Some [glyph_iff], 2)
        else if str_eqb two_char (lit "<=>") then Ok (Some [glyph_iff], 2)
        else Ok (Some two_char, 2)
      else if char_in c one_char_operators then
        if (c =? 38)%N || (c =? 94)%N then Ok (Some [glyph_and], 1)
        else if (c =? 124)%N || (c =? 118)%N then Ok (Some [glyph_or], 1)
        else if (c =? 126)%N || (c =? 33)%N then Ok (Some [glyph_not], 1)
        else Ok (Some [c], 1)
      else Raise (ValueError (UnexpectedCharacter c i))
  end.

(** The loop of [_tokenize].  Every round advances [i], so [len(text) - i]
    rounds are enough; [fuel] counts them. *)
Fixpoint _tokenize_loop (fuel : nat) (i : nat) (text : str) (tokens : list str)
  : result (list str) :=
  match text with
  | [] => Ok tokens
  | c :: _ =>
      match fuel with
      | O => Ok tokens
      | S fuel' =>
          '(tok, n) <- _tokenize_step i text c ;;
          _tokenize_loop fuel' (i + n) (skipn n text)
            match tok with Some t => tokens ++ [t] | None => tokens end
      end
  end.

Definition _tokenize (text : str) : result (list str) :=
  _tokenize_loop (length text) 0 text [].

(** [_parse_atom]: the current token read as an atom, and the tokens after
    it. *)
Definition _parse_atom (tokens : list str) : result (Expression * list str) :=
  match tokens with
  | [] => Raise (ValueError UnexpectedEnd)
  | token :: rest =>
      match match_atom token with
      | None => Raise (ValueError (InvalidAtomFormat token))
      | Some (g1, g2, g3, _) =>
          let subject := strip g1 in
          let relation := strip g2 in
          let objects_str := strip g3 in
          if char_in lparen subject || char_in rparen subject
          then Raise (ValueError (SubjectParentheses subject))
          else
            match objects_str with
            | [] => Ok (EAtom (mkAtom subject relation []), rest)
            | _ =>
                let objects := map strip (split_on 44%N objects_str) in
                match find (fun obj => char_in lparen obj || char_in rparen obj) objects with
                | Some obj => Raise (ValueError (ObjectParentheses obj))
                | None => Ok (EAtom (mkAtom subject relation objects), rest)
                end
            end
      end
  end.

(** [_parse_not] *)
Fixpoint _parse_not (tokens : list str) : result (Expression * list str) :=
  match tokens with
  | token :: rest =>
      if str_eqb token [glyph_not] then
        '(operand, rest') <- _parse_not rest ;;
        Ok (LogicalExpression (Some NOT) [operand], rest')
      else _parse_atom tokens
  | [] => _parse_atom tokens
  end.

(** The [while] loop the four binary levels share: as long as the current
    token is [symbol], step over it, parse an operand of the next level and
    combine it with what was collected.  An operand takes at least one
    token, so [len(tokens)] rounds are enough. *)
Fixpoint operator_loop {A} (fuel : nat) (symbol : char)
    (next : list str -> result (Expression * list str))
    (combine : A -> Expression -> A) (acc : A) (tokens : list str)
  : result (A * list str) :=
  match tokens with
  | token :: rest =>
      if str_eqb token [symbol] then
        match fuel with
        | O => Ok (acc, tokens)
        | S fuel' =>
            '(operand, rest') <- next rest ;;
            operator_loop fuel' symbol next combine (combine acc operand) rest'
        end
      else Ok (acc, tokens)
  | [] => Ok (acc, tokens)
  end.

Definition append_operand (operands : list Expression) (e : Expression) :=
  operands ++ [e].

(** [_parse_and] *)
Definition _parse_and (tokens : list str) : result (Expression * list str) :=
  '(first, rest) <- _parse_not tokens ;;
  '(operands, rest') <-
    operator_loop (length rest) glyph_and _parse_not append_operand [first] rest ;;
  match operands with
  | [single] => Ok (single, rest')
  | _ => Ok (LogicalExpression (Some AND) operands, rest')
  end.

(** [_parse_or] *)
Definition _parse_or (tokens : list str) : result (Expression * list str) :=
  '(first, rest) <- _parse_and tokens ;;
  '(operands, rest') <-
    operator_loop (length rest) glyph_or _parse_and append_operand [first] rest ;;
  match operands with
  | [single] => Ok (single, rest')
  | _ => Ok (LogicalExpression (Some OR) operands, rest')
  end.

(** [_parse_implies] *)
Definition _parse_implies (tokens : list str) : result (Expression * list str) :=
  '(first, rest) <- _parse_or tokens ;;
  operator_loop (length rest) glyph_implies _parse_or
    (fun l r => LogicalExpression (Some IMPLIES) [l; r]) first rest.

(** [_parse_iff] *)
Definition _parse_iff (tokens : list str) : result (Expression * list str) :=
  '(first, rest) <- _parse_implies tokens ;;
  operator_loop (length rest) glyph_iff _parse_implies
    (fun l r => LogicalExpression (Some IFF) [l; r]) first rest.

(** [LogicParser.parse], which [parse_expression] calls on a fresh parser. *)
Definition parse (text : str) : result Expression :=
  let text := strip text in
  tokens <- _tokenize text ;;
  match tokens with
  | [] => Raise (ValueError EmptyExpression)
  | _ =>
      '(e, rest) <- _parse_iff tokens ;;
      match rest with
      | [] => Ok e
      | token :: _ => Raise (ValueError (UnexpectedToken token))
      end
  end.

Definition parse_expression := parse.

(* ------------------------------------------------------------------ *)
(** ** Unification and substitution *)

(** A [dict] from variable names to terms. *)
Definition Bindings := list (str * str).

Fixpoint lookup (key : str) (bindings : Bindings) : option str :=
  match bindings with
  | (k, v) :: rest => if str_eqb key k then Some v else lookup key rest
  | [] => None
  end.

(** [bindings.get(key, default)] *)
Definition get (bindings : Bindings) (key default : str) : str :=
  match lookup key bindings with
  | Some v => v
  | None => default
  end.

Definition is_digit (c : char) : bool := ((48 <=? c) && (c <=? 57))%N.

(** The last disjunct of [_is_variable]: one of X, Y, Z followed by one or
    more digits. *)
Definition re_variable (term : str) : bool :=
  match term with
  | c :: ds =>
      ((c =? 88) || (c =? 89) || (c =? 90))%N &&
      negb (Nat.eqb (length ds) 0) && forallb is_digit ds
  | [] => false
  end.

(** [Atom._is_variable] *)
Definition _is_variable (term : str) : bool :=
  startswith term 88%N || startswith term 89%N || startswith term 90%N ||
  re_variable term.

(** [Atom._match_term]; the dictionary it updates in place is returned. *)
Definition _match_term (term1 term2 : str) (bindings : Bindings) : bool * Bindings :=
  let is_var1 := _is_variable term1 in
  let is_var2 := _is_variable term2 in
  if negb is_var1 && negb is_var2 then (str_eqb term1 term2, bindings)
  else if is_var1 then
    match lookup term1 bindings with
    | Some v => (str_eqb v term2, bindings)
    | None => (true, (term1, term2) :: bindings)
    end
  else if is_var2 then
    match lookup term2 bindings with
    | Some v => (str_eqb v term1, bindings)
    | None => (true, (term2, term1) :: bindings)
    end
  else (false, bindings).

(** The loop of [Atom.matches] over [zip(self.objects, other.objects)]:
    [None] when some pair does not match. *)
Fixpoint match_objects (pairs : list (str * str)) (bindings : Bindings) : option Bindings :=
  match pairs with
  | [] => Some bindings
  | (obj1, obj2) :: rest =>
      let '(ok, bindings') := _match_term obj1 obj2 bindings in
      if ok then match_objects rest bindings' else None
  end.

(** [Atom.matches] *)
Definition matches (self other : Atom) (bindings : Bindings) : bool * Bindings :=
  let new_bindings := bindings in
  if negb (str_eqb (relation self) (relation other)) then (false, [])
  else
    let '(ok, new_bindings) := _match_term (subject self) (subject other) new_bindings in
    if negb ok then (false, [])
    else if negb (Nat.eqb (length (objects self)) (length (objects other))) then (false, [])
    else
      match match_objects (combine (objects self) (objects other)) new_bindings with
      | Some new_bindings => (true, new_bindings)
      | None => (false, [])
      end.

(** [Atom.substitute] *)
Definition substitute (self : Atom) (bindings : Bindings) : Atom :=
  mkAtom (get bindings (subject self) (subject self))
         (relation self)
         (map (fun obj => get bindings obj obj) (objects self)).

(* ------------------------------------------------------------------ *)
(** ** Deduction rules *)

(** [isinstance(item, LogicalExpression) and item.operator == op] *)
Definition has_operator (op : LogicalOperator) (item : Expression) : bool :=
  match item with
  | LogicalExpression (Some o) _ => op_eqb o op
  | _ => false
  end.

Definition is_atom (item : Expression) : bool :=
  match item with
  | EAtom _ => true
  | _ => false
  end.

(** [e.operands], read only from [LogicalExpression] instances. *)
Definition operands (e : Expression) : list Expression :=
  match e with
  | LogicalExpression _ ops => ops
  | EAtom _ => []
  end.

(** [e.operands[i]] *)
Definition operand (e : Expression) (i : nat) : result Expression :=
  match e with
  | LogicalExpression _ ops =>
      match nth_error ops i with
      | Some x => Ok x
      | None => Raise IndexError
      end
  | EAtom _ => Raise AttributeError
  end.

(** The pieces of an f-string: literal text and formatted expressions. *)
Inductive piece :=
| T (text : str)
| E (e : Expression).

Fixpoint format (pieces : list piece) : result str :=
  match pieces with
  | [] => Ok []
  | T text :: rest => s <- format rest ;; Ok (text ++ s)
  | E e :: rest => s1 <- to_str e ;; s <- format rest ;; Ok (s1 ++ s)
  end.

Definition Derived := list (Expression * str).

(** What a rule's [apply] works on: its [derived] list and the [new_facts]
    set it shares with the rules applied before it. *)
Definition RuleState := (Derived * list Expression)%type.

(** The end of every rule's inner loop:
    [if new_fact not in knowledge_base and new_fact not in new_facts:]
    format the justification, append to [derived], add to [new_facts]. *)
Definition emit (knowledge_base : list Expression) (new_fact : Expression)
    (justification : list piece) (st : RuleState) : result RuleState :=
  let '(derived, new_facts) := st in
  if negb (mem new_fact knowledge_base) && negb (mem new_fact new_facts) then
    j <- format justification ;;
    Ok (derived ++ [(new_fact, j)], set_add new_facts new_fact)
  else Ok st.

(** [ModusPonens._substitute] *)
Fixpoint _substitute (expr : Expression) (bindings : Bindings) : Expression :=
  match expr with
  | EAtom a => EAtom (substitute a bindings)
  | LogicalExpression op ops =>
      LogicalExpression op (map (fun o => _substitute o bindings) ops)
  end.

(** [ModusPonens._match] and [ModusTollens._match] *)
Definition _match (expr1 expr2 : Expression) : bool :=
  match expr1, expr2 with
  | EAtom a1, EAtom a2 => fst (matches a1 a2 [])
  | _, _ => expr_eqb expr1 expr2
  end.

(** [Resolution._are_complementary] *)
Definition _are_complementary (expr1 expr2 : Expression) : result bool :=
  if has_operator NOT expr1 then
    x <- operand expr1 0 ;; Ok (expr_eqb x expr2)
  else if has_operator NOT expr2 then
    x <- operand expr2 0 ;; Ok (expr_eqb x expr1)
  else Ok false.

(** [enumerate(l)] *)
Definition enumerate {A} (l : list A) : list (nat * A) :=
  combine (seq 0 (length l)) l.

Record DeductionRule := mkRule {
  name : str;
  priority : Z;
  apply : list Expression -> list Expression -> result RuleState
}.

Record DerivationChain := mkChain {
  conclusion : Expression;
  justification : str;
  depth : Z;
  premises : list Expression
}.

Module InferenceResult.
Record t := mk {
  original_facts : list Expression;
  original_rules : list Expression;
  derived_facts : list DerivationChain;
  iterations : Z;
  contradictions : list str
}.
End InferenceResult.

Section Rules.

(** The order in which Python enumerates a set is a function of how the set
    was built, and nothing more is known about it: [iteration s] is the
    order in which the set whose elements were added in the order [s] is
    enumerated.  An unmodified set is enumerated in the same order every
    time. *)
Variable iteration : list Expression -> list Expression.
Hypothesis iteration_perm : forall s, Permutation s (iteration s).

Definition ModusPonens_apply (knowledge_base new_facts : list Expression)
  : result RuleState :=
  let implications := filter (has_operator IMPLIES) (iteration knowledge_base) in
  let facts := filter (fun item => negb (has_operator IMPLIES item))
                      (iteration knowledge_base) in
  foldM (fun impl st =>
    antecedent <- operand impl 0 ;;
    consequent <- operand impl 1 ;;
    foldM (fun fact st =>
      if _match antecedent fact then
        match antecedent, fact with
        | EAtom a, EAtom f =>
            let '(ok, bindings) := matches a f [] in
            if ok then
              let new_fact := _substitute consequent bindings in
              emit knowledge_base new_fact
                [T (lit "Modus Ponens: "); E fact;
                 T (lit " " ++ [glyph_and] ++ lit " ("); E impl;
                 T (lit ") " ++ [glyph_turnstile] ++ lit " "); E new_fact] st
            else Ok st
        | _, _ =>
            if expr_eqb antecedent fact then
              emit knowledge_base consequent
                [T (lit "Modus Ponens: "); E fact;
                 T (lit " " ++ [glyph_and] ++ lit " ("); E impl;
                 T (lit ") " ++ [glyph_turnstile] ++ lit " "); E consequent] st
            else Ok st
        end
      else Ok st) facts st) implications ([], new_facts).

Definition ModusTollens_apply (knowledge_base new_facts : list Expression)
  : result RuleState :=
  let implications := filter (has_operator IMPLIES) (iteration knowledge_base) in
  let negations := filter (has_operator NOT) (iteration knowledge_base) in
  foldM (fun impl st =>
    antecedent <- operand impl 0 ;;
    consequent <- operand impl 1 ;;
    foldM (fun neg st =>
      negated_expr <- operand neg 0 ;;
      if _match consequent negated_expr then
        let new_fact := LogicalExpression (Some NOT) [antecedent] in
        emit knowledge_base new_fact
          [T (lit "Modus Tollens: "); E neg;
           T (lit " " ++ [glyph_and] ++ lit " ("); E impl;
           T (lit ") " ++ [glyph_turnstile] ++ lit " "); E new_fact] st
      else Ok st) negations st) implications ([], new_facts).

Definition HypotheticalSyllogism_apply (knowledge_base new_facts : list Expression)
  : result RuleState :=
  let implications := filter (has_operator IMPLIES) (iteration knowledge_base) in
  foldM (fun impl1 st =>
    foldM (fun impl2 st =>
      if expr_eqb impl1 impl2 then Ok st
      else
        b <- operand impl1 1 ;;
        c <- operand impl2 0 ;;
        if expr_eqb b c then
          a <- operand impl1 0 ;;
          d <- operand impl2 1 ;;
          let new_fact := LogicalExpression (Some IMPLIES) [a; d] in
          emit knowledge_base new_fact
            [T (lit "Hypothetical Syllogism: ("); E impl1;
             T (lit ") " ++ [glyph_and] ++ lit " ("); E impl2;
             T (lit ") " ++ [glyph_turnstile] ++ lit " "); E new_fact] st
        else Ok st) implications st) implications ([], new_facts).

Definition DisjunctiveSyllogism_apply (knowledge_base new_facts : list Expression)
  : result RuleState :=
  let disjunctions := filter (has_operator OR) (iteration knowledge_base) in
  let negations := filter (has_operator NOT) (iteration knowledge_base) in
  foldM (fun disj st =>
    foldM (fun neg st =>
      negated_expr <- operand neg 0 ;;
      foldM (fun '(i, op) st =>
        if expr_eqb op negated_expr then
          foldM (fun '(j, other) st =>
            if negb (Nat.eqb i j) then
              emit knowledge_base other
                [T (lit "Disjunctive Syllogism: ("); E disj;
                 T (lit ") " ++ [glyph_and] ++ lit " "); E neg;
                 T (lit " " ++ [glyph_turnstile] ++ lit " "); E other] st
            else Ok st) (enumerate (operands disj)) st
        else Ok st) (enumerate (operands disj)) st) negations st)
    disjunctions ([], new_facts).

Definition Simplification_apply (knowledge_base new_facts : list Expression)
  : result RuleState :=
  let conjunctions := filter (has_operator AND) (iteration knowledge_base) in
  foldM (fun conj st =>
    foldM (fun op st =>
      emit knowledge_base op
        [T (lit "Simplification: ("); E conj;
         T (lit ") " ++ [glyph_turnstile] ++ lit " "); E op] st)
      (operands conj) st) conjunctions ([], new_facts).

(** [for i, fact1 in enumerate(facts): for fact2 in facts[i+1:]] *)
Fixpoint conjunction_pairs (knowledge_base : list Expression)
    (facts : list Expression) (st : RuleState) : result RuleState :=
  match facts with
  | [] => Ok st
  | fact1 :: later =>
      st' <- foldM (fun fact2 st =>
               let new_fact := LogicalExpression (Some AND) [fact1; fact2] in
               emit knowledge_base new_fact
                 [T (lit "Conjunction: "); E fact1;
                  T (lit " " ++ [glyph_and] ++ lit " "); E fact2;
                  T (lit " " ++ [glyph_turnstile] ++ lit " "); E new_fact] st)
             later st ;;
      conjunction_pairs knowledge_base later st'
  end.

Definition Conjunction_apply (knowledge_base new_facts : list Expression)
  : result RuleState :=
  let facts := filter is_atom (iteration knowledge_base) in
  if (20 <? length facts)%nat then Ok ([], new_facts)
  else conjunction_pairs knowledge_base facts ([], new_facts).

Definition Addition_apply (knowledge_base new_facts : list Expression)
  : result RuleState :=
  Ok ([], new_facts).

Definition Resolution_apply (knowledge_base new_facts : list Expression)
  : result RuleState :=
  let disjunctions := filter (has_operator OR) (iteration knowledge_base) in
  foldM (fun disj1 st =>
    foldM (fun disj2 st =>
      if expr_eqb disj1 disj2 then Ok st
      else
        foldM (fun op1 st =>
          foldM (fun op2 st =>
            complementary <- _are_complementary op1 op2 ;;
            if complementary then
              let remaining1 :=
                filter (fun op => negb (expr_eqb op op1)) (operands disj1) in
              let remaining2 :=
                filter (fun op => negb (expr_eqb op op2)) (operands disj2) in
              match remaining1, remaining2 with
              | [], [] => Ok st
              | _, _ =>
                  let all_remaining := remaining1 ++ remaining2 in
                  let new_fact :=
                    match all_remaining with
                    | [single] => single
                    | _ => LogicalExpression (Some OR) all_remaining
                    end in
                  emit knowledge_base new_fact
                    [T (lit "Resolution: ("); E disj1;
                     T (lit ") " ++ [glyph_and] ++ lit " ("); E disj2;
                     T (lit ") " ++ [glyph_turnstile] ++ lit " "); E new_fact] st
              end
            else Ok st) (operands disj2) st) (operands disj1) st)
      disjunctions st) disjunctions ([], new_facts).

Definition BiconditionalElimination_apply (knowledge_base new_facts : list Expression)
  : result RuleState :=
  let biconditionals := filter (has_operator IFF) (iteration knowledge_base) in
  foldM (fun iff st =>
    left_side <- operand iff 0 ;;
    right_side <- operand iff 1 ;;
    let impl1 := LogicalExpression (Some IMPLIES) [left_side; right_side] in
    st <- emit knowledge_base impl1
            [T (lit "Biconditional Elimination: ("); E iff;
             T (lit ") " ++ [glyph_turnstile] ++ lit " "); E impl1] st ;;
    let impl2 := LogicalExpression (Some IMPLIES) [right_side; left_side] in
    emit knowledge_base impl2
      [T (lit "Biconditional Elimination: ("); E iff;
       T (lit ") " ++ [glyph_turnstile] ++ lit " "); E impl2] st)
    biconditionals ([], new_facts).

Definition ModusPonens := mkRule (lit "Modus Ponens") 10 ModusPonens_apply.
Definition ModusTollens := mkRule (lit "Modus Tollens") 9 ModusTollens_apply.
Definition HypotheticalSyllogism :=
  mkRule (lit "Hypothetical Syllogism") 7 HypotheticalSyllogism_apply.
Definition DisjunctiveSyllogism :=
  mkRule (lit "Disjunctive Syllogism") 8 DisjunctiveSyllogism_apply.
Definition Simplification := mkRule (lit "Simplification") 10 Simplification_apply.
Definition Conjunction := mkRule (lit "Conjunction") 3 Conjunction_apply.
Definition Addition := mkRule (lit "Addition") 1 Addition_apply.
Definition Resolution := mkRule (lit "Resolution") 6 Resolution_apply.
Definition BiconditionalElimination :=
  mkRule (lit "Biconditional Elimination") 9 BiconditionalElimination_apply.

(** [rules.sort(key=lambda r: r.priority, reverse=True)]: Python's sort is
    stable, also with [reverse], so rules of equal priority keep their
    order. *)
Fixpoint insert_by_priority (r : DeductionRule) (sorted : list DeductionRule)
  : list DeductionRule :=
  match sorted with
  | [] => [r]
  | r' :: rest =>
      if (priority r <? priority r')%Z then r' :: insert_by_priority r rest
      else r :: sorted
  end.

Definition sort_by_priority (rules : list DeductionRule) : list DeductionRule :=
  fold_right insert_by_priority [] rules.

Record RuleManager := mkRuleManager { rules : list DeductionRule }.

(** [RuleManager.__init__] *)
Definition RuleManager_init (enable_conjunction : bool) : RuleManager :=
  let rules :=
    [ModusPonens; ModusTollens; HypotheticalSyllogism; DisjunctiveSyllogism;
     Simplification; Resolution; BiconditionalElimination] in
  let rules := if enable_conjunction then rules ++ [Conjunction] else rules in
  mkRuleManager (sort_by_priority rules).

(** The loop of [apply_all_rules] over an arbitrary list of rules. *)
Fixpoint apply_rules (rules : list DeductionRule) (knowledge_base : list Expression)
    (all_derived : Derived) (new_facts : list Expression) : result Derived :=
  match rules with
  | [] => Ok all_derived
  | rule :: rest =>
      '(derived, new_facts') <- apply rule knowledge_base new_facts ;;
      apply_rules rest knowledge_base (all_derived ++ derived) new_facts'
  end.

(** [RuleManager.apply_all_rules] *)
Definition apply_all_rules (self : RuleManager) (knowledge_base : list Expression)
  : result Derived :=
  apply_rules (rules self) knowledge_base [] [].

(* ------------------------------------------------------------------ *)
(** ** The forward-chaining engine *)

Record LogicEngine := mkEngine {
  knowledge_base : list Expression;
  original_facts : list Expression;
  original_rules : list Expression;
  derivation_chains : list DerivationChain;
  max_iterations : Z;
  rule_manager : RuleManager;
  contradictions : list str
}.

(** [LogicEngine.__init__] *)
Definition LogicEngine_init (max_iterations : Z) (enable_conjunction : bool)
  : LogicEngine :=
  mkEngine [] [] [] [] max_iterations (RuleManager_init enable_conjunction) [].

(** [LogicEngine.clear] *)
Definition clear (self : LogicEngine) : LogicEngine :=
  mkEngine [] [] [] [] (max_iterations self) (rule_manager self) [].

(** An argument of type [Union[str, Atom, LogicalExpression]]. *)
Inductive argument :=
| Text (text : str)
| Parsed (e : Expression).

(** [if isinstance(x, str): x = parse_expression(x)] *)
Definition parsed (x : argument) : result Expression :=
  match x with
  | Text text => parse_expression text
  | Parsed e => Ok e
  end.

(** [LogicEngine.add_fact] *)
Definition add_fact (self : LogicEngine) (fact : argument) : result LogicEngine :=
  fact <- parsed fact ;;
  Ok (mkEngine (set_add (knowledge_base self) fact)
               (set_add (original_facts self) fact)
               (original_rules self)
               (derivation_chains self) (max_iterations self)
               (rule_manager self) (contradictions self)).

(** [isinstance(rule, LogicalExpression) and
     rule.operator in [LogicalOperator.IMPLIES, LogicalOperator.IFF]] *)
Definition is_rule (rule : Expression) : bool :=
  has_operator IMPLIES rule || has_operator IFF rule.

(** [LogicEngine.add_rule] *)
Definition add_rule (self : LogicEngine) (rule : argument) : result LogicEngine :=
  rule <- parsed rule ;;
  let knowledge_base := set_add (knowledge_base self) rule in
  if is_rule rule then
    Ok (mkEngine knowledge_base (original_facts self)
                 (set_add (original_rules self) rule)
                 (derivation_chains self) (max_iterations self)
                 (rule_manager self) (contradictions self))
  else
    Ok (mkEngine knowledge_base (set_add (original_facts self) rule)
                 (original_rules self)
                 (derivation_chains self) (max_iterations self)
                 (rule_manager self) (contradictions self)).

(** One round of [for fact, justification in derived] in [infer_all]. *)
Definition add_derived (iteration_number : Z) (self : LogicEngine)
    (d : Expression * str) : LogicEngine :=
  let '(fact, justification) := d in
  mkEngine (set_add (knowledge_base self) fact)
           (original_facts self) (original_rules self)
           (derivation_chains self ++ [mkChain fact justification iteration_number []])
           (max_iterations self) (rule_manager self) (contradictions self).

(** What one pass of the loop of [infer_all] saw and produced (what
    [verbose] prints): the knowledge base it was applied to and the facts
    it derived. *)
Record Pass := mkPass {
  entering : list Expression;
  derived_in : Derived
}.

(** The [while iteration < self.max_iterations] loop of [infer_all].
    [iteration] grows by one in every round, so
    [max_iterations - iteration] rounds are enough; [fuel] counts them.
    Besides the loop's variables the passes are logged. *)
Fixpoint infer_loop (fuel : nat) (iteration_number : Z) (self : LogicEngine)
    (log : list Pass) : result (Z * LogicEngine * list Pass) :=
  if (iteration_number <? max_iterations self)%Z then
    match fuel with
    | O => Ok (iteration_number, self, log)
    | S fuel' =>
        let iteration_number := (iteration_number + 1)%Z in
        derived <- apply_all_rules (rule_manager self) (knowledge_base self) ;;
        let log := log ++ [mkPass (knowledge_base self) derived] in
        match derived with
        | [] => Ok (iteration_number, self, log)
        | _ :: _ =>
            infer_loop fuel' iteration_number
              (fold_left (add_derived iteration_number) derived self) log
        end
    end
  else Ok (iteration_number, self, log).

(** The text of one contradiction. *)
Definition contradiction_entry (negated_expr neg : Expression) : list piece :=
  [T (lit "Contradiction: "); E negated_expr; T (lit " and "); E neg;
   T (lit " both present")].

(** [LogicEngine._detect_contradictions]: the list it leaves in
    [self.contradictions].  [atoms] and [negations] are sets built by
    enumerating the knowledge base; [negations] is then enumerated. *)
Definition _detect_contradictions (knowledge_base : list Expression)
  : result (list str) :=
  let atoms := filter is_atom (iteration knowledge_base) in
  let negations := filter (has_operator NOT) (iteration knowledge_base) in
  foldM (fun neg contradictions =>
    negated_expr <- operand neg 0 ;;
    if mem negated_expr atoms then
      entry <- format (contradiction_entry negated_expr neg) ;;
      Ok (contradictions ++ [entry])
    else Ok contradictions) (iteration negations) [].

(** [LogicEngine.infer_all], with the log of its passes. *)
Definition infer_all_log (self : LogicEngine)
  : result (LogicEngine * InferenceResult.t * list Pass) :=
  '(iteration_number, self, log) <-
    infer_loop (Z.to_nat (max_iterations self)) 0 self [] ;;
  contradictions <- _detect_contradictions (knowledge_base self) ;;
  let self :=
    mkEngine (knowledge_base self) (original_facts self) (original_rules self)
             (derivation_chains self) (max_iterations self) (rule_manager self)
             contradictions in
  Ok (self,
      InferenceResult.mk (original_facts self) (original_rules self)
        (derivation_chains self) iteration_number contradictions,
      log).

(** [LogicEngine.infer_all]: the engine it leaves and the result it
    returns. *)
Definition infer_all (self : LogicEngine)
  : result (LogicEngine * InferenceResult.t) :=
  '(self, result, _) <- infer_all_log self ;; Ok (self, result).

(** [LogicEngine.query] *)
Definition query (self : LogicEngine) (q : argument) : result bool :=
  q <- parsed q ;; Ok (mem q (knowledge_base self)).

End Rules.

(* ------------------------------------------------------------------ *)
(** ** Specification vocabulary

    What the properties below are stated with: well-formedness, the
    contract of a rule, the relation a run of the loop of [infer_all]
    satisfies, calls on an engine, and the concrete engines the properties
    are tried at. *)

(** The operands a rule or [__str__] reads are there: one for NOT, two
    for IMPLIES and IFF. *)
Definition arity_ok (op : option LogicalOperator) (n : nat) : bool :=
  match op with
  | Some NOT => (1 <=? n)%nat
  | Some IMPLIES | Some IFF => (2 <=? n)%nat
  | _ => true
  end.

(** No rule and no [__str__] reads a missing operand of [e] or of anything
    inside it.  The expressions of the data model (exactly one operand for
    NOT, two for IMPLIES and IFF) have the property, and so has whatever
    the parser returns. *)
Fixpoint well_formed (e : Expression) : bool :=
  match e with
  | EAtom _ => true
  | LogicalExpression op ops => arity_ok op (length ops) && forallb well_formed ops
  end.

(** A piece of a justification that formats without raising. *)
Definition piece_ok (p : piece) : bool :=
  match p with
  | T _ => true
  | E e => well_formed e
  end.

(** What [st'] adds to the rule state [st]: facts that satisfy [C], are
    well formed and were neither in the knowledge base nor in [new_facts];
    [new_facts] grows by exactly these. *)
Definition extends (knowledge_base : list Expression) (C : Expression -> Prop)
    (st st' : RuleState) : Prop :=
  exists added : Derived,
    fst st' = fst st ++ added /\
    (forall e, In e (snd st') <-> In e (snd st) \/ In e (map fst added)) /\
    (forall e, In e (map fst added) ->
       C e /\ well_formed e = true /\ ~ In e knowledge_base /\ ~ In e (snd st)).

(** A piece of a rule's loop nest does not raise, emits only candidates
    ([C]) and leaves every candidate in the knowledge base or in
    [new_facts]. *)
Definition emits (knowledge_base : list Expression) (C : Expression -> Prop)
    (m : RuleState -> result RuleState) : Prop :=
  forall st, exists st',
    m st = Ok st' /\ extends knowledge_base C st st' /\
    (forall e, C e -> In e knowledge_base \/ In e (snd st')).

(** A rule whose [apply], on a well-formed knowledge base, returns, and
    whose candidates [C] depend on the knowledge base only, not on
    [new_facts]. *)
Definition lawful (rule : DeductionRule) : Prop :=
  forall knowledge_base,
    forallb well_formed knowledge_base = true ->
    exists C : Expression -> Prop,
      forall new_facts, exists st',
        apply rule knowledge_base new_facts = Ok st' /\
        extends knowledge_base C ([], new_facts) st' /\
        (forall e, C e -> In e knowledge_base \/ In e (snd st')).

(** The operand a rule reads at index [i], where there is one. *)
Definition arg (i : nat) (e : Expression) : Expression := nth i (operands e) e.

(** What the inner loop of Modus Ponens tries to emit for an implication
    [antecedent -> consequent] and a fact. *)
Definition mp_candidate (antecedent consequent fact : Expression) : option Expression :=
  if _match antecedent fact then
    match antecedent, fact with
    | EAtom a, EAtom f =>
        if fst (matches a f []) then Some (_substitute consequent (snd (matches a f [])))
        else None
    | _, _ => if expr_eqb antecedent fact then Some consequent else None
    end
  else None.

(** The pairs [fact1, fact2] the Conjunction rule goes through. *)
Fixpoint conjunction_candidates (facts : list Expression) (e : Expression) : Prop :=
  match facts with
  | [] => False
  | fact1 :: later =>
      (exists fact2, In fact2 later /\
                     e = LogicalExpression (Some AND) [fact1; fact2]) \/
      conjunction_candidates later e
  end.

(** [_are_complementary] where it does not raise. *)
Definition complementary (expr1 expr2 : Expression) : bool :=
  if has_operator NOT expr1 then expr_eqb (arg 0 expr1) expr2
  else if has_operator NOT expr2 then expr_eqb (arg 0 expr2) expr1
  else false.

(** The resolvent of two disjunctions on the pair [op1], [op2], if any. *)
Definition resolvent (disj1 disj2 op1 op2 : Expression) : option Expression :=
  if complementary op1 op2 then
    let remaining1 := filter (fun op => negb (expr_eqb op op1)) (operands disj1) in
    let remaining2 := filter (fun op => negb (expr_eqb op op2)) (operands disj2) in
    match remaining1, remaining2 with
    | [], [] => None
    | _, _ =>
        match remaining1 ++ remaining2 with
        | [single] => Some single
        | all_remaining => Some (LogicalExpression (Some OR) all_remaining)
        end
    end
  else None.

Section Candidates.

Variable iteration : list Expression -> list Expression.

(** The facts each rule tries to emit on a knowledge base (the table of
    rules of the specification): it emits those of them that are neither
    in the knowledge base nor already derived in the pass. *)
Definition ModusPonens_candidates (kb : list Expression) (e : Expression) : Prop :=
  exists impl, In impl (filter (has_operator IMPLIES) (iteration kb)) /\
  exists fact,
    In fact (filter (fun item => negb (has_operator IMPLIES item)) (iteration kb)) /\
    mp_candidate (arg 0 impl) (arg 1 impl) fact = Some e.

Definition ModusTollens_candidates (kb : list Expression) (e : Expression) : Prop :=
  exists impl, In impl (filter (has_operator IMPLIES) (iteration kb)) /\
  exists neg, In neg (filter (has_operator NOT) (iteration kb)) /\
    (if _match (arg 1 impl) (arg 0 neg)
     then Some (LogicalExpression (Some NOT) [arg 0 impl]) else None) = Some e.

Definition HypotheticalSyllogism_candidates (kb : list Expression) (e : Expression)
  : Prop :=
  exists impl1, In impl1 (filter (has_operator IMPLIES) (iteration kb)) /\
  exists impl2, In impl2 (filter (has_operator IMPLIES) (iteration kb)) /\
    (if expr_eqb impl1 impl2 then None
     else if expr_eqb (arg 1 impl1) (arg 0 impl2)
          then Some (LogicalExpression (Some IMPLIES) [arg 0 impl1; arg 1 impl2])
          else None) = Some e.

Definition DisjunctiveSyllogism_candidates (kb : list Expression) (e : Expression)
  : Prop :=
  exists disj, In disj (filter (has_operator OR) (iteration kb)) /\
  exists neg, In neg (filter (has_operator NOT) (iteration kb)) /\
  exists x, In x (enumerate (operands disj)) /\
  exists y, In y (enumerate (operands disj)) /\
    (if expr_eqb (snd x) (arg 0 neg) && negb (Nat.eqb (fst x) (fst y))
     then Some (snd y) else None) = Some e.

Definition Simplification_candidates (kb : list Expression) (e : Expression) : Prop :=
  exists conj, In conj (filter (has_operator AND) (iteration kb)) /\
  exists op, In op (operands conj) /\ e = op.

Definition Conjunction_candidates (kb : list Expression) (e : Expression) : Prop :=
  (20 <? length (filter is_atom (iteration kb)))%nat = false /\
  conjunction_candidates (filter is_atom (iteration kb)) e.

Definition Resolution_candidates (kb : list Expression) (e : Expression) : Prop :=
  exists disj1, In disj1 (filter (has_operator OR) (iteration kb)) /\
  exists disj2, In disj2 (filter (has_operator OR) (iteration kb)) /\
    expr_eqb disj1 disj2 = false /\
    exists op1, In op1 (operands disj1) /\
    exists op2, In op2 (operands disj2) /\
      resolvent disj1 disj2 op1 op2 = Some e.

Definition BiconditionalElimination_candidates (kb : list Expression) (e : Expression)
  : Prop :=
  exists iff, In iff (filter (has_operator IFF) (iteration kb)) /\
    (e = LogicalExpression (Some IMPLIES) [arg 0 iff; arg 1 iff] \/
     e = LogicalExpression (Some IMPLIES) [arg 1 iff; arg 0 iff]).

End Candidates.

(** On a well-formed knowledge base the rule's [apply] returns, emits only
    candidates ([C]) and leaves every candidate in the knowledge base or in
    [new_facts]. *)
Definition derives_exactly (rule : DeductionRule)
    (C : list Expression -> Expression -> Prop) : Prop :=
  forall knowledge_base,
    forallb well_formed knowledge_base = true ->
    forall new_facts, exists st',
      apply rule knowledge_base new_facts = Ok st' /\
      extends knowledge_base (C knowledge_base) ([], new_facts) st' /\
      (forall e, C knowledge_base e -> In e knowledge_base \/ In e (snd st')).

(** What a rule derives from a knowledge base when nothing else has been
    derived in the pass. *)
Definition derivable (rule : DeductionRule) (kb : list Expression) (e : Expression)
  : Prop :=
  exists st', apply rule kb [] = Ok st' /\ In e (snd st').

(** The chains [infer_all] appends for the facts of one pass. *)
Definition chains_of (depth : Z) (d : Derived) : list DerivationChain :=
  map (fun d => mkChain (fst d) (snd d) depth []) d.

(** The chains appended for a log of passes, the first of them being pass
    number [n + 1]. *)
Fixpoint chains_of_log (n : Z) (log : list Pass) : list DerivationChain :=
  match log with
  | [] => []
  | p :: ps => chains_of (n + 1) (derived_in p) ++ chains_of_log (n + 1) ps
  end.

(** The knowledge base after the facts of a pass have been added. *)
Definition add_all (kb : list Expression) (d : Derived) : list Expression :=
  fold_left set_add (map fst d) kb.

(** Each pass of [log] enters with the knowledge base its predecessors
    left, starting from [kb] and ending in [final]. *)
Fixpoint chained (kb : list Expression) (log : list Pass) (final : list Expression)
  : Prop :=
  match log with
  | [] => final = kb
  | p :: ps => entering p = kb /\ chained (add_all kb (derived_in p)) ps final
  end.

(** The engine after the facts of pass number [n] were recorded. *)
Definition record_pass (n : Z) (self : LogicEngine) (d : Derived) : LogicEngine :=
  mkEngine (add_all (knowledge_base self) d)
           (original_facts self) (original_rules self)
           (derivation_chains self ++ chains_of n d)
           (max_iterations self) (rule_manager self) (contradictions self).

(** A run of the loop from iteration count [n] and engine [self]: it stops
    at the cap, or after a pass that derived nothing, or goes on after a
    pass that derived something. *)
Inductive loop_run : Z -> LogicEngine -> list Pass -> Z -> LogicEngine -> Prop :=
| run_cap n self :
    (max_iterations self <= n)%Z ->
    loop_run n self [] n self
| run_saturated n self :
    (n < max_iterations self)%Z ->
    apply_all_rules (rule_manager self) (knowledge_base self) = Ok [] ->
    loop_run n self [mkPass (knowledge_base self) []] (n + 1) self
| run_pass n self d log n' self' :
    (n < max_iterations self)%Z ->
    apply_all_rules (rule_manager self) (knowledge_base self) = Ok d ->
    d <> [] ->
    loop_run (n + 1) (record_pass (n + 1) self d) log n' self' ->
    loop_run n self (mkPass (knowledge_base self) d :: log) n' self'.

(** What the engine is left with by its constructor and its methods when
    the expressions it is given are well formed: a knowledge base of
    well-formed expressions without duplicates, the rules of the rule
    manager, and a derivation history of facts of the knowledge base. *)
Definition engine_ok (self : LogicEngine) : Prop :=
  forallb well_formed (knowledge_base self) = true /\
  NoDup (knowledge_base self) /\
  Forall lawful (rules (rule_manager self)) /\
  (forall c, In c (derivation_chains self) ->
     In (conclusion c) (knowledge_base self)).

(** The entries are those of the negations of the knowledge base whose
    operand is an atom of the knowledge base. *)
Definition contradicted (kb : list Expression) (neg : Expression) : Prop :=
  In neg kb /\ has_operator NOT neg = true /\
  is_atom (arg 0 neg) = true /\ In (arg 0 neg) kb.

(** [entry] is the text recorded for the negation [neg]. *)
Definition entry_of (neg : Expression) (entry : str) : Prop :=
  format (contradiction_entry (arg 0 neg) neg) = Ok entry.

(** The calls a program makes on an engine. *)
Inductive call :=
| AddFact (x : argument)
| AddRule (x : argument)
| InferAll
| Query (x : argument)
| Clear.

(** An argument whose expression, when given parsed, is well formed. *)
Definition argument_ok (x : argument) : Prop :=
  match x with
  | Text _ => True
  | Parsed e => well_formed e = true
  end.

(** A call whose arguments are well formed. *)
Definition call_ok (c : call) : Prop :=
  match c with
  | AddFact x | AddRule x | Query x => argument_ok x
  | InferAll | Clear => True
  end.

Definition is_clear (c : call) : bool :=
  match c with
  | Clear => true
  | _ => false
  end.

Section Calls.

Variable iteration : list Expression -> list Expression.

(** The engine a call leaves. *)
Definition perform (c : call) (self : LogicEngine) : result LogicEngine :=
  match c with
  | AddFact x => add_fact self x
  | AddRule x => add_rule self x
  | InferAll => '(self', _) <- infer_all iteration self ;; Ok self'
  | Query x => _ <- query self x ;; Ok self
  | Clear => Ok (clear self)
  end.


(** Termination within the cap as the specification states it:
    [infer_all] returns after at most [max_iterations] passes, and reports
    [max_iterations] when no pass was empty. *)
Definition termination_within_max_iterations : Prop :=
  forall self,
    engine_ok self ->
    exists self' r log,
      infer_all_log iteration self = Ok (self', r, log) /\
      (Z.of_nat (length log) <= max_iterations self)%Z /\
      (Forall (fun p => derived_in p <> []) log ->
       InferenceResult.iterations r = max_iterations self).

End Calls.

(** A non-empty string without white space at either end. *)
Definition trimmed (s : str) : bool :=
  match s with
  | c :: _ => negb (isspace c)
  | [] => false
  end &&
  match rev s with
  | c :: _ => negb (isspace c)
  | [] => false
  end.

Definition no_parentheses (s : str) : bool :=
  negb (char_in lparen s) && negb (char_in rparen s).

Definition is_identifier (s : str) : bool :=
  match s with
  | c :: rest => is_ident_start c && forallb is_ident_char rest
  | [] => false
  end.

(** A subject or object the grammar can carry: trimmed text without
    parentheses (nor commas, for an object). *)
Definition valid_subject (s : str) : bool := trimmed s && no_parentheses s.
Definition valid_object (s : str) : bool :=
  trimmed s && no_parentheses s && negb (char_in 44%N s).

(** The atoms of the grammar. *)
Definition valid_atom (a : Atom) : bool :=
  valid_subject (subject a) && is_identifier (relation a) &&
  forallb valid_object (objects a).

(** The text starts with something other than white space. *)
Definition starts_ok (s : str) : bool :=
  match s with
  | c :: _ => negb (isspace c)
  | [] => false
  end.

(** One order in which a set may be enumerated: the order in which its
    elements were added. *)
Definition insertion_order (s : list Expression) : list Expression := s.

Definition atom0 (subject relation : string) : Expression :=
  EAtom (mkAtom (lit subject) (lit relation) []).

Definition implies (a c : Expression) : Expression :=
  LogicalExpression (Some IMPLIES) [a; c].

Definition negation (a : Expression) : Expression :=
  LogicalExpression (Some NOT) [a].

(** An engine capped at one iteration that knows [(a)P()],
    [(a)P() -> (a)Q()] and [(a)Q() -> (a)R()]. *)
Definition capped_engine : LogicEngine :=
  mkEngine
    [atom0 "a" "P"; implies (atom0 "a" "P") (atom0 "a" "Q");
     implies (atom0 "a" "Q") (atom0 "a" "R")]
    [atom0 "a" "P"]
    [implies (atom0 "a" "P") (atom0 "a" "Q"); implies (atom0 "a" "Q") (atom0 "a" "R")]
    [] 1 (RuleManager_init insertion_order false) [].

(** An engine that knows [(Pedro)Feliz()] and its negation, for a given
    order of enumeration. *)
Definition feliz (iteration : list Expression -> list Expression) : LogicEngine :=
  mkEngine
    [atom0 "Pedro" "Feliz"; negation (atom0 "Pedro" "Feliz")]
    [atom0 "Pedro" "Feliz"; negation (atom0 "Pedro" "Feliz")]
    [] [] 100 (RuleManager_init iteration false) [].

Definition feliz_engine : LogicEngine := feliz insertion_order.

(** The engine, and the result, of a call of [infer_all] that returned. *)
Definition engine_of (r : result (LogicEngine * InferenceResult.t)) (default : LogicEngine)
  : LogicEngine :=
  match r with
  | Ok (self, _) => self
  | Raise _ => default
  end.

Definition arrow : str := lit " " ++ [glyph_implies] ++ lit " ".
Definition wedge : str := lit " " ++ [glyph_and] ++ lit " ".

(** The conjunction of [(a)P()] and [(b)Q()]. *)
Definition conjunction_ab : Expression :=
  LogicalExpression (Some AND) [atom0 "a" "P"; atom0 "b" "Q"].

Definition pedro : Expression :=
  EAtom (mkAtom (lit "Pedro") (lit "IsA") [lit "estudiante"]).

(** An engine that knows [(Pedro)IsA(estudiante)] only. *)
Definition pedro_engine : LogicEngine :=
  mkEngine [pedro] [pedro] [] [] 100 (RuleManager_init insertion_order false) [].

(** The conclusions and depths of a result's chains. *)
Definition conclusions (r : InferenceResult.t) : list (Expression * Z) :=
  map (fun c => (conclusion c, depth c)) (InferenceResult.derived_facts r).

(** What [infer_all] leaves and returns on the engines above. *)
Definition capped_once : LogicEngine :=
  engine_of (infer_all insertion_order capped_engine) capped_engine.
Definition capped_twice : LogicEngine :=
  engine_of (infer_all insertion_order capped_once) capped_once.

Definition the_result (r : result (LogicEngine * InferenceResult.t)) : InferenceResult.t :=
  match r with
  | Ok (_, res) => res
  | Raise _ => InferenceResult.mk [] [] [] 0 []
  end.

(* ------------------------------------------------------------------ *)
(** ** Further vocabulary

    The grammar the parser accepts and a notation for it, what is known of
    bindings, the bookkeeping of the engine ([get_all_facts],
    [get_facts_by_depth], [get_derivation_chain], [get_rule_names]),
    [load_from_file] and [api.deduce_all], and the inputs the further
    theorems are tried at. *)

(** *** The grammar *)

Section Grammar.

(** What is asked of the atoms. *)
Variable atom_ok : Atom -> bool.

(** The levels of the recursive descent, from [_parse_not] up to
    [_parse_iff].  A literal is an atom under any number of negations. *)
Fixpoint is_literal (e : Expression) : bool :=
  match e with
  | EAtom a => atom_ok a
  | LogicalExpression (Some NOT) [x] => is_literal x
  | _ => false
  end.

(** What [_parse_and] reads: a literal, or two or more of them under AND. *)
Definition is_conjunction (e : Expression) : bool :=
  is_literal e ||
  match e with
  | LogicalExpression (Some AND) ops => (2 <=? length ops)%nat && forallb is_literal ops
  | _ => false
  end.

(** What [_parse_or] reads: a conjunction, or two or more of them under
    OR. *)
Definition is_disjunction (e : Expression) : bool :=
  is_conjunction e ||
  match e with
  | LogicalExpression (Some OR) ops => (2 <=? length ops)%nat && forallb is_conjunction ops
  | _ => false
  end.

(** What [_parse_implies] reads: disjunctions under implications nested to
    the left. *)
Fixpoint is_implication (e : Expression) : bool :=
  is_disjunction e ||
  match e with
  | LogicalExpression (Some IMPLIES) [l; r] => is_implication l && is_disjunction r
  | _ => false
  end.

(** What [_parse_iff], and so [parse], reads: implications under
    biconditionals nested to the left. *)
Fixpoint in_grammar (e : Expression) : bool :=
  is_implication e ||
  match e with
  | LogicalExpression (Some IFF) [l; r] => in_grammar l && is_implication r
  | _ => false
  end.

End Grammar.

(** The atoms [_parse_atom] returns: an identifier as relation, no
    parenthesis in the subject or in an object. *)
Definition parsed_atom (a : Atom) : bool :=
  no_parentheses (subject a) && is_identifier (relation a) &&
  forallb no_parentheses (objects a).

(** The spellings of an operator the tokenizer turns into the operator's
    token. *)
Definition spellings (op : LogicalOperator) : list str :=
  match op with
  | AND => [[glyph_and]; lit "&"; lit "^"]
  | OR => [[glyph_or]; lit "|"; lit "v"]
  | NOT => [[glyph_not]; lit "~"; lit "!"]
  | IMPLIES => [[glyph_implies]; lit "->"; lit "=>"]
  | IFF => [[glyph_iff]]
  end.

(** An expression written without parentheses, every operator in the
    spelling chosen for it: a negation sign directly before its operand,
    the other operators between their operands with a space on each
    side. *)
Fixpoint written (spelling : LogicalOperator -> str) (e : Expression) : str :=
  match e with
  | EAtom a => Atom_str a
  | LogicalExpression (Some NOT) ops =>
      match ops with
      | x :: _ => spelling NOT ++ written spelling x
      | [] => []
      end
  | LogicalExpression (Some op) ops =>
      join (lit " " ++ spelling op ++ lit " ") (map (written spelling) ops)
  | LogicalExpression None _ => []
  end.

(** The notation with the operators' own signs. *)
Definition notation : Expression -> str := written (fun op => [value op]).

(** The lists of [parts] in a row, [sep] between one and the next. *)
Fixpoint interleave (sep : str) (parts : list (list str)) : list str :=
  match parts with
  | [] => []
  | [p] => p
  | p :: ps => p ++ sep :: interleave sep ps
  end.

(** The tokens of an expression of the grammar. *)
Fixpoint tokens_of (e : Expression) : list str :=
  match e with
  | EAtom a => [Atom_str a]
  | LogicalExpression (Some NOT) ops =>
      match ops with
      | x :: _ => [glyph_not] :: tokens_of x
      | [] => []
      end
  | LogicalExpression (Some op) ops => interleave [value op] (map tokens_of ops)
  | LogicalExpression None _ => []
  end.

(** Wherever the tokenizer meets the text [s], and whatever follows it, it
    steps over it and appends the tokens [toks]. *)
Definition tokenizes (s : str) (toks : list str) : Prop :=
  forall rest fuel i acc,
    length (s ++ rest) <= fuel ->
    _tokenize_loop fuel i (s ++ rest) acc
    = _tokenize_loop fuel (i + length s) rest (acc ++ toks).

(** The tokens [rest] do not start with one of the operators [symbols]. *)
Definition free_of (symbols : list char) (rest : list str) : bool :=
  match rest with
  | [] => true
  | t :: _ => negb (existsb (fun s => str_eqb t [s]) symbols)
  end.

(** The exception is a [ValueError]. *)
Definition is_value_error (x : exn) : Prop := exists e, x = ValueError e.

(** *** Bindings *)

(** An atom without variables. *)
Definition ground (a : Atom) : bool :=
  negb (_is_variable (subject a)) &&
  forallb (fun obj => negb (_is_variable obj)) (objects a).

(** Bindings whose keys are variables. *)
Definition binds_variables (bindings : Bindings) : Prop :=
  forall k v, lookup k bindings = Some v -> _is_variable k = true.

(** Bindings that send every key to itself. *)
Definition binds_identically (bindings : Bindings) : Prop :=
  forall k v, lookup k bindings = Some v -> v = k.

(** [bindings'] has the entries of [bindings], and maybe more. *)
Definition extends_bindings (bindings bindings' : Bindings) : Prop :=
  forall k v, lookup k bindings = Some v -> lookup k bindings' = Some v.

(** *** Rules and histories *)

(** The candidates of the seven rules of the default rule manager. *)
Definition default_candidates (iteration : list Expression -> list Expression)
    (kb : list Expression) (e : Expression) : Prop :=
  ModusPonens_candidates iteration kb e \/
  Simplification_candidates iteration kb e \/
  ModusTollens_candidates iteration kb e \/
  BiconditionalElimination_candidates iteration kb e \/
  DisjunctiveSyllogism_candidates iteration kb e \/
  HypotheticalSyllogism_candidates iteration kb e \/
  Resolution_candidates iteration kb e.

(** The disjunction of [ops]. *)
Definition disjunction (ops : list Expression) : Expression :=
  LogicalExpression (Some OR) ops.

(** [InferenceResult.get_all_facts] *)
Definition get_all_facts (self : InferenceResult.t) : list Expression :=
  fold_left (fun all_facts chain => set_add all_facts (conclusion chain))
    (InferenceResult.derived_facts self) (InferenceResult.original_facts self).

(** [by_depth[chain.depth].append(chain)], after
    [if chain.depth not in by_depth: by_depth[chain.depth] = []]; the
    dictionary is the list of its items in the order the keys were
    inserted. *)
Fixpoint by_depth_append (chain : DerivationChain)
    (by_depth : list (Z * list DerivationChain)) : list (Z * list DerivationChain) :=
  match by_depth with
  | [] => [(depth chain, [chain])]
  | (d, chains) :: rest =>
      if (d =? depth chain)%Z then (d, chains ++ [chain]) :: rest
      else (d, chains) :: by_depth_append chain rest
  end.

(** [InferenceResult.get_facts_by_depth] *)
Definition get_facts_by_depth (self : InferenceResult.t)
  : list (Z * list DerivationChain) :=
  fold_left (fun by_depth chain => by_depth_append chain by_depth)
    (InferenceResult.derived_facts self) [].

(** [by_depth.get(d)] *)
Fixpoint depth_get (d : Z) (by_depth : list (Z * list DerivationChain))
  : option (list DerivationChain) :=
  match by_depth with
  | [] => None
  | (d', chains) :: rest => if (d' =? d)%Z then Some chains else depth_get d rest
  end.

(** [LogicEngine.get_derivation_chain] *)
Definition get_derivation_chain (self : LogicEngine) (fact : argument)
  : result (option DerivationChain) :=
  fact <- parsed fact ;;
  Ok (find (fun chain => expr_eqb (conclusion chain) fact) (derivation_chains self)).

(** [RuleManager.get_rule_names] *)
Definition get_rule_names (self : RuleManager) : list str := map name (rules self).

(** The facts a rule has derived so far are distinct and are all in
    [new_facts]. *)
Definition distinct_state (st : RuleState) : Prop :=
  NoDup (map fst (fst st)) /\ incl (map fst (fst st)) (snd st).

(** A piece of a rule's loop nest keeps the derived facts distinct. *)
Definition keeps_distinct (m : RuleState -> result RuleState) : Prop :=
  forall st st', m st = Ok st' -> distinct_state st -> distinct_state st'.

(** A rule never derives a fact twice in one application. *)
Definition distinct (rule : DeductionRule) : Prop :=
  forall knowledge_base new_facts st',
    apply rule knowledge_base new_facts = Ok st' -> NoDup (map fst (fst st')).

(** Every element of the knowledge base is an original fact, an original
    rule or the conclusion of a derivation chain, and nothing else is. *)
Definition accounted (self : LogicEngine) : Prop :=
  forall e, In e (knowledge_base self) <->
    In e (original_facts self) \/ In e (original_rules self) \/
    In e (map conclusion (derivation_chains self)).

Section Built.

Variable iteration : list Expression -> list Expression.

(** An engine a program can build: the constructor followed by calls with
    well-formed arguments. *)
Definition built (self : LogicEngine) : Prop :=
  exists max_iterations enable_conjunction calls,
    Forall call_ok calls /\
    foldM (perform iteration) calls
      (LogicEngine_init iteration max_iterations enable_conjunction) = Ok self.

(** What the constructor establishes and every call keeps. *)
Definition kept (self : LogicEngine) : Prop :=
  engine_ok self /\
  (exists enable_conjunction,
     rule_manager self = RuleManager_init iteration enable_conjunction) /\
  NoDup (map conclusion (derivation_chains self)) /\
  accounted self.

End Built.

(** *** Files and the API *)

(** [s.startswith(prefix)] *)
Fixpoint startswith_str (s prefix : str) : bool :=
  match prefix, s with
  | [], _ => true
  | p :: prefix', c :: s' => N.eqb c p && startswith_str s' prefix'
  | _ :: _, [] => false
  end.

(** What [load_from_file] prints for a line it could not parse: the line
    and the error. *)
Definition Warning := (str * exn)%type.

(** One round of the loop of [load_from_file] over the lines of the file:
    the engine it leaves and the warnings printed so far.  The handler
    catches every [Exception], so an error of the interpreter on a line
    would be reported as the errors of the parser are. *)
Definition load_line (st : LogicEngine * list Warning) (line : str)
  : LogicEngine * list Warning :=
  let '(self, warnings) := st in
  let line := strip line in
  match line with
  | [] => st
  | _ =>
      if startswith line 35%N then st
      else
        let line :=
          if char_in 35%N line then strip (hd [] (split_on 35%N line)) else line in
        match (if startswith_str line (lit "Rule:")
               then add_rule self (Text (strip (skipn 5 line)))
               else add_fact self (Text line)) with
        | Ok self' => (self', warnings)
        | Raise e => (self, warnings ++ [(line, e)])
        end
  end.

(** [LogicEngine.load_from_file], from the text read from the file on. *)
Definition load_from_file (self : LogicEngine) (content : str)
  : LogicEngine * list Warning :=
  fold_left load_line (split_on 10%N content) (self, []).

(** [s.replace(old, new)] for a non-empty [old]: [skip] characters of an
    occurrence just replaced are still to be stepped over. *)
Fixpoint replace_from (skip : nat) (old new s : str) : str :=
  match s with
  | [] => []
  | c :: s' =>
      match skip with
      | S skip' => replace_from skip' old new s'
      | O =>
          if startswith_str s old then new ++ replace_from (length old - 1) old new s'
          else c :: replace_from 0 old new s'
      end
  end.

(** [s.replace(old, new)] *)
Definition replace (s old new : str) : str := replace_from 0 old new s.

Section Api.

Variable iteration : list Expression -> list Expression.

(** [api.deduce_all] *)
Definition deduce_all (facts rules : list str) : result InferenceResult.t :=
  let engine := LogicEngine_init iteration 100 false in
  engine <- foldM (fun fact engine => add_fact engine (Text fact)) facts engine ;;
  engine <- foldM (fun rule engine =>
              let rule := strip (replace rule (lit "Rule:") []) in
              add_rule engine (Text rule)) rules engine ;;
  '(_, result) <- infer_all iteration engine ;;
  Ok result.

End Api.

(** A knowledge base of atoms and negations only. *)
Definition literals_only (kb : list Expression) : bool :=
  forallb (fun e => is_atom e || has_operator NOT e) kb.

(** *** Sample inputs *)

(** The operators in ASCII, where the tokenizer knows an ASCII spelling. *)
Definition ascii_spelling (op : LogicalOperator) : str :=
  match op with
  | AND => lit "&"
  | OR => lit "|"
  | NOT => lit "~"
  | IMPLIES => lit "->"
  | IFF => [glyph_iff]
  end.

(** An expression with every operator of the grammar:
    [~(a)P() & (b)Q() -> (c)R() | (d)S()] on the left of a biconditional,
    [(a)P() -> (b)Q()] on its right. *)
Definition sample_expression : Expression :=
  LogicalExpression (Some IFF)
    [implies
       (LogicalExpression (Some AND) [negation (atom0 "a" "P"); atom0 "b" "Q"])
       (disjunction [atom0 "c" "R"; atom0 "d" "S"]);
     implies (atom0 "a" "P") (atom0 "b" "Q")].

Definition pedro_atom : Atom := mkAtom (lit "Pedro") (lit "IsA") [lit "estudiante"].

(** [(X)IsA(estudiante)] *)
Definition x_atom : Atom := mkAtom (lit "X") (lit "IsA") [lit "estudiante"].

(** The engine the constructor and [calls] leave, for the enumeration of
    sets in insertion order. *)
Definition after (calls : list call) : LogicEngine :=
  match foldM (perform insertion_order) calls (LogicEngine_init insertion_order 100 false) with
  | Ok self => self
  | Raise _ => LogicEngine_init insertion_order 100 false
  end.

(** Calls that give [(a)P()], [(a)P() -> (a)Q()] and [(a)Q() -> (a)R()]. *)
Definition sample_calls : list call :=
  [AddFact (Text (lit "(a)P()"));
   AddRule (Text (lit "(a)P() -> (a)Q()"));
   AddRule (Text (lit "(a)Q() -> (a)R()"))].

Definition sample_engine : LogicEngine := after sample_calls.
Definition sample_inferred : LogicEngine := after (sample_calls ++ [InferAll]).

(** Calls that give premises for each of the seven rules. *)
Definition premises_calls : list call :=
  [AddFact (Text (lit "(a)P()"));
   AddRule (Text (lit "(a)P() -> (a)Q()"));
   AddRule (Text (lit "(a)Q() -> (a)R()"));
   AddFact (Text (lit "~(a)S()"));
   AddRule (Text (lit "(a)T() -> (a)S()"));
   AddFact (Text (lit "(a)U() | (a)S()"));
   AddFact (Text (lit "~(a)U() | (a)K()"));
   AddFact (Text (lit "(a)V() & (a)W()"));
   AddRule (Text (lit "(a)M() " ++ [glyph_iff] ++ lit " (a)N()"))].

Definition premises_engine : LogicEngine := after premises_calls.
Definition premises_inferred : LogicEngine := after (premises_calls ++ [InferAll]).

(** The log of a call of [infer_all] that returned. *)
Definition log_of (r : result (LogicEngine * InferenceResult.t * list Pass)) : list Pass :=
  match r with
  | Ok (_, _, log) => log
  | Raise _ => []
  end.

(** The result of a call of [deduce_all] that returned. *)
Definition deduced (r : result InferenceResult.t) : InferenceResult.t :=
  match r with
  | Ok res => res
  | Raise _ => InferenceResult.mk [] [] [] 0 []
  end.

(** What a pass of the rules that returned derived. *)
Definition derived_by (r : result Derived) : Derived :=
  match r with
  | Ok d => d
  | Raise _ => []
  end.

(** A fresh engine whose cap is below zero. *)
Definition negative_cap_engine : LogicEngine :=
  LogicEngine_init insertion_order (-1) false.

(** The knowledge of [capped_engine] under the default cap: two passes
    derive something, the third nothing. *)
Definition chain_engine : LogicEngine :=
  mkEngine
    [atom0 "a" "P"; implies (atom0 "a" "P") (atom0 "a" "Q");
     implies (atom0 "a" "Q") (atom0 "a" "R")]
    [atom0 "a" "P"]
    [implies (atom0 "a" "P") (atom0 "a" "Q"); implies (atom0 "a" "Q") (atom0 "a" "R")]
    [] 100 (RuleManager_init insertion_order false) [].

Definition chain_inferred : LogicEngine :=
  engine_of (infer_all insertion_order chain_engine) chain_engine.

Definition capped_result : InferenceResult.t :=
  the_result (infer_all insertion_order capped_engine).
Definition capped_log : list Pass :=
  log_of (infer_all_log insertion_order capped_engine).
Definition chain_result : InferenceResult.t :=
  the_result (infer_all insertion_order chain_engine).
Definition chain_log : list Pass :=
  log_of (infer_all_log insertion_order chain_engine).

(** A file of three lines: a fact, a line that does not parse and a rule;
    and what loading it into a fresh engine gives. *)
Definition sample_file : str :=
  lit "(a)P()" ++ [10%N] ++ lit "(a)Q" ++ [10%N] ++ lit "Rule: (a)P() -> (a)Q()".

Definition sample_loaded : LogicEngine * list Warning :=
  load_from_file (LogicEngine_init insertion_order 100 false) sample_file.

Definition sample_errors : list (str * ParseError) :=
  [(lit "(a)Q", UnexpectedCharacter lparen 0)].

(* ------------------------------------------------------------------ *)
(** ** Equality, membership, sets *)

Lemma Expression_induction (P : Expression -> Prop) :
  (forall a, P (EAtom a)) ->
  (forall op ops, Forall P ops -> P (LogicalExpression op ops)) ->
  forall e, P e.
Proof.
  intros Hatom Hexpr. fix IH 1. intros [a | op ops].
  - apply Hatom.
  - apply Hexpr. induction ops as [| x xs IHxs]; constructor; auto.
Qed.

Lemma list_eqb_eq {A} (eqb : A -> A -> bool) (l1 l2 : list A) :
  (forall x y, In x l1 -> (eqb x y = true <-> x = y)) ->
  (list_eqb eqb l1 l2 = true <-> l1 = l2).
Proof.
  revert l2. induction l1 as [| x xs IH]; intros [| y ys] H; simpl;
    try (split; [discriminate | discriminate]); try tauto.
  rewrite andb_true_iff, (H x y (or_introl eq_refl)), IH.
  - split; [intros [-> ->]; reflexivity | intros [= -> ->]; auto].
  - intros a b Ha. apply H. right. exact Ha.
Qed.

Lemma str_eqb_eq (a b : str) : str_eqb a b = true <-> a = b.
Proof. apply list_eqb_eq. intros x y _. apply N.eqb_eq. Qed.

Lemma atom_eqb_eq (a b : Atom) : atom_eqb a b = true <-> a = b.
Proof.
  destruct a as [s r o], b as [s' r' o']. unfold atom_eqb. simpl.
  rewrite !andb_true_iff, !str_eqb_eq.
  rewrite (list_eqb_eq str_eqb o o') by (intros; apply str_eqb_eq).
  split; [intros [[-> ->] ->]; reflexivity | intros [= -> -> ->]; auto].
Qed.

Lemma operator_eqb_eq (o1 o2 : option LogicalOperator) :
  operator_eqb o1 o2 = true <-> o1 = o2.
Proof.
  destruct o1 as [[]|], o2 as [[]|]; simpl; split; congruence.
Qed.

Lemma expr_eqb_eq (e1 e2 : Expression) : expr_eqb e1 e2 = true <-> e1 = e2.
Proof.
  revert e2. induction e1 as [a | op ops IH] using Expression_induction;
    intros [b | op' ops']; simpl; try (split; discriminate).
  - rewrite atom_eqb_eq. split; congruence.
  - rewrite andb_true_iff, operator_eqb_eq.
    assert (Hops : (fix operands_eqb (l1 l2 : list Expression) {struct l1} : bool :=
                      match l1, l2 with
                      | [], [] => true
                      | x :: xs, y :: ys => expr_eqb x y && operands_eqb xs ys
                      | _, _ => false
                      end) ops ops' = true <-> ops = ops').
    { clear op op'. revert ops'. induction IH as [| x xs Hx _ IHxs];
        intros [| y ys]; try (split; discriminate); try tauto.
      rewrite andb_true_iff, Hx, IHxs.
      split; [intros [-> ->]; reflexivity | intros [= -> ->]; auto]. }
    rewrite Hops. split; [intros [-> ->]; reflexivity | intros [= -> ->]; auto].
Qed.

Lemma expr_eqb_refl (e : Expression) : expr_eqb e e = true.
Proof. apply expr_eqb_eq. reflexivity. Qed.

Lemma mem_In (e : Expression) (s : list Expression) : mem e s = true <-> In e s.
Proof.
  unfold mem. rewrite existsb_exists. split.
  - intros [x [Hx Heq]]. apply expr_eqb_eq in Heq. subst. exact Hx.
  - intros H. exists e. split; [exact H | apply expr_eqb_refl].
Qed.

Lemma mem_not_In (e : Expression) (s : list Expression) : mem e s = false <-> ~ In e s.
Proof.
  rewrite <- mem_In. destruct (mem e s); split; congruence.
Qed.

Lemma set_add_In (s : list Expression) (e x : Expression) :
  In x (set_add s e) <-> In x s \/ x = e.
Proof.
  unfold set_add. destruct (mem e s) eqn:Hm.
  - apply mem_In in Hm. split; [auto | intros [H | ->]; auto].
  - rewrite in_app_iff. simpl. intuition congruence.
Qed.

Lemma set_add_length (s : list Expression) (e : Expression) :
  length s <= length (set_add s e).
Proof.
  unfold set_add. destruct (mem e s); [lia |]. rewrite length_app. simpl. lia.
Qed.

Lemma set_add_NoDup (s : list Expression) (e : Expression) :
  NoDup s -> NoDup (set_add s e).
Proof.
  intros H. unfold set_add. destruct (mem e s) eqn:Hm; [exact H |].
  apply mem_not_In in Hm. apply NoDup_app; [exact H | repeat constructor; simpl; tauto |].
  intros x Hx [<- | []]. exact (Hm Hx).
Qed.

(* ------------------------------------------------------------------ *)
(** ** Well-formed expressions never raise *)

Lemma well_formed_operands (op : option LogicalOperator) (ops : list Expression) :
  well_formed (LogicalExpression op ops) = true ->
  forall x, In x ops -> well_formed x = true.
Proof.
  simpl. rewrite andb_true_iff, forallb_forall. intros [_ H]. exact H.
Qed.

Lemma well_formed_In_operands (e x : Expression) :
  well_formed e = true -> In x (operands e) -> well_formed x = true.
Proof.
  destruct e as [a | op ops]; simpl; [tauto |].
  intros H. apply (well_formed_operands op ops H).
Qed.

Lemma to_str_total (e : Expression) :
  well_formed e = true -> exists s, to_str e = Ok s.
Proof.
  induction e as [a | op ops IH] using Expression_induction; intros Hwf.
  - eexists. reflexivity.
  - assert (Hall : forall x, In x ops -> exists s, to_str x = Ok s).
    { rewrite Forall_forall in IH. intros x Hx. apply IH; [exact Hx |].
      exact (well_formed_operands op ops Hwf x Hx). }
    assert (Hstrs : exists ss,
               (fix strs (l : list Expression) : result (list str) :=
                  match l with
                  | [] => Ok []
                  | x :: xs => s <- to_str x ;; ss <- strs xs ;; Ok (s :: ss)
                  end) ops = Ok ss).
    { clear Hwf IH. induction ops as [| x xs IHxs]; [eexists; reflexivity |].
      destruct (Hall x (or_introl eq_refl)) as [s Hs].
      destruct IHxs as [ss Hss]; [intros y Hy; apply Hall; right; exact Hy |].
      exists (s :: ss). rewrite Hs. simpl. rewrite Hss. reflexivity. }
    destruct Hstrs as [ss Hss].
    destruct op as [[] |]; simpl;
      try (rewrite Hss; simpl; eexists; reflexivity).
    + destruct ops as [| x xs]; [discriminate Hwf |].
      destruct (Hall x (or_introl eq_refl)) as [s Hs]. rewrite Hs.
      eexists. reflexivity.
    + destruct ops as [| x xs]; [eexists; reflexivity |].
      exact (Hall x (or_introl eq_refl)).
Qed.

Lemma format_total (pieces : list piece) :
  forallb piece_ok pieces = true -> exists s, format pieces = Ok s.
Proof.
  induction pieces as [| p ps IH]; simpl; [eexists; reflexivity |].
  rewrite andb_true_iff. intros [Hp Hps]. destruct (IH Hps) as [s Hs].
  destruct p as [t | e]; simpl in *.
  - rewrite Hs. eexists. reflexivity.
  - destruct (to_str_total e Hp) as [s1 Hs1]. rewrite Hs1, Hs.
    eexists. reflexivity.
Qed.

Lemma substitute_well_formed (e : Expression) (bindings : Bindings) :
  well_formed e = true -> well_formed (_substitute e bindings) = true.
Proof.
  induction e as [a | op ops IH] using Expression_induction; simpl; [reflexivity |].
  rewrite !andb_true_iff, length_map, !forallb_forall. intros [Har Hops].
  split; [exact Har |]. intros x Hx. apply in_map_iff in Hx.
  destruct Hx as [y [<- Hy]]. rewrite Forall_forall in IH. auto.
Qed.

(* ------------------------------------------------------------------ *)
(** ** The parser's loops end, and it returns well-formed expressions *)

Lemma _tokenize_step_advances (i : nat) (text : str) (c : char)
    (tok : option str) (n : nat) :
  _tokenize_step i text c = Ok (tok, n) -> 1 <= n.
Proof.
  unfold _tokenize_step. destruct (isspace c); [intros [= _ <-]; lia |].
  destruct (match_atom text) as [[[[subj rel] objs] rest] |].
  - intros [= _ <-]. simpl. lia.
  - destruct ((2 <=? length text) && str_in (firstn 2 text) two_char_operators).
    + repeat match goal with
             | |- (if ?b then _ else _) = _ -> _ => destruct b
             end; intros [= _ <-]; lia.
    + destruct (char_in c one_char_operators); [| discriminate].
      repeat match goal with
             | |- (if ?b then _ else _) = _ -> _ => destruct b
             end; intros [= _ <-]; lia.
Qed.

(** [len(text)] rounds are enough for the loop of [_tokenize]: more fuel
    changes nothing. *)
Lemma _tokenize_loop_fuel (fuel1 : nat) :
  forall fuel2 i text tokens,
    length text <= fuel1 -> length text <= fuel2 ->
    _tokenize_loop fuel1 i text tokens = _tokenize_loop fuel2 i text tokens.
Proof.
  induction fuel1 as [| fuel1 IH]; intros fuel2 i text tokens H1 H2;
    (destruct text as [| c rest]; [destruct fuel2; reflexivity |]);
    simpl in H1, H2; [lia |].
  destruct fuel2 as [| fuel2]; [lia |]. simpl.
  destruct (_tokenize_step i (c :: rest) c) as [[tok n] | e] eqn:Hstep;
    [| reflexivity].
  simpl. apply _tokenize_step_advances in Hstep.
  apply IH; rewrite length_skipn; cbn [length]; lia.
Qed.

Section OperatorLoop.

Variable A : Type.
Variable symbol : char.
Variable next : list str -> result (Expression * list str).
Variable combine : A -> Expression -> A.

(** The operand parser takes at least one token. *)
Hypothesis next_consumes :
  forall tokens e rest, next tokens = Ok (e, rest) -> length rest < length tokens.

(** [len(tokens)] rounds are enough for the loop of a binary level. *)
Lemma operator_loop_fuel (fuel1 : nat) :
  forall fuel2 acc tokens,
    length tokens <= fuel1 -> length tokens <= fuel2 ->
    operator_loop fuel1 symbol next combine acc tokens
    = operator_loop fuel2 symbol next combine acc tokens.
Proof.
  induction fuel1 as [| fuel1 IH]; intros fuel2 acc tokens H1 H2;
    (destruct tokens as [| token rest]; [destruct fuel2; reflexivity |]);
    simpl in H1, H2; [lia |].
  destruct fuel2 as [| fuel2]; [lia |]. simpl.
  destruct (str_eqb token [symbol]); [| reflexivity].
  destruct (next rest) as [[operand rest'] | e] eqn:Hnext; [| reflexivity].
  simpl. apply next_consumes in Hnext. apply IH; lia.
Qed.

(** What the loop returns keeps an invariant of the collected operands
    that every combination keeps, and leaves no more tokens than it
    found. *)
Lemma operator_loop_invariant (P : A -> Prop) :
  (forall acc tokens e rest,
     P acc -> next tokens = Ok (e, rest) -> P (combine acc e)) ->
  forall fuel acc tokens acc' rest,
    P acc ->
    operator_loop fuel symbol next combine acc tokens = Ok (acc', rest) ->
    P acc' /\ length rest <= length tokens.
Proof.
  intros Hstep. induction fuel as [| fuel IH]; intros acc tokens acc' rest HP H;
    destruct tokens as [| token tokens]; simpl in H;
    try (injection H as <- <-; split; [exact HP | simpl; lia]).
  - destruct (str_eqb token [symbol]); injection H as <- <-; split; auto.
  - destruct (str_eqb token [symbol]);
      [| injection H as <- <-; split; [exact HP | simpl; lia]].
    destruct (next tokens) as [[operand rest'] | e] eqn:Hnext; [| discriminate].
    simpl in H. pose proof (next_consumes _ _ _ Hnext).
    destruct (IH _ _ _ _ (Hstep _ _ _ _ HP Hnext) H) as [H1 H2].
    split; [exact H1 | simpl; lia].
Qed.

End OperatorLoop.

Lemma _parse_atom_spec (tokens : list str) (e : Expression) (rest : list str) :
  _parse_atom tokens = Ok (e, rest) ->
  well_formed e = true /\ length rest < length tokens.
Proof.
  unfold _parse_atom. destruct tokens as [| token tokens]; [discriminate |].
  destruct (match_atom token) as [[[[g1 g2] g3] unmatched] |]; [| discriminate].
  destruct (char_in lparen (strip g1) || char_in rparen (strip g1)); [discriminate |].
  destruct (strip g3).
  - intros [= <- <-]. split; [reflexivity | simpl; lia].
  - destruct (find _ _); [discriminate |].
    intros [= <- <-]. split; [reflexivity | simpl; lia].
Qed.

Lemma _parse_not_spec (tokens : list str) :
  forall e rest,
    _parse_not tokens = Ok (e, rest) ->
    well_formed e = true /\ length rest < length tokens.
Proof.
  induction tokens as [| token tokens IH]; intros e rest H.
  - apply _parse_atom_spec. exact H.
  - cbn [_parse_not] in H. destruct (str_eqb token [glyph_not]).
    + destruct (_parse_not tokens) as [[operand rest'] | x] eqn:E; [| discriminate].
      cbn [bind] in H. injection H as <- <-. destruct (IH _ _ eq_refl) as [H1 H2].
      split; [simpl; rewrite H1; reflexivity | simpl; lia].
    + apply _parse_atom_spec in H. exact H.
Qed.

(** A level that collects operands in a list ([_parse_and], [_parse_or]). *)
Lemma list_level_spec (op : LogicalOperator) (symbol : char)
    (next : list str -> result (Expression * list str))
    (tokens : list str) (e : Expression) (rest : list str) :
  (forall tokens e rest,
     next tokens = Ok (e, rest) ->
     well_formed e = true /\ length rest < length tokens) ->
  arity_ok (Some op) 0 = true ->
  ('(first, rest) <- next tokens ;;
   '(operands, rest') <-
     operator_loop (length rest) symbol next append_operand [first] rest ;;
   match operands with
   | [single] => Ok (single, rest')
   | _ => Ok (LogicalExpression (Some op) operands, rest')
   end) = Ok (e, rest) ->
  well_formed e = true /\ length rest < length tokens.
Proof.
  intros Hnext Hop H.
  destruct (next tokens) as [[first rest1] | x] eqn:E1; [| discriminate].
  simpl in H. destruct (Hnext _ _ _ E1) as [W1 L1].
  destruct (operator_loop (length rest1) symbol next append_operand [first] rest1)
    as [[operands' rest2] | x] eqn:E2; [| discriminate].
  simpl in H.
  apply (operator_loop_invariant _ symbol next append_operand
           (fun t e r H => proj2 (Hnext t e r H))
           (fun l => forallb well_formed l = true)) in E2.
  - destruct E2 as [Wall L2].
    assert (Hwf : well_formed (LogicalExpression (Some op) operands') = true).
    { simpl. rewrite Wall, andb_true_r. destruct op; try reflexivity; discriminate. }
    destruct operands' as [| single [| second more]];
      injection H as <- <-; split; try exact Hwf; try lia.
    simpl in Wall. rewrite andb_true_r in Wall. exact Wall.
  - intros acc t x r Hacc Hx. unfold append_operand.
    rewrite forallb_app, Hacc. simpl. rewrite (proj1 (Hnext _ _ _ Hx)). reflexivity.
  - simpl. rewrite W1. reflexivity.
Qed.

(** A level that folds its operands to the left ([_parse_implies],
    [_parse_iff]). *)
Lemma binary_level_spec (op : LogicalOperator) (symbol : char)
    (next : list str -> result (Expression * list str))
    (tokens : list str) (e : Expression) (rest : list str) :
  (forall tokens e rest,
     next tokens = Ok (e, rest) ->
     well_formed e = true /\ length rest < length tokens) ->
  arity_ok (Some op) 2 = true ->
  ('(first, rest) <- next tokens ;;
   operator_loop (length rest) symbol next
     (fun l r => LogicalExpression (Some op) [l; r]) first rest) = Ok (e, rest) ->
  well_formed e = true /\ length rest < length tokens.
Proof.
  intros Hnext Hop H.
  destruct (next tokens) as [[first rest1] | x] eqn:E1; [| discriminate].
  simpl in H. destruct (Hnext _ _ _ E1) as [W1 L1].
  apply (operator_loop_invariant _ symbol next
           (fun l r => LogicalExpression (Some op) [l; r])
           (fun t e r H => proj2 (Hnext t e r H))
           (fun l => well_formed l = true)) in H.
  - destruct H as [H1 H2]. split; [exact H1 | lia].
  - intros acc t x r Hacc Hx. simpl.
    rewrite Hacc, (proj1 (Hnext _ _ _ Hx)), andb_true_r. simpl.
    destruct op; try reflexivity; discriminate.
  - exact W1.
Qed.

Lemma _parse_and_spec (tokens : list str) (e : Expression) (rest : list str) :
  _parse_and tokens = Ok (e, rest) ->
  well_formed e = true /\ length rest < length tokens.
Proof.
  apply (list_level_spec AND glyph_and _parse_not); [| reflexivity].
  intros t x r. apply _parse_not_spec.
Qed.

Lemma _parse_or_spec (tokens : list str) (e : Expression) (rest : list str) :
  _parse_or tokens = Ok (e, rest) ->
  well_formed e = true /\ length rest < length tokens.
Proof.
  apply (list_level_spec OR glyph_or _parse_and); [| reflexivity].
  intros t x r. apply _parse_and_spec.
Qed.

Lemma _parse_implies_spec (tokens : list str) (e : Expression) (rest : list str) :
  _parse_implies tokens = Ok (e, rest) ->
  well_formed e = true /\ length rest < length tokens.
Proof.
  apply (binary_level_spec IMPLIES glyph_implies _parse_or); [| reflexivity].
  intros t x r. apply _parse_or_spec.
Qed.

Lemma _parse_iff_spec (tokens : list str) (e : Expression) (rest : list str) :
  _parse_iff tokens = Ok (e, rest) ->
  well_formed e = true /\ length rest < length tokens.
Proof.
  apply (binary_level_spec IFF glyph_iff _parse_implies); [| reflexivity].
  intros t x r. apply _parse_implies_spec.
Qed.

(** Whatever [parse] returns is well formed. *)
Lemma parse_well_formed (text : str) (e : Expression) :
  parse text = Ok e -> well_formed e = true.
Proof.
  unfold parse. destruct (_tokenize (strip text)) as [tokens | x]; [| discriminate].
  simpl. destruct tokens as [| token tokens]; [discriminate |].
  destruct (_parse_iff (token :: tokens)) as [[e' rest] | x] eqn:E; [| discriminate].
  simpl. destruct rest; [| discriminate]. intros [= <-].
  apply (_parse_iff_spec _ _ _ E).
Qed.

(** The fuel the four binary levels give their loops is enough. *)
Lemma levels_fuel (fuel : nat) (tokens : list str) :
  length tokens <= fuel ->
  (forall acc, operator_loop fuel glyph_and _parse_not append_operand acc tokens
               = operator_loop (length tokens) glyph_and _parse_not append_operand
                   acc tokens) /\
  (forall acc, operator_loop fuel glyph_or _parse_and append_operand acc tokens
               = operator_loop (length tokens) glyph_or _parse_and append_operand
                   acc tokens) /\
  (forall acc, operator_loop fuel glyph_implies _parse_or
                 (fun l r => LogicalExpression (Some IMPLIES) [l; r]) acc tokens
               = operator_loop (length tokens) glyph_implies _parse_or
                   (fun l r => LogicalExpression (Some IMPLIES) [l; r]) acc tokens) /\
  (forall acc, operator_loop fuel glyph_iff _parse_implies
                 (fun l r => LogicalExpression (Some IFF) [l; r]) acc tokens
               = operator_loop (length tokens) glyph_iff _parse_implies
                   (fun l r => LogicalExpression (Some IFF) [l; r]) acc tokens).
Proof.
  intros H. repeat split; intros acc; apply operator_loop_fuel; try lia;
    intros t e r Ht.
  - apply (_parse_not_spec _ _ _ Ht).
  - apply (_parse_and_spec _ _ _ Ht).
  - apply (_parse_or_spec _ _ _ Ht).
  - apply (_parse_implies_spec _ _ _ Ht).
Qed.

(** The regular expression of [_is_variable] adds nothing to the three
    [startswith] tests. *)
Lemma _is_variable_startswith (term : str) :
  _is_variable term
  = (startswith term 88%N || startswith term 89%N || startswith term 90%N).
Proof.
  unfold _is_variable, re_variable, startswith. destruct term as [| c ds].
  - reflexivity.
  - destruct (c =? 88)%N, (c =? 89)%N, (c =? 90)%N; reflexivity.
Qed.

(* ------------------------------------------------------------------ *)
(** ** Round trip of atoms *)

Lemma span_app (p : char -> bool) (s : str) (c : char) (rest : str) :
  forallb p s = true -> p c = false -> span p (s ++ c :: rest) = (s, c :: rest).
Proof.
  intros Hs Hc. induction s as [| x s IH]; simpl.
  - rewrite Hc. reflexivity.
  - simpl in Hs. apply andb_true_iff in Hs. destruct Hs as [Hx Hs].
    rewrite Hx, (IH Hs). reflexivity.
Qed.

Lemma strip_trimmed (s : str) : trimmed s = true -> strip s = s.
Proof.
  unfold trimmed, strip. intros H. apply andb_true_iff in H. destruct H as [H1 H2].
  assert (L1 : lstrip s = s).
  { destruct s as [| c s]; [reflexivity |]. simpl.
    apply negb_true_iff in H1. rewrite H1. reflexivity. }
  rewrite L1.
  assert (L2 : lstrip (rev s) = rev s).
  { destruct (rev s) as [| c r]; [reflexivity |]. simpl.
    apply negb_true_iff in H2. rewrite H2. reflexivity. }
  rewrite L2. apply rev_involutive.
Qed.

Lemma char_in_false (c : char) (s : str) :
  char_in c s = false <-> forallb (fun x => negb (N.eqb x c)) s = true.
Proof.
  unfold char_in. induction s as [| x s IH]; simpl; [tauto |].
  rewrite orb_false_iff, andb_true_iff, IH, negb_true_iff, (N.eqb_sym c x). tauto.
Qed.

Lemma ident_char_not_space (c : char) : is_ident_char c = true -> isspace c = false.
Proof.
  intros H. destruct (isspace c) eqn:Hs; [| reflexivity]. exfalso.
  unfold is_ident_char, is_ident_start, isspace in *.
  repeat match goal with
         | H : _ || _ = true |- _ => apply orb_true_iff in H; destruct H
         | H : _ && _ = true |- _ => apply andb_true_iff in H; destruct H
         | H : (_ <=? _)%N = true |- _ => apply N.leb_le in H
         | H : (_ =? _)%N = true |- _ => apply N.eqb_eq in H
         end; lia.
Qed.

Lemma ident_start_is_char (c : char) : is_ident_start c = true -> is_ident_char c = true.
Proof. unfold is_ident_char. intros ->. reflexivity. Qed.

Lemma identifier_trimmed (s : str) : is_identifier s = true -> trimmed s = true.
Proof.
  destruct s as [| c rest]; [discriminate |]. intros H. simpl in H.
  apply andb_true_iff in H. destruct H as [Hc Hrest].
  assert (Hall : forallb is_ident_char (c :: rest) = true).
  { simpl. rewrite (ident_start_is_char c Hc), Hrest. reflexivity. }
  assert (Hrev : forallb is_ident_char (rev (c :: rest)) = true).
  { apply forallb_forall. intros x Hx. apply in_rev in Hx.
    rewrite forallb_forall in Hall. auto. }
  unfold trimmed. destruct (rev (c :: rest)) as [| x r] eqn:E.
  - apply (f_equal (@length char)) in E. rewrite length_rev in E. discriminate.
  - simpl in Hrev. apply andb_true_iff in Hrev. destruct Hrev as [Hx _].
    rewrite (ident_char_not_space x Hx).
    rewrite (ident_char_not_space c (ident_start_is_char c Hc)). reflexivity.
Qed.

(** Both branches of [Atom.__str__] give the same shape. *)
Lemma Atom_str_shape (a : Atom) :
  Atom_str a
  = lparen :: subject a ++ rparen :: relation a ++
    lparen :: join (lit ", ") (objects a) ++ [rparen].
Proof.
  unfold Atom_str. destruct (objects a) as [| o os]; reflexivity.
Qed.

Lemma forallb_join (p : char -> bool) (sep : str) (parts : list str) :
  forallb p sep = true ->
  (forall x, In x parts -> forallb p x = true) ->
  forallb p (join sep parts) = true.
Proof.
  intros Hsep. induction parts as [| x [| y parts] IH]; intros H.
  - reflexivity.
  - apply H. left. reflexivity.
  - change (join sep (x :: y :: parts)) with (x ++ sep ++ join sep (y :: parts)).
    rewrite !forallb_app, Hsep, (H x (or_introl eq_refl)), IH; [reflexivity |].
    intros z Hz. apply H. right. exact Hz.
Qed.

(** What [valid_atom] says, spelled out. *)
Lemma valid_atom_facts (a : Atom) :
  valid_atom a = true ->
  trimmed (subject a) = true /\
  char_in lparen (subject a) = false /\ char_in rparen (subject a) = false /\
  is_identifier (relation a) = true /\
  (forall o, In o (objects a) ->
     trimmed o = true /\ char_in lparen o = false /\ char_in rparen o = false /\
     char_in 44%N o = false).
Proof.
  unfold valid_atom, valid_subject, valid_object, no_parentheses.
  rewrite !andb_true_iff, !negb_true_iff, forallb_forall.
  intros [[[Ht [Hl Hr]] Hid] Hobjs]. repeat split; auto;
    specialize (Hobjs o H); rewrite !andb_true_iff, !negb_true_iff in Hobjs; tauto.
Qed.

Lemma match_atom_Atom_str (a : Atom) :
  valid_atom a = true ->
  match_atom (Atom_str a)
  = Some (subject a, relation a, join (lit ", ") (objects a), []).
Proof.
  intros Hv. destruct (valid_atom_facts a Hv) as [Ht [_ [Hr [Hid Hobjs]]]].
  rewrite Atom_str_shape. destruct a as [subj rel objs]. simpl in *.
  assert (Hs : forallb not_rparen subj = true) by (apply char_in_false; exact Hr).
  assert (Ho : forallb not_rparen (join (lit ", ") objs) = true).
  { apply forallb_join; [reflexivity |]. intros o Hin. apply char_in_false.
    apply (Hobjs o Hin). }
  destruct subj as [| s0 subj]; [discriminate |].
  destruct rel as [| c2 rel]; [discriminate |].
  simpl in Hid. apply andb_true_iff in Hid. destruct Hid as [Hc2 Hrel].
  unfold match_atom.
  change (negb (lparen =? lparen)%N) with false. cbv iota.
  rewrite (span_app not_rparen (s0 :: subj) rparen _ Hs eq_refl).
  cbn [app]. change (negb (rparen =? rparen)%N) with false. cbv iota.
  rewrite Hc2. simpl negb.
  cbv iota.
  rewrite (span_app is_ident_char rel lparen _ Hrel eq_refl).
  change (negb (lparen =? lparen)%N) with false. cbv iota.
  rewrite (span_app not_rparen _ rparen [] Ho eq_refl).
  change (rparen =? rparen)%N with true. reflexivity.
Qed.

(** The tokenizer takes a text that the atom pattern matches whole as one
    token. *)
Lemma _tokenize_loop_token (fuel i : nat) (text : str) (c : char) (rest : str)
    (m : str * str * str * str) (tokens : list str) :
  text = c :: rest -> isspace c = false ->
  match_atom text = Some m -> group0 m = text ->
  _tokenize_loop (S fuel) i text tokens = Ok (tokens ++ [text]).
Proof.
  intros Htext Hc Hm Hg. rewrite Htext at 1. cbn [_tokenize_loop].
  rewrite <- Htext. unfold _tokenize_step. rewrite Hc, Hm, Hg. cbn [bind].
  rewrite skipn_all. destruct fuel; reflexivity.
Qed.

Lemma split_on_no_separator (sep : char) (s : str) :
  char_in sep s = false -> split_on sep s = [s].
Proof.
  induction s as [| c s IH]; [reflexivity |]. unfold char_in. simpl.
  intros H. apply orb_false_iff in H. destruct H as [Hc Hs].
  rewrite N.eqb_sym, Hc, (IH Hs). reflexivity.
Qed.

Lemma split_on_separator (sep : char) (s t : str) :
  char_in sep s = false -> split_on sep (s ++ sep :: t) = s :: split_on sep t.
Proof.
  induction s as [| c s IH]; intros H.
  - simpl. rewrite N.eqb_refl. reflexivity.
  - unfold char_in in H. simpl in H. apply orb_false_iff in H.
    destruct H as [Hc Hs]. simpl. rewrite N.eqb_sym, Hc, (IH Hs). reflexivity.
Qed.

(** [", ".join(objects).split(',')] *)
Lemma split_on_join (objs : list str) :
  (forall o, In o objs -> char_in 44%N o = false) ->
  split_on 44%N (join (lit ", ") objs)
  = match objs with
    | [] => [[]]
    | o :: os => o :: map (cons 32%N) os
    end.
Proof.
  induction objs as [| o [| o' os] IH]; intros H.
  - reflexivity.
  - apply split_on_no_separator. apply H. left. reflexivity.
  - change (join (lit ", ") (o :: o' :: os))
      with (o ++ 44%N :: 32%N :: join (lit ", ") (o' :: os)).
    rewrite split_on_separator by (apply H; left; reflexivity).
    cbn [split_on]. change (32 =? 44)%N with false. cbv iota.
    rewrite IH by (intros x Hx; apply H; right; exact Hx). reflexivity.
Qed.

Lemma strip_after_space (s : str) : strip (32%N :: s) = strip s.
Proof. reflexivity. Qed.

Lemma find_none_forall {A} (f : A -> bool) (l : list A) :
  (forall x, In x l -> f x = false) -> find f l = None.
Proof.
  induction l as [| x l IH]; intros H; [reflexivity |]. simpl.
  rewrite (H x (or_introl eq_refl)). apply IH. intros y Hy. apply H. right. exact Hy.
Qed.

Lemma starts_ok_app (s t : str) : starts_ok s = true -> starts_ok (s ++ t) = true.
Proof. destruct s; [discriminate | exact (fun H => H)]. Qed.

Lemma join_first (sep o : str) (os : list str) :
  exists t, join sep (o :: os) = o ++ t.
Proof.
  destruct os as [| o' os]; [exists []; simpl; rewrite app_nil_r; reflexivity |].
  eexists. reflexivity.
Qed.

Lemma join_last (sep : str) (objs : list str) (o : str) :
  exists t, join sep (objs ++ [o]) = t ++ o.
Proof.
  induction objs as [| x [| y objs] IH].
  - exists []. reflexivity.
  - exists (x ++ sep). simpl. rewrite <- app_assoc. reflexivity.
  - destruct IH as [t Ht].
    change (join sep ((x :: y :: objs) ++ [o]))
      with (x ++ sep ++ join sep ((y :: objs) ++ [o])).
    rewrite Ht. exists (x ++ sep ++ t). rewrite <- !app_assoc. reflexivity.
Qed.

Lemma trimmed_join (sep : str) (objs : list str) :
  objs <> [] -> (forall o, In o objs -> trimmed o = true) ->
  trimmed (join sep objs) = true.
Proof.
  intros Hne H. unfold trimmed. fold (starts_ok (join sep objs)).
  fold (starts_ok (rev (join sep objs))). apply andb_true_iff. split.
  - destruct objs as [| o os]; [congruence |].
    destruct (join_first sep o os) as [t ->]. apply starts_ok_app.
    specialize (H o (or_introl eq_refl)). unfold trimmed in H.
    apply andb_true_iff in H. apply H.
  - destruct (exists_last Hne) as [front [o ->]].
    destruct (join_last sep front o) as [t ->]. rewrite rev_app_distr.
    apply starts_ok_app. specialize (H o). unfold trimmed in H.
    rewrite andb_true_iff in H. apply H. apply in_app_iff. right. left. reflexivity.
Qed.

Lemma _parse_atom_Atom_str (a : Atom) (rest : list str) :
  valid_atom a = true ->
  _parse_atom (Atom_str a :: rest) = Ok (EAtom a, rest).
Proof.
  intros Hv. destruct (valid_atom_facts a Hv) as [Ht [Hl [Hr [Hid Hobjs]]]].
  unfold _parse_atom. rewrite (match_atom_Atom_str a Hv).
  rewrite (strip_trimmed _ Ht), (strip_trimmed _ (identifier_trimmed _ Hid)).
  rewrite Hl, Hr. cbn [orb]. destruct a as [subj rel objs]. cbn [objects] in *.
  destruct objs as [| o os]; [reflexivity |].
  rewrite (strip_trimmed (join (lit ", ") (o :: os)))
    by (apply trimmed_join; [discriminate | intros x Hx; apply (Hobjs x Hx)]).
  rewrite split_on_join by (intros x Hx; apply (Hobjs x Hx)).
  assert (Hmap : map strip (o :: map (cons 32%N) os) = o :: os).
  { cbn [map]. rewrite (strip_trimmed o) by (apply (Hobjs o); left; reflexivity).
    f_equal. rewrite map_map. rewrite <- (map_id os) at 2. apply map_ext_in.
    intros x Hx. rewrite strip_after_space. apply strip_trimmed.
    apply (Hobjs x). right. exact Hx. }
  rewrite Hmap.
  rewrite (find_none_forall _ (o :: os)).
  - destruct (join_first (lit ", ") o os) as [t Hj]. rewrite Hj.
    destruct o as [| c o]; [| reflexivity].
    destruct (Hobjs [] (or_introl eq_refl)) as [H _]. discriminate.
  - intros x Hx. destruct (Hobjs x Hx) as [_ [H1 [H2 _]]]. rewrite H1, H2. reflexivity.
Qed.

Lemma _parse_not_atom (token : str) (rest : list str) :
  startswith token lparen = true ->
  _parse_not (token :: rest) = _parse_atom (token :: rest).
Proof.
  destruct token as [| c token]; [discriminate |]. simpl startswith. intros H.
  apply N.eqb_eq in H. subst c. reflexivity.
Qed.

(** Round trip of atoms: [parse(str(a))] is [a] for every atom of the
    grammar. *)
Lemma roundtrip_atom (a : Atom) :
  valid_atom a = true -> parse (Atom_str a) = Ok (EAtom a).
Proof.
  intros Hv. unfold parse.
  assert (Hstrip : strip (Atom_str a) = Atom_str a).
  { apply strip_trimmed. rewrite Atom_str_shape. unfold trimmed.
    apply andb_true_iff. split; [reflexivity |].
    replace (lparen :: subject a ++ rparen :: relation a ++
             lparen :: join (lit ", ") (objects a) ++ [rparen])
      with ((lparen :: subject a ++ rparen :: relation a ++
             lparen :: join (lit ", ") (objects a)) ++ [rparen])
      by (cbn [app]; repeat (rewrite <- app_assoc; cbn [app]); reflexivity).
    rewrite rev_app_distr. reflexivity. }
  rewrite Hstrip.
  assert (Htok : _tokenize (Atom_str a) = Ok [Atom_str a]).
  { unfold _tokenize. pose proof (Atom_str_shape a) as Hshape.
    destruct (length (Atom_str a)) as [| fuel] eqn:Hlen.
    - rewrite Hshape in Hlen. discriminate.
    - apply (_tokenize_loop_token fuel 0 _ _ _ _ [] Hshape eq_refl
               (match_atom_Atom_str a Hv)).
      symmetry. exact Hshape. }
  rewrite Htok. cbn [bind].
  unfold _parse_iff, _parse_implies, _parse_or, _parse_and.
  rewrite _parse_not_atom by (rewrite Atom_str_shape; reflexivity).
  rewrite (_parse_atom_Atom_str a [] Hv). reflexivity.
Qed.

(* ------------------------------------------------------------------ *)
(** ** A small logic of emitting loops *)

Lemma extends_refl kb C st : extends kb C st st.
Proof.
  exists []. rewrite app_nil_r. simpl. split; [reflexivity |].
  split; [intros e; tauto | intros e []].
Qed.

Lemma extends_trans kb C st1 st2 st3 :
  extends kb C st1 st2 -> extends kb C st2 st3 -> extends kb C st1 st3.
Proof.
  intros [a1 [Hd1 [Hn1 Hc1]]] [a2 [Hd2 [Hn2 Hc2]]]. exists (a1 ++ a2).
  split; [rewrite Hd2, Hd1, app_assoc; reflexivity |]. split.
  - intros e. rewrite Hn2, Hn1, map_app, in_app_iff. tauto.
  - intros e. rewrite map_app, in_app_iff. intros [He | He].
    + apply Hc1. exact He.
    + destruct (Hc2 e He) as [HC [Hwf [Hkb Hnf]]]. repeat split; auto.
      intros Hin. apply Hnf. apply Hn1. left. exact Hin.
Qed.

Lemma extends_weaken kb (C C' : Expression -> Prop) st st' :
  (forall e, C e -> C' e) -> extends kb C st st' -> extends kb C' st st'.
Proof.
  intros HCC [a [Hd [Hn Hc]]]. exists a. split; [exact Hd |].
  split; [exact Hn |]. intros e He.
  destruct (Hc e He) as [? [? [? ?]]]. auto.
Qed.

Lemma extends_new_facts kb C st st' e :
  extends kb C st st' -> In e (snd st) -> In e (snd st').
Proof. intros [a [_ [Hn _]]] H. apply Hn. left. exact H. Qed.

Lemma emits_iff kb (C C' : Expression -> Prop) m :
  (forall e, C e <-> C' e) -> emits kb C m -> emits kb C' m.
Proof.
  intros HCC H st. destruct (H st) as [st' [Hm [Hext Hcomp]]].
  exists st'. split; [exact Hm |]. split.
  - apply extends_weaken with (C := C); [intros e; apply HCC | exact Hext].
  - intros e He. apply Hcomp. apply HCC. exact He.
Qed.

(** A branch that emits nothing. *)
Lemma emits_nothing kb (C : Expression -> Prop) :
  (forall e, ~ C e) -> emits kb C (fun st => Ok st).
Proof.
  intros HC st. exists st. split; [reflexivity |]. split; [apply extends_refl |].
  intros e He. destruct (HC e He).
Qed.

(** The guarded emission at the end of every rule's inner loop. *)
Lemma emits_emit kb (C : Expression -> Prop) new_fact justification :
  (forall e, C e <-> e = new_fact) ->
  well_formed new_fact = true ->
  forallb piece_ok justification = true ->
  emits kb C (emit kb new_fact justification).
Proof.
  intros HC Hwf Hj [derived new_facts]. unfold emit.
  destruct (mem new_fact kb) eqn:Hkb; simpl.
  - exists (derived, new_facts). split; [reflexivity |]. split; [apply extends_refl |].
    intros e He. apply HC in He. subst. left. apply mem_In. exact Hkb.
  - destruct (mem new_fact new_facts) eqn:Hnf; simpl.
    + exists (derived, new_facts). split; [reflexivity |]. split; [apply extends_refl |].
      intros e He. apply HC in He. subst. right. apply mem_In. exact Hnf.
    + destruct (format_total justification Hj) as [j Hjs]. rewrite Hjs. simpl.
      eexists. split; [reflexivity |]. split.
      * exists [(new_fact, j)]. simpl. split; [reflexivity |]. split.
        -- intros e. rewrite set_add_In. intuition congruence.
        -- intros e [<- | []]. repeat split; auto.
           ++ apply HC. reflexivity.
           ++ apply mem_not_In. exact Hkb.
           ++ apply mem_not_In. exact Hnf.
      * intros e He. apply HC in He. subst. right. simpl.
        apply set_add_In. right. reflexivity.
Qed.

(** A [for] loop emits what its rounds emit. *)
Lemma emits_foldM {A} kb (Cx : A -> Expression -> Prop)
    (body : A -> RuleState -> result RuleState) (l : list A) :
  (forall x, In x l -> emits kb (Cx x) (body x)) ->
  emits kb (fun e => exists x, In x l /\ Cx x e) (foldM body l).
Proof.
  induction l as [| x xs IH]; intros Hbody st; simpl.
  - exists st. split; [reflexivity |]. split; [apply extends_refl |].
    intros e [y [[] _]].
  - destruct (Hbody x (or_introl eq_refl) st) as [st1 [H1 [Hext1 Hcomp1]]].
    rewrite H1. simpl.
    destruct (IH (fun y Hy => Hbody y (or_intror Hy)) st1) as [st2 [H2 [Hext2 Hcomp2]]].
    exists st2. split; [exact H2 |]. split.
    + apply extends_trans with st1.
      * apply extends_weaken with (C := Cx x); [| exact Hext1].
        intros e He. exists x. split; [left; reflexivity | exact He].
      * apply extends_weaken with (C := fun e => exists y, In y xs /\ Cx y e); [| exact Hext2].
        intros e [y [Hy He]]. exists y. split; [right; exact Hy | exact He].
    + intros e [y [[<- | Hy] He]].
      * destruct (Hcomp1 e He) as [Hk | Hn]; [left; exact Hk |].
        right. eapply extends_new_facts; eassumption.
      * apply Hcomp2. exists y. split; assumption.
Qed.

(** Two pieces run one after the other. *)
Lemma emits_seq kb (C1 C2 : Expression -> Prop) m1 m2 :
  emits kb C1 m1 -> emits kb C2 m2 ->
  emits kb (fun e => C1 e \/ C2 e) (fun st => st' <- m1 st ;; m2 st').
Proof.
  intros H1 H2 st. destruct (H1 st) as [st1 [E1 [Hext1 Hcomp1]]].
  destruct (H2 st1) as [st2 [E2 [Hext2 Hcomp2]]]. rewrite E1. simpl.
  exists st2. split; [exact E2 |]. split.
  - apply extends_trans with st1.
    + apply extends_weaken with (C := C1); [tauto | exact Hext1].
    + apply extends_weaken with (C := C2); [tauto | exact Hext2].
  - intros e [He | He].
    + destruct (Hcomp1 e He) as [Hk | Hn]; [left; exact Hk |].
      right. eapply extends_new_facts; eassumption.
    + apply Hcomp2. exact He.
Qed.

(* ------------------------------------------------------------------ *)
(** ** The deduction rules are lawful *)

Section Lawful.

Variable iteration : list Expression -> list Expression.
Hypothesis iteration_perm : forall s, Permutation s (iteration s).

Lemma iteration_In (s : list Expression) (x : Expression) :
  In x (iteration s) <-> In x s.
Proof.
  split; intros H.
  - apply (Permutation_in x (Permutation_sym (iteration_perm s))). exact H.
  - apply (Permutation_in x (iteration_perm s)). exact H.
Qed.

Lemma scanned_item (kb : list Expression) (p : Expression -> bool) (x : Expression) :
  forallb well_formed kb = true ->
  In x (filter p (iteration kb)) ->
  In x kb /\ well_formed x = true /\ p x = true.
Proof.
  intros Hkb Hx. apply filter_In in Hx. destruct Hx as [Hx Hp].
  apply (proj1 (iteration_In kb x)) in Hx. rewrite forallb_forall in Hkb.
  split; [exact Hx |]. split; [apply Hkb; exact Hx | exact Hp].
Qed.

Lemma operand_arg (op : LogicalOperator) (e : Expression) (i : nat) :
  has_operator op e = true ->
  i < length (operands e) ->
  operand e i = Ok (arg i e) /\ In (arg i e) (operands e).
Proof.
  destruct e as [a | o ops]; simpl; [discriminate |]. intros _ Hi.
  unfold arg. simpl. rewrite (nth_error_nth' ops (LogicalExpression o ops) Hi).
  split; [reflexivity | apply nth_In; exact Hi].
Qed.

Lemma implication_args (e : Expression) :
  well_formed e = true -> has_operator IMPLIES e = true ->
  operand e 0 = Ok (arg 0 e) /\ operand e 1 = Ok (arg 1 e) /\
  well_formed (arg 0 e) = true /\ well_formed (arg 1 e) = true.
Proof.
  intros Hwf Hop.
  assert (Hlen : 2 <= length (operands e)).
  { destruct e as [a | [[] |] ops]; try discriminate.
    destruct ops as [| x [| y r]]; try discriminate; simpl; lia. }
  destruct (operand_arg _ e 0 Hop) as [H0 I0]; [lia |].
  destruct (operand_arg _ e 1 Hop) as [H1 I1]; [lia |].
  repeat split; auto; eapply well_formed_In_operands; eauto.
Qed.

Lemma biconditional_args (e : Expression) :
  well_formed e = true -> has_operator IFF e = true ->
  operand e 0 = Ok (arg 0 e) /\ operand e 1 = Ok (arg 1 e) /\
  well_formed (arg 0 e) = true /\ well_formed (arg 1 e) = true.
Proof.
  intros Hwf Hop.
  assert (Hlen : 2 <= length (operands e)).
  { destruct e as [a | [[] |] ops]; try discriminate.
    destruct ops as [| x [| y r]]; try discriminate; simpl; lia. }
  destruct (operand_arg _ e 0 Hop) as [H0 I0]; [lia |].
  destruct (operand_arg _ e 1 Hop) as [H1 I1]; [lia |].
  repeat split; auto; eapply well_formed_In_operands; eauto.
Qed.

Lemma negation_arg (e : Expression) :
  well_formed e = true -> has_operator NOT e = true ->
  operand e 0 = Ok (arg 0 e) /\ well_formed (arg 0 e) = true.
Proof.
  intros Hwf Hop.
  assert (Hlen : 1 <= length (operands e)).
  { destruct e as [a | [[] |] ops]; try discriminate.
    destruct ops as [| x [| y r]]; try discriminate; simpl; lia. }
  destruct (operand_arg _ e 0 Hop) as [H0 I0]; [lia |].
  split; [exact H0 | eapply well_formed_In_operands; eauto].
Qed.

(** Closes the side conditions of [emits_emit]: the emitted fact and the
    expressions of its justification are well formed. *)
Ltac well_formedness :=
  repeat first
    [ assumption
    | reflexivity
    | match goal with
      | H : In ?x (operands ?e) |- well_formed ?x = true =>
          apply (well_formed_In_operands e x); assumption
      end
    | match goal with
      | |- forallb piece_ok _ = true => cbn [forallb piece_ok]
      | |- andb _ _ = true => apply andb_true_intro; split
      | |- well_formed (LogicalExpression _ (_ :: _)) = true =>
          cbn [well_formed forallb arity_ok length Nat.leb]
      end ].

Lemma derives_exactly_lawful (rule : DeductionRule)
    (C : list Expression -> Expression -> Prop) :
  derives_exactly rule C -> lawful rule.
Proof. intros H kb Hkb. exists (C kb). exact (H kb Hkb). Qed.

Lemma Simplification_derives :
  derives_exactly (Simplification iteration) (Simplification_candidates iteration).
Proof.
  intros kb Hkb new_facts. unfold Simplification_candidates.
  refine (emits_foldM kb _ _ _ _ ([], new_facts)).
  intros conj Hconj. destruct (scanned_item _ _ _ Hkb Hconj) as [_ [Hwf _]].
  apply emits_foldM. intros op Hop.
  apply emits_emit; [intros e; split; intros H; exact H | |]; well_formedness.
Qed.

Lemma BiconditionalElimination_derives :
  derives_exactly (BiconditionalElimination iteration)
    (BiconditionalElimination_candidates iteration).
Proof.
  intros kb Hkb new_facts. unfold BiconditionalElimination_candidates.
  refine (emits_foldM kb _ _ _ _ ([], new_facts)).
  intros iff Hiff. destruct (scanned_item _ _ _ Hkb Hiff) as [_ [Hwf Hop]].
  destruct (biconditional_args iff Hwf Hop) as [H0 [H1 [W0 W1]]].
  intros st. rewrite H0, H1. simpl bind. revert st.
  apply emits_seq;
    (apply emits_emit; [intros e; split; intros H; exact H | |]; well_formedness).
Qed.

Lemma conjunction_pairs_emits (kb facts : list Expression) :
  (forall x, In x facts -> well_formed x = true) ->
  emits kb (conjunction_candidates facts) (conjunction_pairs kb facts).
Proof.
  induction facts as [| fact1 later IH]; intros Hwf; simpl.
  - apply emits_nothing. tauto.
  - apply emits_seq.
    + apply emits_foldM. intros fact2 H2.
      apply emits_emit; [intros e; split; intros H; exact H | |]; well_formedness;
        apply Hwf; simpl; auto.
    + apply IH. intros x Hx. apply Hwf. right. exact Hx.
Qed.

Lemma Conjunction_derives :
  derives_exactly (Conjunction iteration) (Conjunction_candidates iteration).
Proof.
  intros kb Hkb new_facts. simpl. unfold Conjunction_apply, Conjunction_candidates.
  destruct (20 <? length (filter is_atom (iteration kb)))%nat.
  - refine (emits_nothing kb _ _ ([], new_facts)). intros e [H _]. discriminate.
  - refine (emits_iff kb (conjunction_candidates (filter is_atom (iteration kb)))
              _ _ _ _ ([], new_facts)).
    + intros e. split; [intros H; split; [reflexivity | exact H] | intros [_ H]; exact H].
    + apply conjunction_pairs_emits. intros x Hx. apply (scanned_item _ _ _ Hkb Hx).
Qed.

Lemma Addition_derives : derives_exactly Addition (fun _ _ => False).
Proof.
  intros kb Hkb new_facts. refine (emits_nothing kb _ _ ([], new_facts)). tauto.
Qed.

(** Names the candidates of an inner loop before its tests are examined. *)
Ltac candidates cands :=
  apply (emits_iff _ cands);
  [intros ?e; split; (let H := fresh in intros H; exact H) |].

Lemma ModusPonens_derives :
  derives_exactly (ModusPonens iteration) (ModusPonens_candidates iteration).
Proof.
  intros kb Hkb new_facts. unfold ModusPonens_candidates.
  refine (emits_foldM kb _ _ _ _ ([], new_facts)).
  intros impl Himpl. destruct (scanned_item _ _ _ Hkb Himpl) as [_ [Hwf Hop]].
  destruct (implication_args impl Hwf Hop) as [H0 [H1 [W0 W1]]].
  intros st. rewrite H0, H1. simpl bind. revert st.
  apply emits_foldM. intros fact Hfact.
  destruct (scanned_item _ _ _ Hkb Hfact) as [_ [Wf _]].
  candidates (fun e => mp_candidate (arg 0 impl) (arg 1 impl) fact = Some e).
  unfold mp_candidate.
  destruct (_match (arg 0 impl) fact); [| apply emits_nothing; discriminate].
  destruct (arg 0 impl) as [a | o l]; destruct fact as [f | o' l'];
    try (destruct (expr_eqb _ _);
         [ apply emits_emit; [intros e; split; congruence | |]; well_formedness
         | apply emits_nothing; discriminate ]).
  destruct (matches a f []) as [ok bindings]. simpl.
  destruct ok; [| apply emits_nothing; discriminate].
  apply emits_emit; [intros e; split; congruence | |];
    well_formedness; apply substitute_well_formed; exact W1.
Qed.

Lemma ModusTollens_derives :
  derives_exactly (ModusTollens iteration) (ModusTollens_candidates iteration).
Proof.
  intros kb Hkb new_facts. unfold ModusTollens_candidates.
  refine (emits_foldM kb _ _ _ _ ([], new_facts)).
  intros impl Himpl. destruct (scanned_item _ _ _ Hkb Himpl) as [_ [Hwf Hop]].
  destruct (implication_args impl Hwf Hop) as [H0 [H1 [W0 W1]]].
  intros st. rewrite H0, H1. simpl bind. revert st.
  apply emits_foldM. intros neg Hneg.
  destruct (scanned_item _ _ _ Hkb Hneg) as [_ [Wn Hn]].
  destruct (negation_arg neg Wn Hn) as [N0 WN0].
  candidates (fun e =>
    (if _match (arg 1 impl) (arg 0 neg)
     then Some (LogicalExpression (Some NOT) [arg 0 impl]) else None) = Some e).
  intros st. rewrite N0. simpl bind. revert st.
  destruct (_match (arg 1 impl) (arg 0 neg)); [| apply emits_nothing; discriminate].
  apply emits_emit; [intros e; split; congruence | |]; well_formedness.
Qed.

Lemma HypotheticalSyllogism_derives :
  derives_exactly (HypotheticalSyllogism iteration) (HypotheticalSyllogism_candidates iteration).
Proof.
  intros kb Hkb new_facts. unfold HypotheticalSyllogism_candidates.
  refine (emits_foldM kb _ _ _ _ ([], new_facts)).
  intros impl1 Himpl1. destruct (scanned_item _ _ _ Hkb Himpl1) as [_ [Hwf1 Hop1]].
  destruct (implication_args impl1 Hwf1 Hop1) as [A0 [A1 [WA0 WA1]]].
  apply emits_foldM. intros impl2 Himpl2.
  destruct (scanned_item _ _ _ Hkb Himpl2) as [_ [Hwf2 Hop2]].
  destruct (implication_args impl2 Hwf2 Hop2) as [B0 [B1 [WB0 WB1]]].
  candidates (fun e =>
    (if expr_eqb impl1 impl2 then None
     else if expr_eqb (arg 1 impl1) (arg 0 impl2)
          then Some (LogicalExpression (Some IMPLIES) [arg 0 impl1; arg 1 impl2])
          else None) = Some e).
  destruct (expr_eqb impl1 impl2); [apply emits_nothing; discriminate |].
  intros st. rewrite A1, B0. simpl bind. revert st.
  destruct (expr_eqb (arg 1 impl1) (arg 0 impl2)); [| apply emits_nothing; discriminate].
  intros st. rewrite A0, B1. simpl bind. revert st.
  apply emits_emit; [intros e; split; congruence | |]; well_formedness.
Qed.

Lemma enumerate_In {A} (l : list A) (i : nat) (x : A) :
  In (i, x) (enumerate l) -> In x l.
Proof. unfold enumerate. apply in_combine_r. Qed.

Lemma DisjunctiveSyllogism_derives :
  derives_exactly (DisjunctiveSyllogism iteration) (DisjunctiveSyllogism_candidates iteration).
Proof.
  intros kb Hkb new_facts. unfold DisjunctiveSyllogism_candidates.
  refine (emits_foldM kb _ _ _ _ ([], new_facts)).
  intros disj Hdisj. destruct (scanned_item _ _ _ Hkb Hdisj) as [_ [Hwf _]].
  apply emits_foldM. intros neg Hneg.
  destruct (scanned_item _ _ _ Hkb Hneg) as [_ [Wn Hn]].
  destruct (negation_arg neg Wn Hn) as [N0 WN0].
  intros st. rewrite N0. simpl bind. revert st.
  apply emits_foldM. intros x Hx.
  candidates (fun e => exists y, In y (enumerate (operands disj)) /\
    (if expr_eqb (snd x) (arg 0 neg) && negb (Nat.eqb (fst x) (fst y))
     then Some (snd y) else None) = Some e).
  destruct x as [i op]. simpl.
  destruct (expr_eqb op (arg 0 neg));
    [| apply emits_nothing; intros e [y [_ H]]; discriminate].
  apply emits_foldM. intros [j other] Hy. simpl.
  destruct (Nat.eqb i j); simpl; [apply emits_nothing; discriminate |].
  apply enumerate_In in Hy.
  assert (Wo : well_formed other = true)
    by (apply (well_formed_In_operands disj); assumption).
  apply emits_emit; [intros e; split; congruence | |]; well_formedness.
Qed.

Lemma _are_complementary_total (expr1 expr2 : Expression) :
  well_formed expr1 = true -> well_formed expr2 = true ->
  _are_complementary expr1 expr2 = Ok (complementary expr1 expr2).
Proof.
  intros W1 W2. unfold _are_complementary, complementary.
  destruct (has_operator NOT expr1) eqn:H1.
  - destruct (negation_arg expr1 W1 H1) as [-> _]. reflexivity.
  - destruct (has_operator NOT expr2) eqn:H2; [| reflexivity].
    destruct (negation_arg expr2 W2 H2) as [-> _]. reflexivity.
Qed.

Lemma remaining_well_formed (disj op x : Expression) :
  well_formed disj = true ->
  In x (filter (fun o => negb (expr_eqb o op)) (operands disj)) ->
  well_formed x = true.
Proof.
  intros Hwf Hx. apply filter_In in Hx.
  eapply well_formed_In_operands; [exact Hwf | apply Hx].
Qed.

Lemma Resolution_derives :
  derives_exactly (Resolution iteration) (Resolution_candidates iteration).
Proof.
  intros kb Hkb new_facts. unfold Resolution_candidates.
  refine (emits_foldM kb _ _ _ _ ([], new_facts)).
  intros disj1 Hdisj1. destruct (scanned_item _ _ _ Hkb Hdisj1) as [_ [Hwf1 _]].
  apply emits_foldM. intros disj2 Hdisj2.
  destruct (scanned_item _ _ _ Hkb Hdisj2) as [_ [Hwf2 _]].
  candidates (fun e => expr_eqb disj1 disj2 = false /\
    exists op1, In op1 (operands disj1) /\
    exists op2, In op2 (operands disj2) /\
      resolvent disj1 disj2 op1 op2 = Some e).
  destruct (expr_eqb disj1 disj2);
    [apply emits_nothing; intros e [H _]; discriminate |].
  apply emits_iff with (C := fun e =>
    exists op1, In op1 (operands disj1) /\
    exists op2, In op2 (operands disj2) /\
      resolvent disj1 disj2 op1 op2 = Some e);
    [intros e; split; [intros H; split; [reflexivity | exact H] | intros [_ H]; exact H] |].
  apply emits_foldM. intros op1 Hop1. apply emits_foldM. intros op2 Hop2.
  assert (W1 : well_formed op1 = true)
    by (apply (well_formed_In_operands disj1); assumption).
  assert (W2 : well_formed op2 = true)
    by (apply (well_formed_In_operands disj2); assumption).
  intros st. rewrite (_are_complementary_total op1 op2 W1 W2). simpl bind.
  revert st. unfold resolvent.
  destruct (complementary op1 op2); [| apply emits_nothing; discriminate].
  pose proof (remaining_well_formed disj1 op1) as R1.
  pose proof (remaining_well_formed disj2 op2) as R2.
  specialize (fun x => R1 x Hwf1). specialize (fun x => R2 x Hwf2).
  assert (Hall : forall x,
            In x (filter (fun op => negb (expr_eqb op op1)) (operands disj1) ++
                  filter (fun op => negb (expr_eqb op op2)) (operands disj2)) ->
            well_formed x = true).
  { intros x Hx. apply in_app_iff in Hx. destruct Hx; auto. }
  clear R1 R2.
  destruct (filter (fun op => negb (expr_eqb op op1)) (operands disj1)) as [| x1 r1];
  destruct (filter (fun op => negb (expr_eqb op op2)) (operands disj2)) as [| x2 r2];
    [apply emits_nothing; discriminate | | |].
  all: cbv zeta.
  all: match goal with
       | |- context [match ?l with [] => _ | _ => _ end] =>
           remember l as all_remaining eqn:Hrem
       end.
  all: assert (Wall : forallb well_formed all_remaining = true)
         by (apply forallb_forall; exact Hall).
  all: clear Hrem Hall; destruct all_remaining as [| s [| s' rest]].
  all: apply emits_emit; [intros e; split; congruence | |]; well_formedness;
       try (simpl in Wall; rewrite ?andb_true_iff in Wall; tauto).
Qed.

Lemma ModusPonens_lawful : lawful (ModusPonens iteration).
Proof. exact (derives_exactly_lawful _ _ ModusPonens_derives). Qed.

Lemma ModusTollens_lawful : lawful (ModusTollens iteration).
Proof. exact (derives_exactly_lawful _ _ ModusTollens_derives). Qed.

Lemma HypotheticalSyllogism_lawful : lawful (HypotheticalSyllogism iteration).
Proof. exact (derives_exactly_lawful _ _ HypotheticalSyllogism_derives). Qed.

Lemma DisjunctiveSyllogism_lawful : lawful (DisjunctiveSyllogism iteration).
Proof. exact (derives_exactly_lawful _ _ DisjunctiveSyllogism_derives). Qed.

Lemma Simplification_lawful : lawful (Simplification iteration).
Proof. exact (derives_exactly_lawful _ _ Simplification_derives). Qed.

Lemma Conjunction_lawful : lawful (Conjunction iteration).
Proof. exact (derives_exactly_lawful _ _ Conjunction_derives). Qed.

Lemma Addition_lawful : lawful Addition.
Proof. exact (derives_exactly_lawful _ _ Addition_derives). Qed.

Lemma Resolution_lawful : lawful (Resolution iteration).
Proof. exact (derives_exactly_lawful _ _ Resolution_derives). Qed.

Lemma BiconditionalElimination_lawful : lawful (BiconditionalElimination iteration).
Proof. exact (derives_exactly_lawful _ _ BiconditionalElimination_derives). Qed.

End Lawful.

(* ------------------------------------------------------------------ *)
(** ** One pass of the rule manager *)

Lemma lawful_derivable (rule : DeductionRule) (kb : list Expression)
    (C : Expression -> Prop) :
  (forall new_facts, exists st',
      apply rule kb new_facts = Ok st' /\
      extends kb C ([], new_facts) st' /\
      (forall e, C e -> In e kb \/ In e (snd st'))) ->
  forall e, derivable rule kb e <-> C e /\ ~ In e kb.
Proof.
  intros H e. destruct (H []) as [st0 [E0 [[added [_ [Hn Hc]]] Hcomp]]].
  split.
  - intros [st' [E' He]]. rewrite E0 in E'. injection E' as <-.
    apply Hn in He. destruct He as [[] | He].
    destruct (Hc e He) as [HC [_ [Hkb _]]]. auto.
  - intros [HC Hkb]. exists st0. split; [exact E0 |].
    destruct (Hcomp e HC) as [Hin | Hin]; [contradiction | exact Hin].
Qed.

(** What a rule derives alone is its candidates outside the knowledge
    base. *)
Lemma derives_exactly_derivable (rule : DeductionRule)
    (C : list Expression -> Expression -> Prop) (kb : list Expression) :
  derives_exactly rule C ->
  forallb well_formed kb = true ->
  forall e, derivable rule kb e <-> C kb e /\ ~ In e kb.
Proof.
  intros H Hkb. apply lawful_derivable. exact (H kb Hkb).
Qed.

(** The loop of [apply_all_rules]: it returns; what it appends is well
    formed and new; and a fact is appended or was already in [new_facts]
    exactly when some rule of the list derives it. *)
Lemma apply_rules_spec (rs : list DeductionRule) (kb : list Expression) :
  forallb well_formed kb = true ->
  Forall lawful rs ->
  forall all_derived new_facts, exists d,
    apply_rules rs kb all_derived new_facts = Ok (all_derived ++ d) /\
    (forall e, In e (map fst d) ->
       well_formed e = true /\ ~ In e kb /\ ~ In e new_facts /\
       exists r, In r rs /\ derivable r kb e) /\
    (forall r e, In r rs -> derivable r kb e ->
       In e new_facts \/ In e (map fst d)).
Proof.
  intros Hkb Hrs. induction Hrs as [| r rs Hr _ IH]; intros all_derived new_facts.
  - exists []. simpl. rewrite app_nil_r. split; [reflexivity |].
    split; [intros e [] | intros r e []].
  - destruct (Hr kb Hkb) as [C HC].
    pose proof (lawful_derivable r kb C HC) as Hder.
    destruct (HC new_facts) as [[added nf'] [E [[added' [Hd [Hn Hc]]] Hcomp]]].
    simpl in Hd, Hn, Hc, Hcomp. subst added'.
    destruct (IH (all_derived ++ added) nf') as [d [E' [Hsound Hcompl]]].
    exists (added ++ d). simpl. rewrite E. simpl. rewrite E', app_assoc.
    split; [reflexivity |]. split.
    + intros e. rewrite map_app, in_app_iff. intros [He | He].
      * destruct (Hc e He) as [HCe [Hwf [Hk Hnf]]]. repeat split; auto.
        exists r. split; [left; reflexivity |]. apply Hder. auto.
      * destruct (Hsound e He) as [Hwf [Hk [Hnf [r' [Hr' Hd']]]]].
        repeat split; auto.
        -- intros Hin. apply Hnf. apply Hn. left. exact Hin.
        -- exists r'. split; [right; exact Hr' | exact Hd'].
    + intros r' e [<- | Hr'] He; rewrite map_app, in_app_iff.
      * apply Hder in He. destruct He as [HCe Hk].
        destruct (Hcomp e HCe) as [Hin | Hin]; [contradiction |].
        apply Hn in Hin. tauto.
      * destruct (Hcompl r' e Hr' He) as [Hin | Hin]; [| tauto].
        apply Hn in Hin. tauto.
Qed.

Section Engine.

Variable iteration : list Expression -> list Expression.
Hypothesis iteration_perm : forall s, Permutation s (iteration s).

Lemma insert_by_priority_In (r x : DeductionRule) (l : list DeductionRule) :
  In x (insert_by_priority r l) <-> x = r \/ In x l.
Proof.
  induction l as [| y ys IH]; simpl; [intuition congruence |].
  destruct (priority r <? priority y)%Z; simpl; [rewrite IH |]; intuition congruence.
Qed.

Lemma sort_by_priority_In (x : DeductionRule) (l : list DeductionRule) :
  In x (sort_by_priority l) <-> In x l.
Proof.
  induction l as [| y ys IH]; simpl; [tauto |].
  rewrite insert_by_priority_In, IH. intuition congruence.
Qed.

Lemma RuleManager_init_lawful (enable_conjunction : bool) :
  Forall lawful (rules (RuleManager_init iteration enable_conjunction)).
Proof.
  apply Forall_forall. intros r Hr. simpl in Hr.
  apply sort_by_priority_In in Hr.
  assert (Hin : In r [ModusPonens iteration; ModusTollens iteration;
                      HypotheticalSyllogism iteration; DisjunctiveSyllogism iteration;
                      Simplification iteration; Resolution iteration;
                      BiconditionalElimination iteration; Conjunction iteration]).
  { destruct enable_conjunction; simpl in Hr |- *; intuition. }
  simpl in Hin.
  repeat (destruct Hin as [<- | Hin]);
    auto using ModusPonens_lawful, ModusTollens_lawful, HypotheticalSyllogism_lawful,
      DisjunctiveSyllogism_lawful, Simplification_lawful, Resolution_lawful,
      BiconditionalElimination_lawful, Conjunction_lawful.
  destruct Hin.
Qed.

(** *** The loop of [infer_all] as a relation *)

Lemma fold_add_derived (n : Z) (d : Derived) (self : LogicEngine) :
  fold_left (add_derived n) d self = record_pass n self d.
Proof.
  revert self. induction d as [| [fact j] d IH]; intros self.
  - destruct self. unfold record_pass, add_all. simpl. rewrite app_nil_r. reflexivity.
  - simpl. rewrite IH. unfold record_pass, add_all. simpl.
    rewrite <- app_assoc. reflexivity.
Qed.

Lemma infer_loop_run (fuel : nat) :
  forall n self log0 n' self' log',
    (max_iterations self - n <= Z.of_nat fuel)%Z ->
    infer_loop fuel n self log0 = Ok (n', self', log') ->
    exists log, log' = log0 ++ log /\ loop_run n self log n' self'.
Proof.
  induction fuel as [| fuel IH]; intros n self log0 n' self' log' Hfuel Hrun.
  - simpl in Hrun. destruct (n <? max_iterations self)%Z eqn:Hlt.
    + apply Z.ltb_lt in Hlt. lia.
    + apply Z.ltb_ge in Hlt. injection Hrun as <- <- <-.
      exists []. rewrite app_nil_r. split; [reflexivity | apply run_cap; exact Hlt].
  - simpl in Hrun. destruct (n <? max_iterations self)%Z eqn:Hlt.
    + apply Z.ltb_lt in Hlt.
      destruct (apply_all_rules (rule_manager self) (knowledge_base self))
        as [d | e] eqn:Hd; simpl in Hrun; [| discriminate].
      destruct d as [| x d].
      * injection Hrun as <- <- <-. eexists. split; [reflexivity |].
        apply run_saturated; assumption.
      * rewrite fold_add_derived in Hrun. apply IH in Hrun.
        -- destruct Hrun as [log [-> Hrun]].
           exists (mkPass (knowledge_base self) (x :: d) :: log).
           split; [rewrite <- app_assoc; reflexivity |].
           apply run_pass; [assumption | assumption | discriminate | exact Hrun].
        -- simpl. lia.
    + apply Z.ltb_ge in Hlt. injection Hrun as <- <- <-.
      exists []. rewrite app_nil_r. split; [reflexivity | apply run_cap; exact Hlt].
Qed.

(** The loop stops by itself: any number of rounds that covers the
    distance to the cap gives the same run. *)
Lemma infer_loop_fuel (fuel1 : nat) :
  forall fuel2 n self log,
    (max_iterations self - n <= Z.of_nat fuel1)%Z ->
    (max_iterations self - n <= Z.of_nat fuel2)%Z ->
    infer_loop fuel1 n self log = infer_loop fuel2 n self log.
Proof.
  induction fuel1 as [| fuel1 IH]; intros fuel2 n self log H1 H2.
  - destruct fuel2 as [| fuel2]; [reflexivity |]. simpl.
    destruct (n <? max_iterations self)%Z eqn:Hlt; [| reflexivity].
    apply Z.ltb_lt in Hlt. simpl in H1. lia.
  - destruct fuel2 as [| fuel2]; simpl.
    + destruct (n <? max_iterations self)%Z eqn:Hlt; [| reflexivity].
      apply Z.ltb_lt in Hlt. simpl in H2. lia.
    + destruct (n <? max_iterations self)%Z eqn:Hlt; [| reflexivity].
      destruct (apply_all_rules (rule_manager self) (knowledge_base self))
        as [d | e]; [| reflexivity].
      cbn [bind]. destruct d as [| x d]; [reflexivity |].
      rewrite fold_add_derived. apply IH; unfold record_pass; cbn [max_iterations]; lia.
Qed.

Lemma add_all_In (d : Derived) (kb : list Expression) (x : Expression) :
  In x (add_all kb d) <-> In x kb \/ In x (map fst d).
Proof.
  unfold add_all. revert kb. induction d as [| [f j] d IH]; intros kb; simpl.
  - tauto.
  - rewrite IH, set_add_In. intuition congruence.
Qed.

Lemma add_all_length (d : Derived) (kb : list Expression) :
  length kb <= length (add_all kb d).
Proof.
  unfold add_all. revert kb. induction d as [| [f j] d IH]; intros kb; simpl.
  - lia.
  - pose proof (set_add_length kb f). pose proof (IH (set_add kb f)). lia.
Qed.

Lemma add_all_NoDup (d : Derived) (kb : list Expression) :
  NoDup kb -> NoDup (add_all kb d).
Proof.
  unfold add_all. revert kb. induction d as [| [f j] d IH]; intros kb H; simpl.
  - exact H.
  - apply IH. apply set_add_NoDup. exact H.
Qed.

Lemma chains_of_conclusion (n : Z) (d : Derived) (c : DerivationChain) :
  In c (chains_of n d) -> In (conclusion c) (map fst d) /\ depth c = n.
Proof.
  unfold chains_of. rewrite in_map_iff. intros [x [<- Hx]]. simpl.
  split; [apply in_map; exact Hx | reflexivity].
Qed.

(** A pass on a sound engine returns, and leaves a sound engine. *)
Lemma pass_ok (self : LogicEngine) :
  engine_ok self ->
  exists d,
    apply_all_rules (rule_manager self) (knowledge_base self) = Ok d /\
    (forall e, In e (map fst d) ->
       well_formed e = true /\ ~ In e (knowledge_base self)) /\
    forall n, engine_ok (record_pass n self d).
Proof.
  intros [Hwf [Hnd [Hlaw Hch]]].
  destruct (apply_rules_spec (rules (rule_manager self)) (knowledge_base self)
              Hwf Hlaw [] []) as [d [E [Hsound _]]].
  exists d. split; [exact E |]. split.
  - intros e He. destruct (Hsound e He) as [H1 [H2 _]]. auto.
  - intros n. unfold engine_ok, record_pass. simpl. repeat split.
    + apply forallb_forall. intros x Hx. apply add_all_In in Hx.
      destruct Hx as [Hx | Hx].
      * rewrite forallb_forall in Hwf. auto.
      * apply Hsound. exact Hx.
    + apply add_all_NoDup. exact Hnd.
    + exact Hlaw.
    + intros c Hc. apply add_all_In. apply in_app_iff in Hc.
      destruct Hc as [Hc | Hc]; [left; auto |].
      right. apply (chains_of_conclusion n d c Hc).
Qed.

(** On a sound engine the loop returns. *)
Lemma infer_loop_total (fuel : nat) :
  forall n self log0,
    engine_ok self ->
    exists n' self' log',
      infer_loop fuel n self log0 = Ok (n', self', log').
Proof.
  induction fuel as [| fuel IH]; intros n self log0 Hok; simpl.
  - destruct (n <? max_iterations self)%Z; eexists _, _, _; reflexivity.
  - destruct (n <? max_iterations self)%Z; [| eexists _, _, _; reflexivity].
    destruct (pass_ok self Hok) as [d [E [_ Hok']]]. rewrite E. simpl.
    destruct d as [| x d]; [eexists _, _, _; reflexivity |].
    rewrite fold_add_derived. apply IH. apply Hok'.
Qed.

(** What a run leaves untouched, and how it grows the rest. *)
Lemma loop_run_frame n self log n' self' :
  loop_run n self log n' self' ->
  max_iterations self' = max_iterations self /\
  rule_manager self' = rule_manager self /\
  original_facts self' = original_facts self /\
  original_rules self' = original_rules self /\
  contradictions self' = contradictions self /\
  derivation_chains self' = derivation_chains self ++ chains_of_log n log /\
  chained (knowledge_base self) log (knowledge_base self') /\
  n' = (n + Z.of_nat (length log))%Z.
Proof.
  induction 1 as [n self Hcap | n self Hlt Hd | n self d log n' self' Hlt Hd Hne Hrun IH].
  - simpl. rewrite app_nil_r. repeat split; lia.
  - simpl. rewrite app_nil_r. repeat split; lia.
  - destruct IH as [H1 [H2 [H3 [H4 [H5 [H6 [H7 H8]]]]]]]. simpl in *.
    rewrite H6, <- app_assoc. repeat split; auto. lia.
Qed.

Lemma loop_run_ok n self log n' self' :
  loop_run n self log n' self' -> engine_ok self -> engine_ok self'.
Proof.
  induction 1 as [n self Hcap | n self Hlt Hd | n self d log n' self' Hlt Hd Hne Hrun IH];
    intros Hok; auto.
  apply IH. destruct (pass_ok self Hok) as [d' [E [_ Hok']]].
  rewrite Hd in E. injection E as <-. apply Hok'.
Qed.

(** The count stays within the cap, and reaches it unless some pass
    derived nothing. *)
Lemma loop_run_bound n self log n' self' :
  loop_run n self log n' self' ->
  (n <= max_iterations self)%Z ->
  (n' <= max_iterations self)%Z /\
  (Forall (fun p => derived_in p <> []) log -> n' = max_iterations self).
Proof.
  induction 1 as [n self Hcap | n self Hlt Hd | n self d log n' self' Hlt Hd Hne Hrun IH];
    intros Hn.
  - split; [lia | intros _; lia].
  - split; [lia |]. intros Hall. inversion Hall as [| p ps Hp _]; subst.
    simpl in Hp. congruence.
  - simpl in IH. destruct IH as [H1 H2]; [lia |]. split; [exact H1 |].
    intros Hall. inversion Hall; subst. auto.
Qed.


(** A run ends at the cap or with a pass that derived nothing. *)
Lemma loop_run_exit n self log n' self' :
  loop_run n self log n' self' ->
  (max_iterations self <= n')%Z \/ exists before kb, log = before ++ [mkPass kb []].
Proof.
  induction 1 as [n self Hcap | n self Hlt Hd | n self d log n' self' Hlt Hd Hne Hrun IH].
  - left. exact Hcap.
  - right. exists [], (knowledge_base self). reflexivity.
  - destruct IH as [IH | [before [kb ->]]].
    + left. exact IH.
    + right. exists (mkPass (knowledge_base self) d :: before), kb. reflexivity.
Qed.

(** *** Contradiction detection *)

Lemma detect_loop (atoms l : list Expression) :
  (forall neg, In neg l -> well_formed neg = true /\ has_operator NOT neg = true) ->
  forall acc, exists entries,
    foldM (fun neg contradictions =>
      negated_expr <- operand neg 0 ;;
      if mem negated_expr atoms then
        entry <- format (contradiction_entry negated_expr neg) ;;
        Ok (contradictions ++ [entry])
      else Ok contradictions) l acc = Ok (acc ++ entries) /\
    Forall2 entry_of (filter (fun neg => mem (arg 0 neg) atoms) l) entries.
Proof.
  induction l as [| neg l IH]; intros Hl acc.
  - exists []. simpl. rewrite app_nil_r. split; [reflexivity | constructor].
  - destruct (Hl neg (or_introl eq_refl)) as [Wn Hn].
    destruct (negation_arg neg Wn Hn) as [N0 WN0].
    cbn [foldM filter]. rewrite N0. cbn [bind].
    destruct (mem (arg 0 neg) atoms) eqn:Hm.
    + destruct (format_total (contradiction_entry (arg 0 neg) neg)) as [entry He].
      { simpl. rewrite WN0, Wn. reflexivity. }
      rewrite He. cbn [bind].
      destruct (IH (fun x Hx => Hl x (or_intror Hx)) (acc ++ [entry]))
        as [entries [E F]].
      exists (entry :: entries). rewrite E, <- app_assoc.
      split; [reflexivity | constructor; [exact He | exact F]].
    + destruct (IH (fun x Hx => Hl x (or_intror Hx)) acc) as [entries [E F]].
      exists entries. split; [exact E | exact F].
Qed.

Lemma iteration_NoDup (s : list Expression) : NoDup s -> NoDup (iteration s).
Proof. apply Permutation_NoDup. apply iteration_perm. Qed.

Lemma _detect_contradictions_spec (kb : list Expression) :
  forallb well_formed kb = true -> NoDup kb ->
  exists negs entries,
    _detect_contradictions iteration kb = Ok entries /\
    NoDup negs /\
    (forall neg, In neg negs <-> contradicted kb neg) /\
    Forall2 entry_of negs entries.
Proof.
  intros Hwf Hnd. unfold _detect_contradictions.
  set (atoms := filter is_atom (iteration kb)).
  set (negations := filter (has_operator NOT) (iteration kb)).
  destruct (detect_loop atoms (iteration negations)) with (acc := @nil str)
    as [entries [E F]].
  { intros neg Hneg. apply iteration_In in Hneg; [| exact iteration_perm].
    destruct (scanned_item iteration iteration_perm kb _ neg Hwf Hneg) as [_ H].
    exact H. }
  exists (filter (fun neg => mem (arg 0 neg) atoms) (iteration negations)), entries.
  split; [exact E |]. split.
  - apply NoDup_filter, iteration_NoDup, NoDup_filter, iteration_NoDup. exact Hnd.
  - split; [| exact F]. intros neg. unfold contradicted, atoms, negations.
    rewrite filter_In, mem_In, (iteration_In iteration iteration_perm),
      !filter_In, !(iteration_In iteration iteration_perm). tauto.
Qed.

(** *** [infer_all] *)

(** [infer_all] is a run of the loop from count 0 followed by one
    detection of contradictions on the knowledge base the run left. *)
Lemma infer_all_log_run (self self' : LogicEngine) (r : InferenceResult.t)
    (log : list Pass) :
  infer_all_log iteration self = Ok (self', r, log) ->
  exists mid,
    loop_run 0 self log (InferenceResult.iterations r) mid /\
    _detect_contradictions iteration (knowledge_base mid)
      = Ok (InferenceResult.contradictions r) /\
    self' = mkEngine (knowledge_base mid) (original_facts mid) (original_rules mid)
              (derivation_chains mid) (max_iterations mid) (rule_manager mid)
              (InferenceResult.contradictions r) /\
    r = InferenceResult.mk (original_facts mid) (original_rules mid)
          (derivation_chains mid) (InferenceResult.iterations r)
          (InferenceResult.contradictions r).
Proof.
  unfold infer_all_log. intros H.
  destruct (infer_loop (Z.to_nat (max_iterations self)) 0 self [])
    as [[[n mid] log'] | e] eqn:Hloop; simpl in H; [| discriminate].
  destruct (_detect_contradictions iteration (knowledge_base mid))
    as [c | e] eqn:Hdet; simpl in H; [| discriminate].
  injection H as <- <- <-. simpl.
  apply infer_loop_run in Hloop; [| lia].
  destruct Hloop as [log [-> Hrun]]. simpl.
  exists mid. repeat split; assumption.
Qed.

(** On a sound engine [infer_all] returns, and the engine stays sound. *)
Lemma infer_all_log_total (self : LogicEngine) :
  engine_ok self ->
  exists self' r log,
    infer_all_log iteration self = Ok (self', r, log) /\ engine_ok self'.
Proof.
  intros Hok. unfold infer_all_log.
  destruct (infer_loop_total (Z.to_nat (max_iterations self)) 0 self [] Hok)
    as [n [mid [log Hloop]]].
  rewrite Hloop. simpl.
  apply infer_loop_run in Hloop; [| lia]. destruct Hloop as [log' [_ Hrun]].
  pose proof (loop_run_ok _ _ _ _ _ Hrun Hok) as [H1 [H2 [H3 H4]]].
  destruct (_detect_contradictions_spec (knowledge_base mid) H1 H2)
    as [negs [entries [E _]]].
  rewrite E. simpl. eexists _, _, _. split; [reflexivity |].
  repeat split; assumption.
Qed.

(** One pass of the default rule manager derives exactly the candidates of
    its seven rules that the knowledge base does not hold. *)
Lemma apply_all_rules_derives (kb : list Expression) :
  forallb well_formed kb = true ->
  exists d,
    apply_all_rules (RuleManager_init iteration false) kb = Ok d /\
    forall e,
      In e (map fst d) <->
      (ModusPonens_candidates iteration kb e \/
       Simplification_candidates iteration kb e \/
       ModusTollens_candidates iteration kb e \/
       BiconditionalElimination_candidates iteration kb e \/
       DisjunctiveSyllogism_candidates iteration kb e \/
       HypotheticalSyllogism_candidates iteration kb e \/
       Resolution_candidates iteration kb e) /\ ~ In e kb.
Proof.
  intros Hkb.
  destruct (apply_rules_spec _ kb Hkb (RuleManager_init_lawful false) [] [])
    as [d [E [Hsound Hcompl]]].
  exists d. split; [exact E |]. intros e.
  pose proof (derives_exactly_derivable _ _ kb
                (ModusPonens_derives iteration iteration_perm) Hkb e) as H1.
  pose proof (derives_exactly_derivable _ _ kb
                (Simplification_derives iteration iteration_perm) Hkb e) as H2.
  pose proof (derives_exactly_derivable _ _ kb
                (ModusTollens_derives iteration iteration_perm) Hkb e) as H3.
  pose proof (derives_exactly_derivable _ _ kb
                (BiconditionalElimination_derives iteration iteration_perm) Hkb e) as H4.
  pose proof (derives_exactly_derivable _ _ kb
                (DisjunctiveSyllogism_derives iteration iteration_perm) Hkb e) as H5.
  pose proof (derives_exactly_derivable _ _ kb
                (HypotheticalSyllogism_derives iteration iteration_perm) Hkb e) as H6.
  pose proof (derives_exactly_derivable _ _ kb
                (Resolution_derives iteration iteration_perm) Hkb e) as H7.
  split.
  - intros He. destruct (Hsound e He) as [_ [Hn [_ [r [Hr Hd]]]]].
    split; [| exact Hn]. simpl in Hr.
    repeat (destruct Hr as [<- | Hr]); tauto.
  - intros [Hc Hn].
    assert (Hr : exists r, In r (rules (RuleManager_init iteration false)) /\
                           derivable r kb e).
    { destruct Hc as [Hc | [Hc | [Hc | [Hc | [Hc | [Hc | Hc]]]]]];
        [ exists (ModusPonens iteration) | exists (Simplification iteration)
        | exists (ModusTollens iteration)
        | exists (BiconditionalElimination iteration)
        | exists (DisjunctiveSyllogism iteration)
        | exists (HypotheticalSyllogism iteration)
        | exists (Resolution iteration) ];
        (split; [simpl; tauto | tauto]). }
    destruct Hr as [r [Hr Hd]].
    destruct (Hcompl r e Hr Hd) as [[] | H]. exact H.
Qed.

End Engine.

(* ------------------------------------------------------------------ *)
(** ** The methods keep the engine sound *)

Section Soundness.

Variable iteration : list Expression -> list Expression.
Hypothesis iteration_perm : forall s, Permutation s (iteration s).

Lemma parsed_well_formed (x : argument) (e : Expression) :
  argument_ok x -> parsed x = Ok e -> well_formed e = true.
Proof.
  destruct x as [text | e']; simpl.
  - intros _. apply parse_well_formed.
  - intros H [= <-]. exact H.
Qed.

Lemma LogicEngine_init_ok (max_iterations : Z) (enable_conjunction : bool) :
  engine_ok (LogicEngine_init iteration max_iterations enable_conjunction).
Proof.
  split; [reflexivity |]. split; [constructor |].
  split; [apply RuleManager_init_lawful; exact iteration_perm | intros c []].
Qed.

Lemma set_add_well_formed (s : list Expression) (e : Expression) :
  forallb well_formed s = true -> well_formed e = true ->
  forallb well_formed (set_add s e) = true.
Proof.
  intros Hs He. apply forallb_forall. intros x Hx. apply set_add_In in Hx.
  destruct Hx as [Hx | ->]; [| exact He]. rewrite forallb_forall in Hs. auto.
Qed.

Lemma add_fact_ok (self self' : LogicEngine) (x : argument) :
  engine_ok self -> argument_ok x -> add_fact self x = Ok self' -> engine_ok self'.
Proof.
  intros [Hwf [Hnd [Hlaw Hch]]] Hx H. unfold add_fact in H.
  destruct (parsed x) as [e |] eqn:E; [| discriminate]. injection H as <-.
  pose proof (parsed_well_formed x e Hx E) as He.
  split; [apply set_add_well_formed; assumption |].
  split; [apply set_add_NoDup; exact Hnd |]. split; [exact Hlaw |].
  intros c Hc. apply set_add_In. left. apply Hch. exact Hc.
Qed.

Lemma add_rule_ok (self self' : LogicEngine) (x : argument) :
  engine_ok self -> argument_ok x -> add_rule self x = Ok self' -> engine_ok self'.
Proof.
  intros [Hwf [Hnd [Hlaw Hch]]] Hx H. unfold add_rule in H.
  destruct (parsed x) as [e |] eqn:E; [| discriminate]. simpl in H.
  pose proof (parsed_well_formed x e Hx E) as He.
  destruct (is_rule e); injection H as <-;
    (split; [apply set_add_well_formed; assumption |];
     split; [apply set_add_NoDup; exact Hnd |]; split; [exact Hlaw |];
     intros c Hc; apply set_add_In; left; apply Hch; exact Hc).
Qed.

Lemma clear_ok (self : LogicEngine) : engine_ok self -> engine_ok (clear self).
Proof.
  intros [_ [_ [Hlaw _]]]. split; [reflexivity |]. split; [constructor |].
  split; [exact Hlaw | intros c []].
Qed.

Lemma infer_all_ok (self self' : LogicEngine) (r : InferenceResult.t) :
  engine_ok self -> infer_all iteration self = Ok (self', r) -> engine_ok self'.
Proof.
  intros Hok H.
  destruct (infer_all_log_total iteration iteration_perm self Hok)
    as [s [r' [log [E Hok']]]].
  unfold infer_all in H. rewrite E in H. injection H as <- _. exact Hok'.
Qed.

(** Every call with well-formed arguments keeps the engine sound: the
    engines a program can reach from the constructor are sound. *)
Lemma perform_ok (c : call) (self self' : LogicEngine) :
  engine_ok self -> call_ok c -> perform iteration c self = Ok self' ->
  engine_ok self'.
Proof.
  intros Hok Hc H. destruct c as [x | x | | x |]; simpl in H, Hc.
  - exact (add_fact_ok _ _ _ Hok Hc H).
  - exact (add_rule_ok _ _ _ Hok Hc H).
  - destruct (infer_all iteration self) as [[s r] |] eqn:E; [| discriminate].
    injection H as <-. exact (infer_all_ok _ _ _ Hok E).
  - destruct (query self x); [| discriminate]. injection H as <-. exact Hok.
  - injection H as <-. apply clear_ok. exact Hok.
Qed.

End Soundness.

(* ------------------------------------------------------------------ *)
(** ** Logs of passes *)

Lemma add_all_incl (kb : list Expression) (d : Derived) : incl kb (add_all kb d).
Proof. intros x Hx. apply add_all_In. left. exact Hx. Qed.

Lemma chained_final (log : list Pass) :
  forall kb final,
    chained kb log final -> incl kb final /\ length kb <= length final.
Proof.
  induction log as [| p ps IH]; intros kb final H; simpl in H.
  - subst. split; [apply incl_refl | lia].
  - destruct H as [_ H]. destruct (IH _ _ H) as [H1 H2]. split.
    + intros x Hx. apply H1. apply add_all_incl. exact Hx.
    + pose proof (add_all_length (derived_in p) kb). lia.
Qed.

Lemma chained_pass (log : list Pass) :
  forall kb final p,
    chained kb log final -> In p log ->
    incl (entering p) final /\ length (entering p) <= length final /\
    (forall fact, In fact (map fst (derived_in p)) -> In fact final).
Proof.
  induction log as [| q ps IH]; intros kb final p H Hp; simpl in H; [destruct Hp |].
  destruct H as [Hq H]. destruct Hp as [<- | Hp]; [| exact (IH _ _ _ H Hp)].
  destruct (chained_final _ _ _ H) as [H1 H2]. rewrite Hq. repeat split.
  - intros x Hx. apply H1. apply add_all_incl. exact Hx.
  - pose proof (add_all_length (derived_in q) kb). lia.
  - intros fact Hf. apply H1. apply add_all_In. right. exact Hf.
Qed.

Lemma chained_next (log : list Pass) :
  forall kb final i p q,
    chained kb log final ->
    nth_error log i = Some p -> nth_error log (S i) = Some q ->
    entering q = add_all (entering p) (derived_in p).
Proof.
  induction log as [| x ps IH]; intros kb final i p q H Hp Hq.
  - destruct i; discriminate.
  - simpl in H. destruct H as [Hx H]. destruct i as [| i].
    + injection Hp as <-. simpl in Hq. destruct ps as [| y ps]; [discriminate |].
      injection Hq as <-. simpl in H. destruct H as [Hy _]. rewrite Hy, Hx.
      reflexivity.
    + simpl in Hp. exact (IH _ _ _ _ _ H Hp Hq).
Qed.

(* ------------------------------------------------------------------ *)
(** ** Properties of the engine *)

Section Properties.

Variable iteration : list Expression -> list Expression.
Hypothesis iteration_perm : forall s, Permutation s (iteration s).


(** C5, as amended.  The loop of [infer_all] stops by itself, after at
    most [max_iterations] passes and after none when the cap is below 1:
    allowing it more rounds than the cap changes nothing.  When the call
    returns, the iteration count it reports is the number of passes it
    made, is at most the cap (0 for a cap below 0), and is the cap when
    every pass derived something; and the loop ended because the count
    reached the cap or because the last pass derived nothing. *)
Theorem infer_all_within_cap (self : LogicEngine) :
  (forall rounds,
     (max_iterations self <= Z.of_nat rounds)%Z ->
     infer_loop rounds 0 self []
     = infer_loop (Z.to_nat (max_iterations self)) 0 self []) /\
  forall self' r log,
    infer_all_log iteration self = Ok (self', r, log) ->
    infer_all iteration self = Ok (self', r) /\
    InferenceResult.iterations r = Z.of_nat (length log) /\
    (InferenceResult.iterations r <= Z.max 0 (max_iterations self))%Z /\
    (Forall (fun p => derived_in p <> []) log ->
     InferenceResult.iterations r = Z.max 0 (max_iterations self)) /\
    ((max_iterations self <= InferenceResult.iterations r)%Z \/
     exists before kb, log = before ++ [mkPass kb []]).
Proof.
  split; [intros rounds H; apply infer_loop_fuel; lia |].
  intros self' r log E. split; [unfold infer_all; rewrite E; reflexivity |].
  apply infer_all_log_run in E. destruct E as [mid [Hrun _]].
  destruct (loop_run_frame _ _ _ _ _ Hrun) as [_ [_ [_ [_ [_ [_ [_ Hn]]]]]]].
  split; [lia |].
  pose proof (loop_run_exit _ _ _ _ _ Hrun) as Hexit.
  destruct (Z.le_gt_cases 0 (max_iterations self)) as [Hpos | Hneg].
  - destruct (loop_run_bound _ _ _ _ _ Hrun Hpos) as [H1 H2].
    rewrite Z.max_r by exact Hpos. split; [exact H1 |]. split; [exact H2 | exact Hexit].
  - split; [| split; [| exact Hexit]]; inversion Hrun; subst; lia.
Qed.

(** C7.  On a well-formed knowledge base, when one pass of the rules of
    the rule manager in descending priority and one pass of the same rules
    taken in any other order both return, they have derived the same set
    of expressions. *)
Theorem rule_order_invariance (enable_conjunction : bool)
    (rs : list DeductionRule) (kb : list Expression) (d1 d2 : Derived) :
  Permutation (rules (RuleManager_init iteration enable_conjunction)) rs ->
  forallb well_formed kb = true ->
  apply_all_rules (RuleManager_init iteration enable_conjunction) kb = Ok d1 ->
  apply_all_rules (mkRuleManager rs) kb = Ok d2 ->
  forall e, In e (map fst d1) <-> In e (map fst d2).
Proof.
  intros Hperm Hkb R1 R2.
  pose proof (RuleManager_init_lawful iteration iteration_perm enable_conjunction) as Hlaw.
  assert (Hlaw' : Forall lawful rs).
  { rewrite Forall_forall in *. intros r Hr. apply Hlaw.
    apply (Permutation_in r (Permutation_sym Hperm)). exact Hr. }
  destruct (apply_rules_spec _ kb Hkb Hlaw [] []) as [d1' [E1 [S1 C1]]].
  destruct (apply_rules_spec rs kb Hkb Hlaw' [] []) as [d2' [E2 [S2 C2]]].
  unfold apply_all_rules in R1, R2. cbn [rules] in R2.
  rewrite R1 in E1. rewrite R2 in E2. cbn [app] in E1, E2.
  injection E1 as <-. injection E2 as <-.
  intros e. split; intros He.
  - destruct (S1 e He) as [_ [_ [_ [r [Hr Hd]]]]].
    destruct (C2 r e (Permutation_in r Hperm Hr) Hd) as [[] | H]. exact H.
  - destruct (S2 e He) as [_ [_ [_ [r [Hr Hd]]]]].
    destruct (C1 r e (Permutation_in r (Permutation_sym Hperm) Hr) Hd) as [[] | H].
    exact H.
Qed.


(** C8.  Through the passes of an [infer_all] that returns on a sound
    engine the knowledge base only gains elements: each pass enters with a
    knowledge base that includes, and is at least as large as, the one its
    predecessor entered with, and that holds every fact the predecessor
    derived; the same holds of the final knowledge base and every pass;
    and every chain of the result has its conclusion in the final
    knowledge base. *)
Theorem knowledge_base_grows (self self' : LogicEngine) (r : InferenceResult.t)
    (log : list Pass) :
  engine_ok self ->
  infer_all_log iteration self = Ok (self', r, log) ->
  (forall p, nth_error log 0 = Some p -> entering p = knowledge_base self) /\
  (forall i p q,
     nth_error log i = Some p -> nth_error log (S i) = Some q ->
     incl (entering p) (entering q) /\
     length (entering p) <= length (entering q) /\
     forall fact, In fact (map fst (derived_in p)) -> In fact (entering q)) /\
  (forall p, In p log ->
     incl (entering p) (knowledge_base self') /\
     length (entering p) <= length (knowledge_base self') /\
     forall fact, In fact (map fst (derived_in p)) ->
                  In fact (knowledge_base self')) /\
  incl (knowledge_base self) (knowledge_base self') /\
  (forall c, In c (InferenceResult.derived_facts r) ->
     In (conclusion c) (knowledge_base self')).
Proof.
  intros Hok E.
  apply infer_all_log_run in E. destruct E as [mid [Hrun [Hdet [-> ->]]]].
  pose proof (loop_run_ok _ _ _ _ _ Hrun Hok) as [_ [_ [_ Hc]]].
  destruct (loop_run_frame _ _ _ _ _ Hrun) as [_ [_ [_ [_ [_ [Hch [Hlog _]]]]]]].
  simpl. split; [| split; [| split; [| split]]].
  - intros p Hp. destruct log as [| p' ps]; [discriminate |].
    injection Hp as <-. simpl in Hlog. apply Hlog.
  - intros i p q Hp Hq.
    rewrite (chained_next _ _ _ _ _ _ Hlog Hp Hq). repeat split.
    + apply add_all_incl.
    + apply add_all_length.
    + intros fact Hf. apply add_all_In. right. exact Hf.
  - intros p Hp. exact (chained_pass _ _ _ _ Hlog Hp).
  - apply (chained_final _ _ _ Hlog).
  - exact Hc.
Qed.

Lemma infer_all_history (self self' : LogicEngine) (r : InferenceResult.t) :
  infer_all iteration self = Ok (self', r) ->
  InferenceResult.derived_facts r = derivation_chains self' /\
  exists more, derivation_chains self' = derivation_chains self ++ more.
Proof.
  unfold infer_all. intros H.
  destruct (infer_all_log iteration self) as [[[s1 r1] log] | e] eqn:E;
    simpl in H; [| discriminate].
  injection H as <- <-. apply infer_all_log_run in E.
  destruct E as [mid [Hrun [_ [-> ->]]]].
  destruct (loop_run_frame _ _ _ _ _ Hrun) as [_ [_ [_ [_ [_ [Hch _]]]]]].
  simpl. split; [reflexivity |]. eexists. exact Hch.
Qed.

Lemma perform_history (c : call) (self self' : LogicEngine) :
  is_clear c = false ->
  perform iteration c self = Ok self' ->
  exists more, derivation_chains self' = derivation_chains self ++ more.
Proof.
  intros Hc H. exists (skipn (length (derivation_chains self)) (derivation_chains self')).
  destruct c as [x | x | | x |]; try discriminate; simpl in H.
  - unfold add_fact in H. destruct (parsed x); [| discriminate].
    injection H as <-. simpl. rewrite skipn_all, app_nil_r. reflexivity.
  - unfold add_rule in H. destruct (parsed x) as [e |]; [| discriminate]. simpl in H.
    destruct (is_rule e); injection H as <-; simpl;
      rewrite skipn_all, app_nil_r; reflexivity.
  - destruct (infer_all iteration self) as [[s r] |] eqn:E; [| discriminate].
    injection H as <-. apply infer_all_history in E. destruct E as [_ [more ->]].
    rewrite skipn_app, skipn_all, Nat.sub_diag. reflexivity.
  - destruct (query self x); [| discriminate]. injection H as <-.
    rewrite skipn_all, app_nil_r. reflexivity.
Qed.

Lemma perform_all_history (calls : list call) :
  forall self self',
    existsb is_clear calls = false ->
    foldM (perform iteration) calls self = Ok self' ->
    exists more, derivation_chains self' = derivation_chains self ++ more.
Proof.
  induction calls as [| c calls IH]; intros self self' Hc H; simpl in H.
  - injection H as <-. exists []. rewrite app_nil_r. reflexivity.
  - simpl in Hc. apply orb_false_iff in Hc. destruct Hc as [Hc Hcs].
    destruct (perform iteration c self) as [s |] eqn:E; [| discriminate].
    simpl in H. destruct (perform_history _ _ _ Hc E) as [m1 H1].
    destruct (IH _ _ Hcs H) as [m2 H2]. exists (m1 ++ m2).
    rewrite H2, H1, app_assoc. reflexivity.
Qed.

(** C9.  [infer_all] never resets the derivation history: whatever calls
    other than [clear] are made after one [infer_all], the derived facts
    of a later [infer_all] start with all those of the earlier one; and
    [clear] leaves no derivation chain. *)
Theorem derivation_history_kept
    (self self1 self1' self2 : LogicEngine) (r1 r2 : InferenceResult.t)
    (calls : list call) :
  infer_all iteration self = Ok (self1, r1) ->
  existsb is_clear calls = false ->
  foldM (perform iteration) calls self1 = Ok self1' ->
  infer_all iteration self1' = Ok (self2, r2) ->
  (exists more,
     InferenceResult.derived_facts r2 = InferenceResult.derived_facts r1 ++ more) /\
  derivation_chains (clear self2) = [].
Proof.
  intros H1 Hc Hcalls H2. split; [| reflexivity].
  apply infer_all_history in H1. destruct H1 as [-> _].
  apply infer_all_history in H2. destruct H2 as [-> [m2 ->]].
  destruct (perform_all_history _ _ _ Hc Hcalls) as [m1 ->].
  exists (m1 ++ m2). rewrite app_assoc. reflexivity.
Qed.

End Properties.


(* ------------------------------------------------------------------ *)
(** ** Concrete runs *)

(** C1.  [str] of the conjunction of two atoms is
    ["((a)P() ∧ (b)Q())"], which [parse] rejects at the closing
    parenthesis: the renderer encloses every binary expression in
    parentheses, and the parser knows parentheses only as parts of
    atoms. *)
Theorem roundtrip_conjunction_rejected :
  to_str conjunction_ab = Ok (lit "((a)P()" ++ wedge ++ lit "(b)Q())") /\
  parse (lit "((a)P()" ++ wedge ++ lit "(b)Q())")
    = Raise (ValueError (UnexpectedCharacter rparen 16)) /\
  parse (lit "(a)P()" ++ wedge ++ lit "(b)Q()") = Ok conjunction_ab.
Proof. repeat split; vm_compute; reflexivity. Qed.

(** C2.  The rule of scenario A, whose consequent [(X)estudia] has no
    argument list, is rejected by the tokenizer, so [add_rule] raises and
    no rule reaches the engine; [infer_all] on the engine that knows the
    fact alone derives nothing in one iteration. *)
Theorem scenario_A_rule_rejected :
  parse (lit "(X)IsA(estudiante)" ++ arrow ++ lit "(X)estudia")
    = Raise (ValueError (UnexpectedCharacter lparen 21)) /\
  add_fact (LogicEngine_init insertion_order 100 false)
           (Text (lit "(Pedro)IsA(estudiante)")) = Ok pedro_engine /\
  add_rule pedro_engine (Text (lit "(X)IsA(estudiante)" ++ arrow ++ lit "(X)estudia"))
    = Raise (ValueError (UnexpectedCharacter lparen 21)) /\
  conclusions (the_result (infer_all insertion_order pedro_engine)) = [] /\
  InferenceResult.iterations (the_result (infer_all insertion_order pedro_engine)) = 1%Z.
Proof. repeat split; vm_compute; reflexivity. Qed.

(** Scenario A with the consequent written [(X)estudia()]: one derived
    fact at depth 1, two iterations. *)
Lemma scenario_A_with_argument_list :
  exists self,
    add_rule pedro_engine (Text (lit "(X)IsA(estudiante)" ++ arrow ++ lit "(X)estudia()"))
      = Ok self /\
    conclusions (the_result (infer_all insertion_order self))
      = [(EAtom (mkAtom (lit "Pedro") (lit "estudia") []), 1%Z)] /\
    InferenceResult.iterations (the_result (infer_all insertion_order self)) = 2%Z.
Proof. eexists. split; [reflexivity |]. split; vm_compute; reflexivity. Qed.

(** C3.  The word form [AND] is rejected at its first letter, and so are
    [<->] and [<=>] at [<], while the glyph is accepted; the aliases
    [&], [^], [|], [v], [~], [!], [->] and [=>] are accepted and read as
    the glyphs. *)
Theorem word_and_arrow_aliases_rejected :
  parse (lit "(a)P() AND (b)Q()") = Raise (ValueError (UnexpectedCharacter 65%N 7)) /\
  parse (lit "(a)P()" ++ wedge ++ lit "(b)Q()") = Ok conjunction_ab /\
  parse (lit "(a)P() <-> (b)Q()") = Raise (ValueError (UnexpectedCharacter 60%N 7)) /\
  parse (lit "(a)P() <=> (b)Q()") = Raise (ValueError (UnexpectedCharacter 60%N 7)) /\
  parse (lit "(a)P() & (b)Q()") = Ok conjunction_ab /\
  parse (lit "(a)P() ^ (b)Q()") = Ok conjunction_ab /\
  parse (lit "(a)P() | (b)Q()") = parse (lit "(a)P() " ++ [glyph_or] ++ lit " (b)Q()") /\
  parse (lit "(a)P() v (b)Q()") = parse (lit "(a)P() " ++ [glyph_or] ++ lit " (b)Q()") /\
  parse (lit "~(a)P()") = Ok (negation (atom0 "a" "P")) /\
  parse (lit "!(a)P()") = Ok (negation (atom0 "a" "P")) /\
  parse (lit "(a)P() -> (b)Q()") = Ok (implies (atom0 "a" "P") (atom0 "b" "Q")) /\
  parse (lit "(a)P() => (b)Q()") = Ok (implies (atom0 "a" "P") (atom0 "b" "Q")).
Proof. repeat split; vm_compute; reflexivity. Qed.

(** [from_text] knows the word forms and the three-character aliases the
    tokenizer rejects, whatever the case of the words, as long as
    [upper] maps them to their upper-case spelling. *)
Lemma from_text_knows_aliases (upper : str -> str) :
  upper (lit "and") = lit "AND" ->
  upper (lit "Implies") = lit "IMPLIES" ->
  upper (lit "<->") = lit "<->" ->
  from_text upper (lit "and") = Some AND /\
  from_text upper (lit "Implies") = Some IMPLIES /\
  from_text upper (lit "<->") = Some IFF.
Proof.
  intros H1 H2 H3. unfold from_text. rewrite H1, H2, H3.
  repeat split; reflexivity.
Qed.

Lemma singleton_NoDup {A} (l : list A) (x : A) :
  NoDup l -> In x l -> (forall y, In y l -> y = x) -> l = [x].
Proof.
  intros Hnd Hin Hall. destruct l as [| a l]; [destruct Hin |].
  assert (a = x) as -> by (apply Hall; left; reflexivity).
  destruct l as [| b l]; [reflexivity |].
  assert (b = x) as -> by (apply Hall; right; left; reflexivity).
  inversion Hnd as [| y l' Hy _]; subst. destruct Hy. left. reflexivity.
Qed.

(** No rule has a candidate on a knowledge base that holds an atom and its
    negation only. *)
Ltac no_scanned_item :=
  match goal with
  | H : In _ (filter _ (?iteration ?kb)) |- _ =>
      apply filter_In in H; destruct H as [H ?];
      match goal with
      | P : forall s, Permutation s (iteration s) |- _ =>
          apply (Permutation_in _ (Permutation_sym (P kb))) in H
      end;
      simpl in H; intuition (subst; discriminate)
  end.

(** Scenario D, whatever the order in which sets are enumerated: the
    engine that knows [(Pedro)Feliz()] and its negation derives nothing,
    stops after one iteration and reports exactly one contradiction, the
    one naming [(Pedro)Feliz()]. *)
Lemma scenario_D (iteration : list Expression -> list Expression) :
  (forall s, Permutation s (iteration s)) ->
  exists self' r,
    infer_all iteration (feliz iteration) = Ok (self', r) /\
    InferenceResult.derived_facts r = [] /\
    InferenceResult.iterations r = 1%Z /\
    InferenceResult.contradictions r
    = [lit "Contradiction: (Pedro)Feliz() and " ++ [glyph_not] ++
       lit "(Pedro)Feliz() both present"].
Proof.
  intros Hperm.
  assert (Hok : engine_ok (feliz iteration)).
  { split; [reflexivity |]. split.
    - repeat constructor; simpl; intuition discriminate.
    - split; [apply RuleManager_init_lawful; exact Hperm | intros c []]. }
  destruct (infer_all_log_total iteration Hperm _ Hok) as [self' [r [log [Hrun _]]]].
  exists self', r. split; [unfold infer_all; rewrite Hrun; reflexivity |].
  apply infer_all_log_run in Hrun. destruct Hrun as [mid [Hloop [Hdet [_ Hr]]]].
  destruct (apply_all_rules_derives iteration Hperm
              (knowledge_base (feliz iteration)) eq_refl) as [d [Hd Hiff]].
  assert (Hnone : d = []).
  { destruct d as [| [fact j] d]; [reflexivity |]. exfalso.
    destruct (proj1 (Hiff fact) (or_introl eq_refl)) as [Hc _].
    destruct Hc as [Hc | [Hc | [Hc | [Hc | [Hc | [Hc | Hc]]]]]];
      destruct Hc as [x [Hx _]]; no_scanned_item. }
  subst d.
  assert (Hmid : mid = feliz iteration /\ InferenceResult.iterations r = 1%Z).
  { inversion Hloop as [n s Hcap | n s Hlt Hsat | n s d log' n' s' Hlt Hpass Hne Hnext];
      subst.
    - simpl in Hcap. lia.
    - split; [reflexivity | congruence].
    - simpl in Hpass, Hd. rewrite Hd in Hpass. congruence. }
  destruct Hmid as [-> Hone]. rewrite Hr. simpl.
  split; [reflexivity |]. split; [exact Hone |].
  destruct (_detect_contradictions_spec iteration Hperm
              (knowledge_base (feliz iteration)) eq_refl)
    as [negs [entries [E [Hnd [Hin HF]]]]].
  { repeat constructor; simpl; intuition discriminate. }
  rewrite Hdet in E. injection E as <-.
  assert (Hnegs : negs = [negation (atom0 "Pedro" "Feliz")]).
  { apply singleton_NoDup; [exact Hnd | |].
    - apply Hin. unfold contradicted. simpl. tauto.
    - intros neg Hneg. apply Hin in Hneg. destruct Hneg as [Hk [Hop _]].
      simpl in Hk. destruct Hk as [<- | [<- | []]]; [discriminate | reflexivity]. }
  subst negs. inversion HF as [| x y l l' Hxy Hrest]; subst.
  inversion Hrest; subst. unfold entry_of in Hxy. vm_compute in Hxy.
  injection Hxy as <-. reflexivity.
Qed.


(* ------------------------------------------------------------------ *)
(** ** The theorems at concrete engines *)

Lemma insertion_order_perm (s : list Expression) : Permutation s (insertion_order s).
Proof. apply Permutation_refl. Defined.

Lemma feliz_engine_ok : engine_ok feliz_engine.
Proof.
  split; [reflexivity |]. split.
  - repeat constructor; simpl; intuition discriminate.
  - split; [apply (RuleManager_init_lawful insertion_order insertion_order_perm) |].
    intros c [].
Defined.


Lemma negative_cap_engine_ok : engine_ok negative_cap_engine.
Proof.
  split; [reflexivity |]. split; [constructor |].
  split; [apply (RuleManager_init_lawful insertion_order insertion_order_perm) |].
  intros c [].
Defined.

(** C5 fails for a cap below zero: the engine capped at -1 returns without
    a pass and reports 0 iterations, which is more than its cap. *)
Lemma termination_fails_below_zero :
  ~ termination_within_max_iterations insertion_order.
Proof.
  intros H.
  destruct (H negative_cap_engine negative_cap_engine_ok) as [self' [r [log [E [Hb _]]]]].
  vm_compute in E. injection E as _ _ <-. simpl in Hb. lia.
Qed.

Lemma capped_engine_ok : engine_ok capped_engine.
Proof.
  split; [reflexivity |]. split.
  - repeat constructor; simpl; intuition discriminate.
  - split; [apply (RuleManager_init_lawful insertion_order insertion_order_perm) |].
    intros c [].
Defined.

Lemma chain_engine_ok : engine_ok chain_engine.
Proof.
  split; [reflexivity |]. split.
  - repeat constructor; simpl; intuition discriminate.
  - split; [apply (RuleManager_init_lawful insertion_order insertion_order_perm) |].
    intros c [].
Defined.

Lemma capped_run_log :
  infer_all_log insertion_order capped_engine = Ok (capped_once, capped_result, capped_log).
Proof. vm_compute. reflexivity. Defined.

Lemma chain_run_log :
  infer_all_log insertion_order chain_engine = Ok (chain_inferred, chain_result, chain_log).
Proof. vm_compute. reflexivity. Defined.


Lemma infer_all_within_cap_witness :
  (forall rounds,
     (max_iterations capped_engine <= Z.of_nat rounds)%Z ->
     infer_loop rounds 0 capped_engine []
     = infer_loop (Z.to_nat (max_iterations capped_engine)) 0 capped_engine []) /\
  infer_all insertion_order capped_engine = Ok (capped_once, capped_result) /\
  InferenceResult.iterations capped_result = Z.of_nat (length capped_log) /\
  (InferenceResult.iterations capped_result <= Z.max 0 (max_iterations capped_engine))%Z /\
  (Forall (fun p => derived_in p <> []) capped_log ->
   InferenceResult.iterations capped_result = Z.max 0 (max_iterations capped_engine)) /\
  ((max_iterations capped_engine <= InferenceResult.iterations capped_result)%Z \/
   exists before kb, capped_log = before ++ [mkPass kb []]).
Proof.
  destruct (infer_all_within_cap insertion_order capped_engine) as [Hrounds Hrun].
  split; [exact Hrounds |].
  exact (Hrun capped_once capped_result capped_log capped_run_log).
Defined.


Lemma rule_order_invariance_witness :
  In (atom0 "a" "Q")
     (map fst (derived_by (apply_all_rules (RuleManager_init insertion_order true)
                             (knowledge_base capped_engine)))) <->
  In (atom0 "a" "Q")
     (map fst (derived_by (apply_all_rules
                             (mkRuleManager
                                (rev (rules (RuleManager_init insertion_order true))))
                             (knowledge_base capped_engine)))).
Proof.
  apply (rule_order_invariance insertion_order insertion_order_perm true
           (rev (rules (RuleManager_init insertion_order true)))
           (knowledge_base capped_engine)).
  - apply Permutation_rev.
  - reflexivity.
  - vm_compute. reflexivity.
  - vm_compute. reflexivity.
Defined.

Lemma knowledge_base_grows_witness :
  (forall p, nth_error chain_log 0 = Some p -> entering p = knowledge_base chain_engine) /\
  (forall i p q,
     nth_error chain_log i = Some p -> nth_error chain_log (S i) = Some q ->
     incl (entering p) (entering q) /\
     length (entering p) <= length (entering q) /\
     forall fact, In fact (map fst (derived_in p)) -> In fact (entering q)) /\
  (forall p, In p chain_log ->
     incl (entering p) (knowledge_base chain_inferred) /\
     length (entering p) <= length (knowledge_base chain_inferred) /\
     forall fact, In fact (map fst (derived_in p)) ->
                  In fact (knowledge_base chain_inferred)) /\
  incl (knowledge_base chain_engine) (knowledge_base chain_inferred) /\
  (forall c, In c (InferenceResult.derived_facts chain_result) ->
     In (conclusion c) (knowledge_base chain_inferred)).
Proof.
  apply (knowledge_base_grows insertion_order chain_engine chain_inferred chain_result
           chain_log).
  - exact chain_engine_ok.
  - exact chain_run_log.
Defined.

Lemma derivation_history_kept_witness :
  (exists more,
     InferenceResult.derived_facts (the_result (infer_all insertion_order capped_once))
     = InferenceResult.derived_facts (the_result (infer_all insertion_order capped_engine))
       ++ more) /\
  derivation_chains (clear capped_twice) = [].
Proof.
  apply (derivation_history_kept insertion_order capped_engine capped_once capped_once
           capped_twice
           (the_result (infer_all insertion_order capped_engine))
           (the_result (infer_all insertion_order capped_once))
           [Query (Parsed (atom0 "a" "R"))]);
    vm_compute; reflexivity.
Defined.


(* ------------------------------------------------------------------ *)
(** ** The grammar the parser accepts *)

Lemma match_atom_app (a : Atom) (rest : str) :
  valid_atom a = true ->
  match_atom (Atom_str a ++ rest)
  = Some (subject a, relation a, join (lit ", ") (objects a), rest).
Proof.
  intros Hv. destruct (valid_atom_facts a Hv) as [Ht [_ [Hr [Hid Hobjs]]]].
  rewrite Atom_str_shape. destruct a as [subj rel objs]. simpl in *.
  assert (Hs : forallb not_rparen subj = true) by (apply char_in_false; exact Hr).
  assert (Ho : forallb not_rparen (join (lit ", ") objs) = true).
  { apply forallb_join; [reflexivity |]. intros o Hin. apply char_in_false.
    apply (Hobjs o Hin). }
  destruct subj as [| s0 subj]; [discriminate |].
  destruct rel as [| c2 rel]; [discriminate |].
  simpl in Hid. apply andb_true_iff in Hid. destruct Hid as [Hc2 Hrel].
  unfold match_atom.
  change (negb (lparen =? lparen)%N) with false. cbv iota.
  repeat (rewrite <- app_assoc; cbn [app]).
  change (s0 :: subj ++ rparen :: c2 :: rel ++ lparen ::
            join (lit ", ") objs ++ rparen :: rest)
    with ((s0 :: subj) ++ rparen :: c2 :: rel ++ lparen ::
            join (lit ", ") objs ++ rparen :: rest).
  rewrite (span_app not_rparen (s0 :: subj) rparen _ Hs eq_refl).
  cbn [app]. change (negb (rparen =? rparen)%N) with false. cbv iota.
  rewrite Hc2. simpl negb.
  cbv iota.
  rewrite (span_app is_ident_char rel lparen _ Hrel eq_refl).
  change (negb (lparen =? lparen)%N) with false. cbv iota.
  rewrite (span_app not_rparen _ rparen rest Ho eq_refl).
  change (rparen =? rparen)%N with true. reflexivity.
Qed.

Lemma skipn_length_app {A} (l rest : list A) : skipn (length l) (l ++ rest) = rest.
Proof. induction l as [| x l IH]; [reflexivity | exact IH]. Qed.

Lemma _tokenize_loop_step (fuel i : nat) (c : char) (text : str) (acc : list str)
    (tok : option str) (n : nat) :
  _tokenize_step i (c :: text) c = Ok (tok, n) ->
  length (c :: text) <= fuel ->
  _tokenize_loop fuel i (c :: text) acc
  = _tokenize_loop fuel (i + n) (skipn n (c :: text))
      match tok with Some t => acc ++ [t] | None => acc end.
Proof.
  intros Hstep Hfuel. destruct fuel as [| fuel]; [simpl in Hfuel; lia |].
  change (_tokenize_loop (S fuel) i (c :: text) acc)
    with ('(tok, n) <- _tokenize_step i (c :: text) c ;;
          _tokenize_loop fuel (i + n) (skipn n (c :: text))
            match tok with Some t => acc ++ [t] | None => acc end).
  rewrite Hstep. cbn [bind]. apply _tokenize_step_advances in Hstep.
  apply _tokenize_loop_fuel; rewrite length_skipn; cbn [length] in *; lia.
Qed.

Lemma tokenizes_atom (a : Atom) :
  valid_atom a = true -> tokenizes (Atom_str a) [Atom_str a].
Proof.
  intros Hv rest fuel i acc Hfuel.
  pose proof (match_atom_app a rest Hv) as Hm.
  pose proof (Atom_str_shape a) as Hshape.
  destruct (Atom_str a ++ rest) as [| c text] eqn:Htext.
  { rewrite Hshape in Htext. discriminate. }
  assert (Hc : c = lparen) by (rewrite Hshape in Htext; injection Htext as <- _; reflexivity).
  subst c.
  assert (Hstep : _tokenize_step i (lparen :: text) lparen
                  = Ok (Some (Atom_str a), length (Atom_str a))).
  { unfold _tokenize_step. rewrite Hm. change (isspace lparen) with false.
    cbv iota. unfold group0. rewrite <- Hshape. reflexivity. }
  rewrite (_tokenize_loop_step _ _ _ _ _ _ _ Hstep Hfuel).
  rewrite <- Htext, skipn_length_app. reflexivity.
Qed.

Lemma tokenizes_space : tokenizes [32%N] [].
Proof.
  intros rest fuel i acc Hfuel. cbn [app] in *.
  rewrite (_tokenize_loop_step fuel i 32%N rest acc None 1 eq_refl Hfuel).
  rewrite app_nil_r. reflexivity.
Qed.

Lemma tokenizes_spelling (op : LogicalOperator) (s : str) :
  In s (spellings op) -> tokenizes s [[value op]].
Proof.
  intros Hs.
  assert (Hstep : exists c tail,
            s = c :: tail /\
            forall i rest,
              _tokenize_step i (s ++ rest) c = Ok (Some [value op], length s)).
  { destruct op; cbn [spellings In] in Hs; decompose [or] Hs; subst;
      try contradiction;
      (eexists; eexists; split;
       [reflexivity | intros i [| c' rest]; reflexivity]). }
  destruct Hstep as [c [tail [-> Hstep]]]. intros rest fuel i acc Hfuel.
  cbn [app] in Hfuel.
  rewrite (_tokenize_loop_step _ _ _ _ _ _ _ (Hstep i rest) Hfuel).
  f_equal. exact (skipn_length_app (c :: tail) rest).
Qed.

Lemma tokenizes_app (s1 s2 : str) (t1 t2 : list str) :
  tokenizes s1 t1 -> tokenizes s2 t2 -> tokenizes (s1 ++ s2) (t1 ++ t2).
Proof.
  intros H1 H2 rest fuel i acc Hfuel.
  rewrite <- app_assoc. rewrite H1 by (rewrite app_assoc; exact Hfuel).
  rewrite H2 by (rewrite !length_app in *; lia).
  rewrite length_app, <- app_assoc, Nat.add_assoc. reflexivity.
Qed.

Lemma tokenizes_join (op : LogicalOperator) (sign : str)
    (parts : list str) (toks : list (list str)) :
  tokenizes sign [[value op]] ->
  Forall2 tokenizes parts toks -> parts <> [] ->
  tokenizes (join (lit " " ++ sign ++ lit " ") parts)
            (interleave [value op] toks).
Proof.
  intros Hsign H. induction H as [| s t parts toks Hst Hrest IH]; [congruence |].
  intros _. destruct Hrest as [| s' t' parts toks Hs't' Hrest].
  - exact Hst.
  - change (join (lit " " ++ sign ++ lit " ") (s :: s' :: parts))
      with (s ++ ([32%N] ++ sign ++ [32%N]) ++
            join (lit " " ++ sign ++ lit " ") (s' :: parts)).
    change (interleave [value op] (t :: t' :: toks))
      with (t ++ ([] ++ [[value op]] ++ []) ++ interleave [value op] (t' :: toks)).
    apply tokenizes_app; [exact Hst |].
    apply tokenizes_app.
    + apply tokenizes_app; [exact tokenizes_space |].
      apply tokenizes_app; [exact Hsign | exact tokenizes_space].
    + apply IH. discriminate.
Qed.

Section Written.

Variable spelling : LogicalOperator -> str.
Hypothesis spelling_ok : forall op, In (spelling op) (spellings op).

Lemma tokenizes_literal (e : Expression) :
  is_literal valid_atom e = true -> tokenizes (written spelling e) (tokens_of e).
Proof.
  induction e as [a | op ops IH] using Expression_induction.
  - apply tokenizes_atom.
  - destruct op as [[] |]; try discriminate.
    destruct ops as [| x [| y ops]]; try discriminate.
    cbn [is_literal]. intros H. inversion IH as [| ? ? Hx _]; subst.
    change (written spelling (LogicalExpression (Some NOT) [x]))
      with (spelling NOT ++ written spelling x).
    change (tokens_of (LogicalExpression (Some NOT) [x]))
      with ([[value NOT]] ++ tokens_of x).
    apply tokenizes_app; [apply tokenizes_spelling, spelling_ok | exact (Hx H)].
Qed.

Lemma tokenizes_operands (is_lower : Expression -> bool) (ops : list Expression) :
  (forall x, is_lower x = true -> tokenizes (written spelling x) (tokens_of x)) ->
  forallb is_lower ops = true ->
  Forall2 tokenizes (map (written spelling) ops) (map tokens_of ops).
Proof.
  intros H. induction ops as [| x ops IH]; intros Hall; [constructor |].
  simpl in Hall. apply andb_true_iff in Hall. destruct Hall as [Hx Hall].
  constructor; auto.
Qed.

Lemma tokenizes_conjunction (e : Expression) :
  is_conjunction valid_atom e = true -> tokenizes (written spelling e) (tokens_of e).
Proof.
  unfold is_conjunction. intros H. apply orb_true_iff in H.
  destruct H as [H | H]; [apply tokenizes_literal; exact H |].
  destruct e as [a | [[] |] ops]; try discriminate.
  apply andb_true_iff in H. destruct H as [Hlen Hall].
  apply (tokenizes_join AND (spelling AND) _ _ (tokenizes_spelling _ _ (spelling_ok AND))).
  - apply (tokenizes_operands (is_literal valid_atom)); [apply tokenizes_literal | exact Hall].
  - destruct ops; [discriminate | discriminate].
Qed.

Lemma tokenizes_disjunction (e : Expression) :
  is_disjunction valid_atom e = true -> tokenizes (written spelling e) (tokens_of e).
Proof.
  unfold is_disjunction. intros H. apply orb_true_iff in H.
  destruct H as [H | H]; [apply tokenizes_conjunction; exact H |].
  destruct e as [a | [[] |] ops]; try discriminate.
  apply andb_true_iff in H. destruct H as [Hlen Hall].
  apply (tokenizes_join OR (spelling OR) _ _ (tokenizes_spelling _ _ (spelling_ok OR))).
  - apply (tokenizes_operands (is_conjunction valid_atom));
      [apply tokenizes_conjunction | exact Hall].
  - destruct ops; [discriminate | discriminate].
Qed.

Lemma tokenizes_implication (e : Expression) :
  is_implication valid_atom e = true -> tokenizes (written spelling e) (tokens_of e).
Proof.
  induction e as [a | op ops IH] using Expression_induction; intros H.
  - cbn [is_implication] in H. rewrite orb_false_r in H.
    apply tokenizes_disjunction. exact H.
  - cbn [is_implication] in H. apply orb_true_iff in H.
    destruct H as [H | H]; [apply tokenizes_disjunction; exact H |].
    destruct op as [[] |]; try discriminate.
    destruct ops as [| l [| r [| z ops]]]; try discriminate.
    apply andb_true_iff in H. destruct H as [Hl Hr].
    inversion IH as [| ? ? IHl _]; subst.
    apply (tokenizes_join IMPLIES (spelling IMPLIES) _ _ (tokenizes_spelling _ _ (spelling_ok IMPLIES))); [| discriminate].
    constructor; [exact (IHl Hl) |].
    constructor; [apply tokenizes_disjunction; exact Hr | constructor].
Qed.

Lemma tokenizes_grammar (e : Expression) :
  in_grammar valid_atom e = true -> tokenizes (written spelling e) (tokens_of e).
Proof.
  induction e as [a | op ops IH] using Expression_induction; intros H.
  - cbn [in_grammar] in H. rewrite orb_false_r in H.
    apply tokenizes_implication. exact H.
  - cbn [in_grammar] in H. apply orb_true_iff in H.
    destruct H as [H | H]; [apply tokenizes_implication; exact H |].
    destruct op as [[] |]; try discriminate.
    destruct ops as [| l [| r [| z ops]]]; try discriminate.
    apply andb_true_iff in H. destruct H as [Hl Hr].
    inversion IH as [| ? ? IHl _]; subst.
    apply (tokenizes_join IFF (spelling IFF) _ _ (tokenizes_spelling _ _ (spelling_ok IFF))); [| discriminate].
    constructor; [exact (IHl Hl) |].
    constructor; [apply tokenizes_implication; exact Hr | constructor].
Qed.

End Written.

(** The parser on the tokens of a literal. *)
Lemma _parse_not_literal (e : Expression) :
  is_literal valid_atom e = true ->
  forall rest, _parse_not (tokens_of e ++ rest) = Ok (e, rest).
Proof.
  induction e as [a | op ops IH] using Expression_induction; intros H rest.
  - cbn [tokens_of app]. rewrite _parse_not_atom by (rewrite Atom_str_shape; reflexivity).
    apply _parse_atom_Atom_str. exact H.
  - destruct op as [[] |]; try discriminate.
    destruct ops as [| x [| y ops]]; try discriminate.
    cbn [is_literal] in H. inversion IH as [| ? ? Hx _]; subst.
    cbn [tokens_of app _parse_not].
    change (str_eqb [glyph_not] [glyph_not]) with true. cbv iota.
    rewrite (Hx H rest). reflexivity.
Qed.

Lemma interleave_flat_map (sep : str) (p : list str) (ps : list (list str)) :
  interleave sep (p :: ps) = p ++ flat_map (fun q => sep :: q) ps.
Proof.
  revert p. induction ps as [| q ps IH]; intros p.
  - simpl. rewrite app_nil_r. reflexivity.
  - change (interleave sep (p :: q :: ps)) with (p ++ sep :: interleave sep (q :: ps)).
    rewrite IH. reflexivity.
Qed.

Lemma flat_map_map {A B C} (f : A -> B) (g : B -> list C) (l : list A) :
  flat_map g (map f l) = flat_map (fun x => g (f x)) l.
Proof. induction l as [| x l IH]; [reflexivity | simpl; rewrite IH; reflexivity]. Qed.

Section Level.

Variable symbol : char.
Variable next : list str -> result (Expression * list str).
Variable is_lower : Expression -> bool.
Variable lows : list char.

Hypothesis next_lower :
  forall x rest, is_lower x = true -> free_of lows rest = true ->
    next (tokens_of x ++ rest) = Ok (x, rest).
Hypothesis symbol_above : forall l, free_of lows ([symbol] :: l) = true.

Lemma free_of_cons (rest : list str) :
  free_of (symbol :: lows) rest = true ->
  free_of lows rest = true /\
  match rest with
  | t :: _ => str_eqb t [symbol] = false
  | [] => True
  end.
Proof.
  destruct rest as [| t rest]; [split; [reflexivity | exact I] |].
  cbn [free_of existsb]. rewrite negb_orb, andb_true_iff, !negb_true_iff. tauto.
Qed.

Lemma operator_loop_operands {A} (combine : A -> Expression -> A)
    (ops : list Expression) :
  forall acc rest fuel,
    forallb is_lower ops = true ->
    free_of (symbol :: lows) rest = true ->
    length (flat_map (fun x => [symbol] :: tokens_of x) ops ++ rest) <= fuel ->
    operator_loop fuel symbol next combine acc
      (flat_map (fun x => [symbol] :: tokens_of x) ops ++ rest)
    = Ok (fold_left combine ops acc, rest).
Proof.
  induction ops as [| x ops IH]; intros acc rest fuel Hall Hfree Hfuel.
  - cbn [flat_map app fold_left]. destruct (free_of_cons rest Hfree) as [_ Hstop].
    destruct rest as [| t rest]; [destruct fuel; reflexivity |].
    destruct fuel; cbn [operator_loop]; rewrite Hstop; reflexivity.
  - simpl in Hall. apply andb_true_iff in Hall. destruct Hall as [Hx Hall].
    cbn [flat_map fold_left] in *. rewrite <- !app_assoc in *. cbn [app] in *.
    destruct fuel as [| fuel]; [simpl in Hfuel; lia |].
    cbn [operator_loop]. unfold str_eqb at 1. cbn [list_eqb].
    rewrite N.eqb_refl. cbn [andb]. cbv iota.
    rewrite next_lower; [| exact Hx |].
    + cbn [bind]. apply IH; [exact Hall | exact Hfree |].
      cbn [length] in Hfuel. rewrite length_app in Hfuel. lia.
    + destruct ops as [| y ops].
      * cbn [flat_map app]. apply (free_of_cons rest Hfree).
      * cbn [flat_map app]. apply symbol_above.
Qed.

End Level.

Lemma fold_left_append_operand (ops acc : list Expression) :
  fold_left append_operand ops acc = acc ++ ops.
Proof.
  revert acc. induction ops as [| x ops IH]; intros acc; simpl.
  - rewrite app_nil_r. reflexivity.
  - rewrite IH. unfold append_operand. rewrite <- app_assoc. reflexivity.
Qed.

Lemma flat_map_free_of (symbol : char) (lows : list char) (ds : list Expression)
    (rest : list str) :
  (forall l, free_of lows ([symbol] :: l) = true) ->
  free_of lows rest = true ->
  free_of lows (flat_map (fun x => [symbol] :: tokens_of x) ds ++ rest) = true.
Proof.
  intros Hsym Hrest. destruct ds as [| d ds]; [exact Hrest | apply Hsym].
Qed.

Lemma free_of_tail (s : char) (lows : list char) (rest : list str) :
  free_of (s :: lows) rest = true -> free_of lows rest = true.
Proof.
  destruct rest as [| t rest]; [reflexivity |].
  cbn [free_of existsb]. rewrite negb_orb, andb_true_iff. tauto.
Qed.

(** Runs the first call of a sequence whose result is known. *)
Ltac run H :=
  match goal with
  | |- bind ?m _ = _ =>
      match type of H with
      | _ = ?r => replace m with r by (symmetry; exact H); cbn [bind]
      end
  end.

Lemma _parse_and_conjunction (e : Expression) (rest : list str) :
  is_conjunction valid_atom e = true ->
  free_of [glyph_and] rest = true ->
  _parse_and (tokens_of e ++ rest) = Ok (e, rest).
Proof.
  intros H Hrest.
  assert (Hloop : forall ops acc,
            forallb (is_literal valid_atom) ops = true ->
            operator_loop
              (length (flat_map (fun x => [glyph_and] :: tokens_of x) ops ++ rest))
              glyph_and _parse_not append_operand acc
              (flat_map (fun x => [glyph_and] :: tokens_of x) ops ++ rest)
            = Ok (acc ++ ops, rest)).
  { intros ops acc Hops. rewrite <- fold_left_append_operand.
    apply (operator_loop_operands glyph_and _parse_not (is_literal valid_atom) []
             (fun x r Hx _ => _parse_not_literal x Hx r) (fun l => eq_refl));
      [exact Hops | exact Hrest | apply le_n]. }
  unfold is_conjunction in H. apply orb_true_iff in H. unfold _parse_and.
  destruct H as [H | H].
  - rewrite (_parse_not_literal e H). cbn [bind].
    run (Hloop [] [e] eq_refl). reflexivity.
  - destruct e as [a | [[] |] ops]; try discriminate.
    apply andb_true_iff in H. destruct H as [Hlen Hall].
    destruct ops as [| x [| y ops]]; try discriminate.
    cbn [tokens_of map value]. rewrite interleave_flat_map.
    change (tokens_of y :: map tokens_of ops) with (map tokens_of (y :: ops)).
    rewrite flat_map_map, <- app_assoc.
    cbn [forallb] in Hall. apply andb_true_iff in Hall. destruct Hall as [Hx Hall].
    rewrite (_parse_not_literal x Hx). cbn [bind].
    run (Hloop (y :: ops) [x] Hall). reflexivity.
Qed.

Lemma _parse_or_disjunction (e : Expression) (rest : list str) :
  is_disjunction valid_atom e = true ->
  free_of [glyph_or; glyph_and] rest = true ->
  _parse_or (tokens_of e ++ rest) = Ok (e, rest).
Proof.
  intros H Hrest.
  assert (Hloop : forall ops acc,
            forallb (is_conjunction valid_atom) ops = true ->
            operator_loop
              (length (flat_map (fun x => [glyph_or] :: tokens_of x) ops ++ rest))
              glyph_or _parse_and append_operand acc
              (flat_map (fun x => [glyph_or] :: tokens_of x) ops ++ rest)
            = Ok (acc ++ ops, rest)).
  { intros ops acc Hops. rewrite <- fold_left_append_operand.
    apply (operator_loop_operands glyph_or _parse_and (is_conjunction valid_atom)
             [glyph_and]
             (fun x r Hx Hr => _parse_and_conjunction x r Hx Hr) (fun l => eq_refl));
      [exact Hops | exact Hrest | apply le_n]. }
  pose proof (free_of_tail _ _ _ Hrest) as Hand.
  unfold is_disjunction in H. apply orb_true_iff in H. unfold _parse_or.
  destruct H as [H | H].
  - rewrite (_parse_and_conjunction e rest H Hand). cbn [bind].
    run (Hloop [] [e] eq_refl). reflexivity.
  - destruct e as [a | [[] |] ops]; try discriminate.
    apply andb_true_iff in H. destruct H as [Hlen Hall].
    destruct ops as [| x [| y ops]]; try discriminate.
    cbn [tokens_of map value]. rewrite interleave_flat_map.
    change (tokens_of y :: map tokens_of ops) with (map tokens_of (y :: ops)).
    rewrite flat_map_map, <- app_assoc.
    cbn [forallb] in Hall. apply andb_true_iff in Hall. destruct Hall as [Hx Hall].
    rewrite (_parse_and_conjunction x _ Hx) by reflexivity. cbn [bind].
    run (Hloop (y :: ops) [x] Hall). reflexivity.
Qed.

(** An implication is a chain of disjunctions nested to the left. *)
Lemma implication_spine (e : Expression) :
  is_implication valid_atom e = true ->
  exists d ds,
    is_disjunction valid_atom d = true /\
    forallb (is_disjunction valid_atom) ds = true /\
    e = fold_left (fun l r => LogicalExpression (Some IMPLIES) [l; r]) ds d /\
    tokens_of e
    = tokens_of d ++ flat_map (fun x => [glyph_implies] :: tokens_of x) ds.
Proof.
  induction e as [a | op ops IH] using Expression_induction; intros H;
    cbn [is_implication] in H; apply orb_true_iff in H;
    (destruct H as [H | H];
     [exists (EAtom a) || exists (LogicalExpression op ops); exists [];
      rewrite app_nil_r; auto |]); [discriminate |].
  destruct op as [[] |]; try discriminate.
  destruct ops as [| l [| r [| z ops]]]; try discriminate.
  apply andb_true_iff in H. destruct H as [Hl Hr].
  inversion IH as [| ? ? IHl _]; subst.
  destruct (IHl Hl) as [d [ds [Hd [Hds [El Tl]]]]].
  exists d, (ds ++ [r]). split; [exact Hd |]. split.
  - rewrite forallb_app, Hds. simpl. rewrite Hr. reflexivity.
  - split.
    + rewrite fold_left_app, <- El. reflexivity.
    + cbn [tokens_of map value]. rewrite interleave_flat_map, Tl, flat_map_app.
      cbn [flat_map]. rewrite !app_nil_r, <- !app_assoc. reflexivity.
Qed.

Lemma _parse_implies_implication (e : Expression) (rest : list str) :
  is_implication valid_atom e = true ->
  free_of [glyph_implies; glyph_or; glyph_and] rest = true ->
  _parse_implies (tokens_of e ++ rest) = Ok (e, rest).
Proof.
  intros H Hrest. destruct (implication_spine e H) as [d [ds [Hd [Hds [-> ->]]]]].
  pose proof (free_of_tail _ _ _ Hrest) as Hor.
  unfold _parse_implies. rewrite <- app_assoc.
  rewrite (_parse_or_disjunction d _ Hd)
    by (apply flat_map_free_of; [intros l; reflexivity | exact Hor]).
  cbn [bind].
  apply (operator_loop_operands glyph_implies _parse_or (is_disjunction valid_atom)
           [glyph_or; glyph_and]
           (fun x r Hx Hr => _parse_or_disjunction x r Hx Hr) (fun l => eq_refl));
    [exact Hds | exact Hrest | apply le_n].
Qed.

(** A biconditional is a chain of implications nested to the left. *)
Lemma grammar_spine (e : Expression) :
  in_grammar valid_atom e = true ->
  exists d ds,
    is_implication valid_atom d = true /\
    forallb (is_implication valid_atom) ds = true /\
    e = fold_left (fun l r => LogicalExpression (Some IFF) [l; r]) ds d /\
    tokens_of e
    = tokens_of d ++ flat_map (fun x => [glyph_iff] :: tokens_of x) ds.
Proof.
  induction e as [a | op ops IH] using Expression_induction; intros H;
    cbn [in_grammar] in H; apply orb_true_iff in H;
    (destruct H as [H | H];
     [exists (EAtom a) || exists (LogicalExpression op ops); exists [];
      rewrite app_nil_r; auto |]); [discriminate |].
  destruct op as [[] |]; try discriminate.
  destruct ops as [| l [| r [| z ops]]]; try discriminate.
  apply andb_true_iff in H. destruct H as [Hl Hr].
  inversion IH as [| ? ? IHl _]; subst.
  destruct (IHl Hl) as [d [ds [Hd [Hds [El Tl]]]]].
  exists d, (ds ++ [r]). split; [exact Hd |]. split.
  - rewrite forallb_app, Hds. simpl. rewrite Hr. reflexivity.
  - split.
    + rewrite fold_left_app, <- El. reflexivity.
    + cbn [tokens_of map value]. rewrite interleave_flat_map, Tl, flat_map_app.
      cbn [flat_map]. rewrite !app_nil_r, <- !app_assoc. reflexivity.
Qed.

Lemma _parse_iff_grammar (e : Expression) :
  in_grammar valid_atom e = true ->
  _parse_iff (tokens_of e) = Ok (e, []).
Proof.
  intros H. destruct (grammar_spine e H) as [d [ds [Hd [Hds [-> ->]]]]].
  unfold _parse_iff.
  rewrite (_parse_implies_implication d _ Hd)
    by (rewrite <- (app_nil_r (flat_map _ ds));
        apply flat_map_free_of; [intros l; reflexivity | reflexivity]).
  cbn [bind]. rewrite <- (app_nil_r (flat_map _ ds)).
  apply (operator_loop_operands glyph_iff _parse_implies (is_implication valid_atom)
           [glyph_implies; glyph_or; glyph_and]
           (fun x r Hx Hr => _parse_implies_implication x r Hx Hr) (fun l => eq_refl));
    [exact Hds | reflexivity | apply le_n].
Qed.

Section Closed.

Variable spelling : LogicalOperator -> str.
Hypothesis spelling_ok : forall op, In (spelling op) (spellings op).

(** Text that starts with something other than white space and ends with a
    closing parenthesis. *)
Lemma closed_join (sep : str) (parts : list str) :
  parts <> [] ->
  (forall p, In p parts -> starts_ok p = true /\ exists body, p = body ++ [rparen]) ->
  starts_ok (join sep parts) = true /\ exists body, join sep parts = body ++ [rparen].
Proof.
  intros Hne H. split.
  - destruct parts as [| p ps]; [congruence |].
    destruct (join_first sep p ps) as [t ->]. apply starts_ok_app.
    apply (H p). left. reflexivity.
  - destruct (exists_last Hne) as [front [p ->]].
    destruct (join_last sep front p) as [t ->].
    destruct (H p) as [_ [body ->]]; [apply in_app_iff; right; left; reflexivity |].
    exists (t ++ body). rewrite app_assoc. reflexivity.
Qed.

Lemma closed_operands (is_lower : Expression -> bool) (ops : list Expression) :
  (forall x, is_lower x = true ->
     starts_ok (written spelling x) = true /\ exists body, written spelling x = body ++ [rparen]) ->
  forallb is_lower ops = true ->
  forall p, In p (map (written spelling) ops) ->
    starts_ok p = true /\ exists body, p = body ++ [rparen].
Proof.
  intros H Hall p Hp. apply in_map_iff in Hp. destruct Hp as [x [<- Hx]].
  apply H. rewrite forallb_forall in Hall. apply Hall. exact Hx.
Qed.

Lemma closed_literal (e : Expression) :
  is_literal valid_atom e = true ->
  starts_ok (written spelling e) = true /\ exists body, written spelling e = body ++ [rparen].
Proof.
  induction e as [a | op ops IH] using Expression_induction; intros H.
  - cbn [written]. rewrite Atom_str_shape. split; [reflexivity |].
    exists (lparen :: subject a ++ rparen :: relation a ++
            lparen :: join (lit ", ") (objects a)).
    cbn [app]. repeat (rewrite <- app_assoc; cbn [app]). reflexivity.
  - destruct op as [[] |]; try discriminate.
    destruct ops as [| x [| y ops]]; try discriminate.
    cbn [is_literal] in H. inversion IH as [| ? ? Hx _]; subst.
    destruct (Hx H) as [_ [body Hbody]]. cbn [written]. split.
    + apply starts_ok_app. pose proof (spelling_ok NOT) as Hs. cbn [spellings In] in Hs.
      repeat (destruct Hs as [<- | Hs]; [reflexivity |]). destruct Hs.
    + exists (spelling NOT ++ body). rewrite Hbody, app_assoc. reflexivity.
Qed.

Lemma closed_conjunction (e : Expression) :
  is_conjunction valid_atom e = true ->
  starts_ok (written spelling e) = true /\ exists body, written spelling e = body ++ [rparen].
Proof.
  unfold is_conjunction. intros H. apply orb_true_iff in H.
  destruct H as [H | H]; [apply closed_literal; exact H |].
  destruct e as [a | [[] |] ops]; try discriminate.
  apply andb_true_iff in H. destruct H as [Hlen Hall].
  apply closed_join; [destruct ops; discriminate |].
  apply (closed_operands (is_literal valid_atom)); [apply closed_literal | exact Hall].
Qed.

Lemma closed_disjunction (e : Expression) :
  is_disjunction valid_atom e = true ->
  starts_ok (written spelling e) = true /\ exists body, written spelling e = body ++ [rparen].
Proof.
  unfold is_disjunction. intros H. apply orb_true_iff in H.
  destruct H as [H | H]; [apply closed_conjunction; exact H |].
  destruct e as [a | [[] |] ops]; try discriminate.
  apply andb_true_iff in H. destruct H as [Hlen Hall].
  apply closed_join; [destruct ops; discriminate |].
  apply (closed_operands (is_conjunction valid_atom));
    [apply closed_conjunction | exact Hall].
Qed.

Lemma closed_implication (e : Expression) :
  is_implication valid_atom e = true ->
  starts_ok (written spelling e) = true /\ exists body, written spelling e = body ++ [rparen].
Proof.
  induction e as [a | op ops IH] using Expression_induction; intros H;
    cbn [is_implication] in H; apply orb_true_iff in H;
    (destruct H as [H | H]; [apply closed_disjunction; exact H |]);
    [discriminate |].
  destruct op as [[] |]; try discriminate.
  destruct ops as [| l [| r [| z ops]]]; try discriminate.
  apply andb_true_iff in H. destruct H as [Hl Hr].
  inversion IH as [| ? ? IHl _]; subst.
  apply closed_join; [discriminate |].
  intros p [<- | [<- | []]]; [exact (IHl Hl) | apply closed_disjunction; exact Hr].
Qed.

Lemma closed_grammar (e : Expression) :
  in_grammar valid_atom e = true ->
  starts_ok (written spelling e) = true /\ exists body, written spelling e = body ++ [rparen].
Proof.
  induction e as [a | op ops IH] using Expression_induction; intros H;
    cbn [in_grammar] in H; apply orb_true_iff in H;
    (destruct H as [H | H]; [apply closed_implication; exact H |]);
    [discriminate |].
  destruct op as [[] |]; try discriminate.
  destruct ops as [| l [| r [| z ops]]]; try discriminate.
  apply andb_true_iff in H. destruct H as [Hl Hr].
  inversion IH as [| ? ? IHl _]; subst.
  apply closed_join; [discriminate |].
  intros p [<- | [<- | []]]; [exact (IHl Hl) | apply closed_implication; exact Hr].
Qed.

(** The parser inverts the written spelling on the expressions of the grammar. *)
Lemma parse_written (e : Expression) :
  in_grammar valid_atom e = true -> parse (written spelling e) = Ok e.
Proof.
  intros H. unfold parse.
  assert (Hstrip : strip (written spelling e) = written spelling e).
  { apply strip_trimmed. destruct (closed_grammar e H) as [Hstart [body Hbody]].
    unfold trimmed. fold (starts_ok (written spelling e)). rewrite Hstart, Hbody.
    rewrite rev_app_distr. reflexivity. }
  rewrite Hstrip.
  assert (Htok : _tokenize (written spelling e) = Ok (tokens_of e)).
  { unfold _tokenize.
    pose proof (tokenizes_grammar spelling spelling_ok e H [] (length (written spelling e)) 0 []) as Ht.
    rewrite app_nil_r in Ht. rewrite Ht by apply le_n.
    destruct (length (written spelling e)); reflexivity. }
  rewrite Htok. cbn [bind]. pose proof (_parse_iff_grammar e H) as Hp.
  destruct (tokens_of e) as [| t ts]; [discriminate |].
  rewrite Hp. reflexivity.
Qed.

End Closed.

Lemma to_str_literal (e : Expression) :
  is_literal valid_atom e = true -> to_str e = Ok (notation e).
Proof.
  induction e as [a | op ops IH] using Expression_induction; intros H.
  - reflexivity.
  - destruct op as [[] |]; try discriminate.
    destruct ops as [| x [| y ops]]; try discriminate.
    cbn [is_literal] in H. inversion IH as [| ? ? Hx _]; subst.
    unfold notation in *. cbn [to_str written value app]. rewrite (Hx H). reflexivity.
Qed.

Lemma literal_in_grammar (e : Expression) :
  is_literal valid_atom e = true -> in_grammar valid_atom e = true.
Proof.
  intros H. destruct e; cbn [in_grammar is_implication];
    unfold is_disjunction, is_conjunction; rewrite H; reflexivity.
Qed.

(** *** White space around the text *)

Lemma lstrip_spaces (l s : str) : forallb isspace l = true -> lstrip (l ++ s) = lstrip s.
Proof.
  induction l as [| c l IH]; intros H; [reflexivity |].
  simpl in H. apply andb_true_iff in H. destruct H as [Hc Hl].
  simpl. rewrite Hc. apply IH. exact Hl.
Qed.

Lemma lstrip_app (s r : str) : lstrip s <> [] -> lstrip (s ++ r) = lstrip s ++ r.
Proof.
  induction s as [| c s IH]; intros H; [contradiction H; reflexivity |].
  simpl in *. destruct (isspace c); [apply IH; exact H | reflexivity].
Qed.

Lemma lstrip_nil (s : str) : lstrip s = [] -> forallb isspace s = true.
Proof.
  induction s as [| c s IH]; intros H; [reflexivity |].
  simpl in *. destruct (isspace c); [apply IH; exact H | discriminate].
Qed.

Lemma forallb_rev {A} (p : A -> bool) (l : list A) :
  forallb p l = true -> forallb p (rev l) = true.
Proof.
  rewrite !forallb_forall. intros H x Hx. apply H. apply in_rev. exact Hx.
Qed.

Lemma strip_spaces (l s r : str) :
  forallb isspace l = true -> forallb isspace r = true ->
  strip (l ++ s ++ r) = strip s.
Proof.
  intros Hl Hr. unfold strip. rewrite (lstrip_spaces l _ Hl).
  destruct (lstrip s) as [| c t] eqn:Hs.
  - apply lstrip_nil in Hs.
    rewrite <- (app_nil_r (s ++ r)), (lstrip_spaces (s ++ r) [])
      by (rewrite forallb_app, Hs, Hr; reflexivity).
    reflexivity.
  - rewrite lstrip_app by (rewrite Hs; discriminate). rewrite Hs.
    rewrite rev_app_distr, (lstrip_spaces (rev r) _ (forallb_rev _ _ Hr)).
    reflexivity.
Qed.

(** *** The shape of what the parser returns *)

Lemma span_forallb (p : char -> bool) (s : str) : forallb p (fst (span p s)) = true.
Proof.
  induction s as [| c s IH]; [reflexivity |]. simpl.
  destruct (p c) eqn:Hc; [| reflexivity].
  destruct (span p s) as [a b]. simpl in *. rewrite Hc, IH. reflexivity.
Qed.

Lemma match_atom_identifier (token g1 g2 g3 rest : str) :
  match_atom token = Some (g1, g2, g3, rest) -> is_identifier g2 = true.
Proof.
  unfold match_atom. destruct token as [| c0 s1]; [discriminate |].
  destruct (negb (c0 =? lparen)%N); [discriminate |].
  destruct (span not_rparen s1) as [[| x subj] [| c1 [| c2 s2]]]; try discriminate.
  destruct (negb (c1 =? rparen)%N); [discriminate |].
  destruct (is_ident_start c2) eqn:Hc2; [| discriminate]. cbn [negb].
  pose proof (span_forallb is_ident_char s2) as Hrel.
  destruct (span is_ident_char s2) as [rel [| c3 s3]]; [discriminate |].
  destruct (negb (c3 =? lparen)%N); [discriminate |].
  destruct (span not_rparen s3) as [objs [| c4 rest']]; [discriminate |].
  destruct (c4 =? rparen)%N; [| discriminate].
  intros [= _ <- _ _]. simpl in *. rewrite Hc2, Hrel. reflexivity.
Qed.

Lemma _parse_atom_shape (tokens : list str) (e : Expression) (rest : list str) :
  _parse_atom tokens = Ok (e, rest) -> is_literal parsed_atom e = true.
Proof.
  unfold _parse_atom. destruct tokens as [| token tokens]; [discriminate |].
  destruct (match_atom token) as [[[[g1 g2] g3] unmatched] |] eqn:Hm; [| discriminate].
  pose proof (match_atom_identifier _ _ _ _ _ Hm) as Hid.
  rewrite (strip_trimmed g2 (identifier_trimmed g2 Hid)).
  destruct (char_in lparen (strip g1) || char_in rparen (strip g1)) eqn:Hsubj;
    [discriminate |].
  apply orb_false_iff in Hsubj. destruct Hsubj as [Hl Hr].
  destruct (strip g3).
  - intros [= <- <-]. cbn [is_literal]. unfold parsed_atom, no_parentheses.
    cbn [subject relation objects forallb]. rewrite Hl, Hr, Hid. reflexivity.
  - destruct (find _ _) eqn:Hfind; [discriminate |].
    intros [= <- <-]. cbn [is_literal]. unfold parsed_atom, no_parentheses.
    cbn [subject relation objects]. rewrite Hl, Hr, Hid. cbn [negb andb].
    apply forallb_forall. intros x Hx.
    pose proof (find_none _ _ Hfind x Hx) as Hx'. cbn beta in Hx'.
    apply orb_false_iff in Hx'. destruct Hx' as [-> ->]. reflexivity.
Qed.

Lemma _parse_not_shape (tokens : list str) :
  forall e rest, _parse_not tokens = Ok (e, rest) -> is_literal parsed_atom e = true.
Proof.
  induction tokens as [| token tokens IH]; intros e rest H.
  - apply (_parse_atom_shape _ _ _ H).
  - cbn [_parse_not] in H. destruct (str_eqb token [glyph_not]).
    + destruct (_parse_not tokens) as [[operand rest'] | x] eqn:E; [| discriminate].
      cbn [bind] in H. injection H as <- <-. exact (IH _ _ eq_refl).
    + apply (_parse_atom_shape _ _ _ H).
Qed.

(** A level that collects operands in a list returns an operand of the
    level below or two or more of them under the level's operator. *)
Lemma list_level_shape (op : LogicalOperator) (symbol : char)
    (next : list str -> result (Expression * list str))
    (is_lower : Expression -> bool)
    (tokens : list str) (e : Expression) (rest : list str) :
  (forall tokens e rest,
     next tokens = Ok (e, rest) ->
     is_lower e = true /\ length rest < length tokens) ->
  ('(first, rest) <- next tokens ;;
   '(operands, rest') <-
     operator_loop (length rest) symbol next append_operand [first] rest ;;
   match operands with
   | [single] => Ok (single, rest')
   | _ => Ok (LogicalExpression (Some op) operands, rest')
   end) = Ok (e, rest) ->
  is_lower e = true \/
  exists ops, e = LogicalExpression (Some op) ops /\
              (2 <=? length ops)%nat = true /\ forallb is_lower ops = true.
Proof.
  intros Hnext H.
  destruct (next tokens) as [[first rest1] | x] eqn:E1; [| discriminate].
  simpl in H. destruct (Hnext _ _ _ E1) as [W1 L1].
  destruct (operator_loop (length rest1) symbol next append_operand [first] rest1)
    as [[operands' rest2] | x] eqn:E2; [| discriminate].
  simpl in H.
  apply (operator_loop_invariant _ symbol next append_operand
           (fun t e r H => proj2 (Hnext t e r H))
           (fun l => forallb is_lower l = true /\ 1 <= length l)) in E2.
  - destruct E2 as [[Wall Hlen] L2].
    destruct operands' as [| single [| second more]]; injection H as <- <-.
    + simpl in Hlen. lia.
    + left. simpl in Wall. rewrite andb_true_r in Wall. exact Wall.
    + right. eexists. split; [reflexivity |]. split; [reflexivity | exact Wall].
  - intros acc t x r [Hacc Hlen] Hx. unfold append_operand.
    rewrite forallb_app, Hacc, length_app. simpl.
    rewrite (proj1 (Hnext _ _ _ Hx)). split; [reflexivity | lia].
  - simpl. rewrite W1. split; [reflexivity | lia].
Qed.

(** A level that folds its operands to the left returns a chain nested to
    the left. *)
Lemma binary_level_shape (op : LogicalOperator) (symbol : char)
    (next : list str -> result (Expression * list str))
    (is_lower is_level : Expression -> bool)
    (tokens : list str) (e : Expression) (rest : list str) :
  (forall tokens e rest,
     next tokens = Ok (e, rest) ->
     is_lower e = true /\ length rest < length tokens) ->
  (forall e, is_lower e = true -> is_level e = true) ->
  (forall l r, is_level l = true -> is_lower r = true ->
     is_level (LogicalExpression (Some op) [l; r]) = true) ->
  ('(first, rest) <- next tokens ;;
   operator_loop (length rest) symbol next
     (fun l r => LogicalExpression (Some op) [l; r]) first rest) = Ok (e, rest) ->
  is_level e = true.
Proof.
  intros Hnext Hlower Hlevel H.
  destruct (next tokens) as [[first rest1] | x] eqn:E1; [| discriminate].
  simpl in H. destruct (Hnext _ _ _ E1) as [W1 L1].
  apply (operator_loop_invariant _ symbol next
           (fun l r => LogicalExpression (Some op) [l; r])
           (fun t e r H => proj2 (Hnext t e r H))
           (fun l => is_level l = true)) in H.
  - apply H.
  - intros acc t x r Hacc Hx. apply Hlevel; [exact Hacc |].
    apply (Hnext _ _ _ Hx).
  - apply Hlower. exact W1.
Qed.

Lemma _parse_and_shape (tokens : list str) (e : Expression) (rest : list str) :
  _parse_and tokens = Ok (e, rest) -> is_conjunction parsed_atom e = true.
Proof.
  intros H.
  apply (list_level_shape AND glyph_and _parse_not (is_literal parsed_atom)) in H.
  - unfold is_conjunction. destruct H as [H | [ops [-> [H1 H2]]]].
    + rewrite H. reflexivity.
    + rewrite H1, H2. apply orb_true_r.
  - intros t x r Ht. split; [apply (_parse_not_shape _ _ _ Ht) |].
    apply (_parse_not_spec _ _ _ Ht).
Qed.

Lemma _parse_or_shape (tokens : list str) (e : Expression) (rest : list str) :
  _parse_or tokens = Ok (e, rest) -> is_disjunction parsed_atom e = true.
Proof.
  intros H.
  apply (list_level_shape OR glyph_or _parse_and (is_conjunction parsed_atom)) in H.
  - unfold is_disjunction. destruct H as [H | [ops [-> [H1 H2]]]].
    + rewrite H. reflexivity.
    + rewrite H1, H2. apply orb_true_r.
  - intros t x r Ht. split; [apply (_parse_and_shape _ _ _ Ht) |].
    apply (_parse_and_spec _ _ _ Ht).
Qed.

Lemma _parse_implies_shape (tokens : list str) (e : Expression) (rest : list str) :
  _parse_implies tokens = Ok (e, rest) -> is_implication parsed_atom e = true.
Proof.
  apply (binary_level_shape IMPLIES glyph_implies _parse_or
           (is_disjunction parsed_atom) (is_implication parsed_atom)).
  - intros t x r Ht. split; [apply (_parse_or_shape _ _ _ Ht) |].
    apply (_parse_or_spec _ _ _ Ht).
  - intros x Hx. destruct x; cbn [is_implication]; rewrite Hx; reflexivity.
  - intros l r Hl Hr. cbn [is_implication]. rewrite Hl, Hr. apply orb_true_r.
Qed.

Lemma _parse_iff_shape (tokens : list str) (e : Expression) (rest : list str) :
  _parse_iff tokens = Ok (e, rest) -> in_grammar parsed_atom e = true.
Proof.
  apply (binary_level_shape IFF glyph_iff _parse_implies
           (is_implication parsed_atom) (in_grammar parsed_atom)).
  - intros t x r Ht. split; [apply (_parse_implies_shape _ _ _ Ht) |].
    apply (_parse_implies_spec _ _ _ Ht).
  - intros x Hx. destruct x; cbn [in_grammar]; rewrite Hx; reflexivity.
  - intros l r Hl Hr. cbn [in_grammar]. rewrite Hl, Hr. apply orb_true_r.
Qed.

(** X1.  Round trip of literals.  For an atom of the grammar under any number
    of negations, [str] raises no [IndexError], and the text it returns is
    one the parser accepts (it raises no [ValueError] on it) and reads
    back, when the parse returns, as the same expression. *)
Theorem roundtrip_literal (e : Expression) :
  is_literal valid_atom e = true ->
  to_str e <> Raise IndexError /\
  forall text,
    to_str e = Ok text ->
    (forall error, parse text <> Raise (ValueError error)) /\
    (forall e', parse text = Ok e' -> e' = e).
Proof.
  intros H. rewrite (to_str_literal e H). split; [discriminate |].
  intros text [= <-].
  assert (Hp : parse (notation e) = Ok e).
  { apply parse_written; [intros op; destruct op; left; reflexivity |].
    apply literal_in_grammar. exact H. }
  rewrite Hp. split; [discriminate |]. intros e' [= <-]. reflexivity.
Qed.

(** X2.  The grammar the parser accepts.  An expression of the grammar
    (biconditionals and implications nested to the left, over disjunctions
    of conjunctions of literals) written without parentheses, every
    operator in any of the spellings the tokenizer knows, is accepted (the
    parser raises no [ValueError] on it), and a parse that returns gives
    the expression itself: negation binds tighter than conjunction,
    conjunction tighter than disjunction, disjunction tighter than
    implication, implication tighter than the biconditional; conjunctions
    and disjunctions are flat. *)
Theorem parse_inverts_notation (spelling : LogicalOperator -> str) (e : Expression) :
  (forall op, In (spelling op) (spellings op)) ->
  in_grammar valid_atom e = true ->
  (forall error, parse (written spelling e) <> Raise (ValueError error)) /\
  (forall e', parse (written spelling e) = Ok e' -> e' = e).
Proof.
  intros Hs He. rewrite (parse_written spelling Hs e He).
  split; [discriminate |]. intros e' [= <-]. reflexivity.
Qed.

(** X3.  A text of white space only (the empty text included) is rejected with
    the [ValueError] for an empty expression. *)
Theorem parse_blank_text (text : str) :
  forallb isspace text = true -> parse text = Raise (ValueError EmptyExpression).
Proof.
  intros H. unfold parse.
  assert (Hstrip : strip text = []).
  { rewrite <- (app_nil_r text), <- (app_nil_l (text ++ [])).
    rewrite (strip_spaces [] text [] eq_refl eq_refl).
    unfold strip. rewrite <- (app_nil_r text), (lstrip_spaces text [] H). reflexivity. }
  rewrite Hstrip. reflexivity.
Qed.

(** X4.  White space before and after the text changes nothing: the result,
    or the error with its position, is that of the text alone. *)
Theorem parse_ignores_outer_space (before text after : str) :
  forallb isspace before = true -> forallb isspace after = true ->
  parse (before ++ text ++ after) = parse text.
Proof.
  intros Hb Ha. unfold parse. rewrite (strip_spaces before text after Hb Ha).
  reflexivity.
Qed.

(** X5.  Whatever [parse] returns is an expression of the grammar: a literal
    is an atom under negations, the operands of a conjunction are two or
    more literals, those of a disjunction two or more conjunctions or
    literals, implications and biconditionals have two operands and nest
    to the left; and every atom has an identifier as relation and no
    parenthesis in its subject or objects. *)
Theorem parse_returns_grammar (text : str) (e : Expression) :
  parse text = Ok e -> in_grammar parsed_atom e = true.
Proof.
  unfold parse. destruct (_tokenize (strip text)) as [tokens | x]; [| discriminate].
  cbn [bind]. destruct tokens as [| token tokens]; [discriminate |].
  destruct (_parse_iff (token :: tokens)) as [[e' rest] | x] eqn:E; [| discriminate].
  cbn [bind]. destruct rest; [| discriminate]. intros [= <-].
  apply (_parse_iff_shape _ _ _ E).
Qed.

(** *** What the parser raises *)

Lemma _tokenize_step_raises (i : nat) (text : str) (c : char) (x : exn) :
  _tokenize_step i text c = Raise x -> is_value_error x.
Proof.
  unfold _tokenize_step. destruct (isspace c); [discriminate |].
  destruct (match_atom text); [discriminate |].
  destruct ((2 <=? length text) && str_in (firstn 2 text) two_char_operators).
  - repeat match goal with
           | |- (if ?b then _ else _) = _ -> _ => destruct b
           end; discriminate.
  - destruct (char_in c one_char_operators).
    + repeat match goal with
             | |- (if ?b then _ else _) = _ -> _ => destruct b
             end; discriminate.
    + intros [= <-]. eexists. reflexivity.
Qed.

Lemma _tokenize_loop_raises (fuel : nat) :
  forall i text tokens x,
    _tokenize_loop fuel i text tokens = Raise x -> is_value_error x.
Proof.
  induction fuel as [| fuel IH]; intros i text tokens x H;
    destruct text as [| c text]; try discriminate.
  cbn [_tokenize_loop] in H.
  destruct (_tokenize_step i (c :: text) c) as [[tok n] |] eqn:E.
  - cbn [bind] in H. apply (IH _ _ _ _ H).
  - injection H as <-. apply (_tokenize_step_raises _ _ _ _ E).
Qed.

Lemma _parse_atom_raises (tokens : list str) (x : exn) :
  _parse_atom tokens = Raise x -> is_value_error x.
Proof.
  unfold _parse_atom. destruct tokens as [| token tokens];
    [intros [= <-]; eexists; reflexivity |].
  destruct (match_atom token) as [[[[g1 g2] g3] unmatched] |];
    [| intros [= <-]; eexists; reflexivity].
  destruct (char_in lparen (strip g1) || char_in rparen (strip g1));
    [intros [= <-]; eexists; reflexivity |].
  destruct (strip g3); [discriminate |].
  destruct (find _ _); [intros [= <-]; eexists; reflexivity | discriminate].
Qed.

Lemma _parse_not_raises (tokens : list str) :
  forall x, _parse_not tokens = Raise x -> is_value_error x.
Proof.
  induction tokens as [| token tokens IH]; intros x H.
  - apply (_parse_atom_raises _ _ H).
  - cbn [_parse_not] in H. destruct (str_eqb token [glyph_not]).
    + destruct (_parse_not tokens) as [[operand rest] |] eqn:E; [discriminate |].
      injection H as <-. apply IH. reflexivity.
    + apply (_parse_atom_raises _ _ H).
Qed.

Lemma operator_loop_raises {A} (symbol : char)
    (next : list str -> result (Expression * list str))
    (combine : A -> Expression -> A) (fuel : nat) :
  (forall tokens x, next tokens = Raise x -> is_value_error x) ->
  forall acc tokens x,
    operator_loop fuel symbol next combine acc tokens = Raise x -> is_value_error x.
Proof.
  intros Hnext. induction fuel as [| fuel IH]; intros acc tokens x H;
    destruct tokens as [| token tokens]; try discriminate; cbn [operator_loop] in H;
    destruct (str_eqb token [symbol]); try discriminate.
  destruct (next tokens) as [[operand rest] |] eqn:E.
  - cbn [bind] in H. apply (IH _ _ _ H).
  - injection H as <-. apply (Hnext _ _ E).
Qed.

Lemma _parse_and_raises (tokens : list str) (x : exn) :
  _parse_and tokens = Raise x -> is_value_error x.
Proof.
  unfold _parse_and. intros H.
  destruct (_parse_not tokens) as [[first rest] |] eqn:E1;
    [| injection H as <-; apply (_parse_not_raises _ _ E1)].
  cbn [bind] in H.
  destruct (operator_loop _ _ _ _ _ rest) as [[ops rest'] |] eqn:E2.
  - cbn [bind] in H. destruct ops as [| single [| second more]]; discriminate.
  - injection H as <-.
    apply (operator_loop_raises _ _ _ _ _parse_not_raises _ _ _ E2).
Qed.

Lemma _parse_or_raises (tokens : list str) (x : exn) :
  _parse_or tokens = Raise x -> is_value_error x.
Proof.
  unfold _parse_or. intros H.
  destruct (_parse_and tokens) as [[first rest] |] eqn:E1;
    [| injection H as <-; apply (_parse_and_raises _ _ E1)].
  cbn [bind] in H.
  destruct (operator_loop _ _ _ _ _ rest) as [[ops rest'] |] eqn:E2.
  - cbn [bind] in H. destruct ops as [| single [| second more]]; discriminate.
  - injection H as <-.
    apply (operator_loop_raises _ _ _ _ _parse_and_raises _ _ _ E2).
Qed.

Lemma _parse_implies_raises (tokens : list str) (x : exn) :
  _parse_implies tokens = Raise x -> is_value_error x.
Proof.
  unfold _parse_implies. intros H.
  destruct (_parse_or tokens) as [[first rest] |] eqn:E1;
    [| injection H as <-; apply (_parse_or_raises _ _ E1)].
  cbn [bind] in H. apply (operator_loop_raises _ _ _ _ _parse_or_raises _ _ _ H).
Qed.

Lemma _parse_iff_raises (tokens : list str) (x : exn) :
  _parse_iff tokens = Raise x -> is_value_error x.
Proof.
  unfold _parse_iff. intros H.
  destruct (_parse_implies tokens) as [[first rest] |] eqn:E1;
    [| injection H as <-; apply (_parse_implies_raises _ _ E1)].
  cbn [bind] in H. apply (operator_loop_raises _ _ _ _ _parse_implies_raises _ _ _ H).
Qed.

Lemma parse_raises (text : str) (x : exn) : parse text = Raise x -> is_value_error x.
Proof.
  unfold parse, _tokenize. intros H.
  destruct (_tokenize_loop _ 0 (strip text) []) as [tokens |] eqn:E1;
    [| injection H as <-; apply (_tokenize_loop_raises _ _ _ _ _ E1)].
  cbn [bind] in H. destruct tokens as [| token tokens];
    [injection H as <-; eexists; reflexivity |].
  destruct (_parse_iff (token :: tokens)) as [[e rest] |] eqn:E2;
    [| injection H as <-; apply (_parse_iff_raises _ _ E2)].
  cbn [bind] in H. destruct rest; [discriminate |].
  injection H as <-. eexists. reflexivity.
Qed.

(** X30.  The parser reads no token and no group of a match that is not
    there: whatever the text, neither [IndexError] nor [AttributeError]
    leaves [parse]. *)
Theorem parse_raises_no_index_or_attribute_error (text : str) :
  parse text <> Raise IndexError /\ parse text <> Raise AttributeError.
Proof.
  split; intros H; destruct (parse_raises _ _ H) as [error Herror]; discriminate.
Qed.

(* ------------------------------------------------------------------ *)
(** ** Matching and substitution *)

Lemma str_eqb_refl (s : str) : str_eqb s s = true.
Proof. apply str_eqb_eq. reflexivity. Qed.

Lemma lookup_cons (k k' v' : str) (bindings : Bindings) :
  lookup k ((k', v') :: bindings)
  = if str_eqb k k' then Some v' else lookup k bindings.
Proof. reflexivity. Qed.

(** *** An atom matches itself *)

Lemma _match_term_same (t : str) (bindings : Bindings) :
  binds_identically bindings ->
  exists bindings',
    _match_term t t bindings = (true, bindings') /\ binds_identically bindings'.
Proof.
  intros Hb. unfold _match_term. destruct (_is_variable t); cbn [negb andb].
  - destruct (lookup t bindings) as [v |] eqn:Hl.
    + exists bindings. rewrite (Hb _ _ Hl), str_eqb_refl. auto.
    + exists ((t, t) :: bindings). split; [reflexivity |].
      intros k v. rewrite lookup_cons. destruct (str_eqb k t) eqn:Hk.
      * apply str_eqb_eq in Hk. congruence.
      * apply Hb.
  - exists bindings. rewrite str_eqb_refl. auto.
Qed.

Lemma match_objects_same (objs : list str) :
  forall bindings,
    binds_identically bindings ->
    exists bindings',
      match_objects (combine objs objs) bindings = Some bindings' /\
      binds_identically bindings'.
Proof.
  induction objs as [| o objs IH]; intros bindings Hb.
  - exists bindings. auto.
  - cbn [combine match_objects].
    destruct (_match_term_same o bindings Hb) as [b1 [-> Hb1]]. apply IH. exact Hb1.
Qed.

Lemma matches_same (a : Atom) :
  exists bindings,
    matches a a [] = (true, bindings) /\ binds_identically bindings.
Proof.
  unfold matches. rewrite str_eqb_refl. cbn [negb].
  destruct (_match_term_same (subject a) []) as [b1 [-> Hb1]]; [intros k v [=] |].
  cbn [negb]. rewrite Nat.eqb_refl. cbn [negb].
  destruct (match_objects_same (objects a) b1 Hb1) as [b2 [-> Hb2]].
  exists b2. auto.
Qed.

Lemma get_identically (bindings : Bindings) (t : str) :
  binds_identically bindings -> get bindings t t = t.
Proof.
  intros Hb. unfold get. destruct (lookup t bindings) as [v |] eqn:Hl;
    [apply (Hb _ _ Hl) | reflexivity].
Qed.

Lemma substitute_identically (a : Atom) (bindings : Bindings) :
  binds_identically bindings -> substitute a bindings = a.
Proof.
  intros Hb. unfold substitute. destruct a as [subj rel objs]. cbn [subject relation objects].
  rewrite (get_identically _ _ Hb). f_equal.
  rewrite <- (map_id objs) at 2. apply map_ext. intros o.
  apply get_identically. exact Hb.
Qed.

Lemma _substitute_identically (e : Expression) (bindings : Bindings) :
  binds_identically bindings -> _substitute e bindings = e.
Proof.
  intros Hb. induction e as [a | op ops IH] using Expression_induction.
  - cbn [_substitute]. rewrite (substitute_identically a bindings Hb). reflexivity.
  - cbn [_substitute]. f_equal. rewrite <- (map_id ops) at 2.
    apply map_ext_in. intros x Hx. rewrite Forall_forall in IH. apply IH. exact Hx.
Qed.

Lemma _match_same (e : Expression) : _match e e = true.
Proof.
  destruct e as [a | op ops]; cbn [_match].
  - destruct (matches_same a) as [b [-> _]]. reflexivity.
  - apply expr_eqb_refl.
Qed.

(** *** Matching a ground atom *)

Lemma extends_bindings_refl (b : Bindings) : extends_bindings b b.
Proof. intros k v H. exact H. Qed.

Lemma extends_bindings_trans (b1 b2 b3 : Bindings) :
  extends_bindings b1 b2 -> extends_bindings b2 b3 -> extends_bindings b1 b3.
Proof. intros H1 H2 k v H. apply H2, H1, H. Qed.

Lemma _match_term_ground (t1 t2 : str) (bindings bindings' : Bindings) :
  _is_variable t2 = false ->
  binds_variables bindings ->
  _match_term t1 t2 bindings = (true, bindings') ->
  binds_variables bindings' /\ extends_bindings bindings bindings' /\
  get bindings' t1 t1 = t2.
Proof.
  intros Hg Hb. unfold _match_term. rewrite Hg.
  destruct (_is_variable t1) eqn:Hv; cbn [negb andb].
  - destruct (lookup t1 bindings) as [v |] eqn:Hl.
    + intros [= Heq <-]. apply str_eqb_eq in Heq. subst v.
      split; [exact Hb |]. split; [apply extends_bindings_refl |].
      unfold get. rewrite Hl. reflexivity.
    + intros [= <-]. split; [| split].
      * intros k v. rewrite lookup_cons. destruct (str_eqb k t1) eqn:Hk.
        -- apply str_eqb_eq in Hk. subst k. intros _. exact Hv.
        -- apply Hb.
      * intros k v Hk. rewrite lookup_cons. destruct (str_eqb k t1) eqn:Hk1.
        -- apply str_eqb_eq in Hk1. congruence.
        -- exact Hk.
      * unfold get. rewrite lookup_cons, str_eqb_refl. reflexivity.
  - intros [= Heq <-]. apply str_eqb_eq in Heq. subst t2.
    split; [exact Hb |]. split; [apply extends_bindings_refl |].
    unfold get. destruct (lookup t1 bindings) as [v |] eqn:Hl; [| reflexivity].
    apply Hb in Hl. congruence.
Qed.

(** What was matched stays matched when more variables are bound. *)
Lemma get_extends (t1 t2 : str) (b b' : Bindings) :
  _is_variable t2 = false ->
  binds_variables b' -> extends_bindings b b' ->
  get b t1 t1 = t2 -> get b' t1 t1 = t2.
Proof.
  intros Hg Hb' Hext. unfold get.
  destruct (lookup t1 b) as [v |] eqn:Hl.
  - rewrite (Hext _ _ Hl). exact (fun H => H).
  - intros <-. destruct (lookup t1 b') as [v |] eqn:Hl'; [| reflexivity].
    apply Hb' in Hl'. congruence.
Qed.

Lemma match_objects_ground (objs1 : list str) :
  forall objs2 bindings bindings',
    length objs1 = length objs2 ->
    forallb (fun obj => negb (_is_variable obj)) objs2 = true ->
    binds_variables bindings ->
    match_objects (combine objs1 objs2) bindings = Some bindings' ->
    binds_variables bindings' /\ extends_bindings bindings bindings' /\
    map (fun obj => get bindings' obj obj) objs1 = objs2.
Proof.
  induction objs1 as [| o1 objs1 IH]; intros [| o2 objs2] b b' Hlen Hg Hb H;
    try discriminate.
  - injection H as <-. split; [exact Hb |]. split; [apply extends_bindings_refl |].
    reflexivity.
  - cbn [combine match_objects] in H. cbn [forallb] in Hg.
    apply andb_true_iff in Hg. destruct Hg as [Hg2 Hg]. apply negb_true_iff in Hg2.
    destruct (_match_term o1 o2 b) as [[] b1] eqn:Ht; [| discriminate].
    destruct (_match_term_ground _ _ _ _ Hg2 Hb Ht) as [Hb1 [Hext1 Hget1]].
    injection Hlen as Hlen.
    destruct (IH _ _ _ Hlen Hg Hb1 H) as [Hb' [Hext' Hmap]].
    split; [exact Hb' |]. split; [exact (extends_bindings_trans _ _ _ Hext1 Hext') |].
    cbn [map]. rewrite Hmap, (get_extends _ _ _ _ Hg2 Hb' Hext' Hget1). reflexivity.
Qed.

(** X6.  An atom matches itself, with or without variables; the bindings of
    the match send every variable to itself, so substituting them changes
    no expression. *)
Theorem matches_reflexive (a : Atom) :
  exists bindings,
    matches a a [] = (true, bindings) /\
    substitute a bindings = a /\
    (forall e, _substitute e bindings = e) /\
    _match (EAtom a) (EAtom a) = true.
Proof.
  destruct (matches_same a) as [b [Hm Hb]]. exists b.
  split; [exact Hm |]. split; [apply substitute_identically; exact Hb |].
  split; [intros e; apply _substitute_identically; exact Hb | apply _match_same].
Qed.

(** X7.  Matching is sound on atoms without variables: when a pattern matches
    such an atom, substituting the bindings of the match in the pattern
    gives that atom. *)
Theorem matches_ground_sound (pattern fact : Atom) (bindings : Bindings) :
  ground fact = true ->
  matches pattern fact [] = (true, bindings) ->
  substitute pattern bindings = fact.
Proof.
  unfold ground, matches. intros Hg. apply andb_true_iff in Hg.
  destruct Hg as [Hs Ho]. apply negb_true_iff in Hs.
  destruct (str_eqb (relation pattern) (relation fact)) eqn:Hrel; [| discriminate].
  apply str_eqb_eq in Hrel. cbn [negb].
  destruct (_match_term (subject pattern) (subject fact) []) as [[] b1] eqn:Ht;
    [| discriminate].
  cbn [negb].
  destruct (length (objects pattern) =? length (objects fact)) eqn:Hlen;
    [| discriminate].
  apply Nat.eqb_eq in Hlen. cbn [negb].
  destruct (match_objects (combine (objects pattern) (objects fact)) b1)
    as [b2 |] eqn:Hm; [| discriminate].
  intros [= <-].
  assert (Hnil : binds_variables []) by (intros k v [=]).
  destruct (_match_term_ground _ _ _ _ Hs Hnil Ht) as [Hb1 [_ Hget]].
  destruct (match_objects_ground _ _ _ _ Hlen Ho Hb1 Hm) as [Hb2 [Hext Hmap]].
  unfold substitute. rewrite Hmap, (get_extends _ _ _ _ Hs Hb2 Hext Hget), Hrel.
  destruct fact. reflexivity.
Qed.

(* ------------------------------------------------------------------ *)
(** ** What a saturated knowledge base holds *)

Lemma infer_all_as_log (iteration : list Expression -> list Expression)
    (self self' : LogicEngine) (r : InferenceResult.t) :
  infer_all iteration self = Ok (self', r) ->
  exists log, infer_all_log iteration self = Ok (self', r, log).
Proof.
  unfold infer_all. destruct (infer_all_log iteration self) as [[[s x] log] | x];
    [| discriminate].
  cbn [bind]. intros [= <- <-]. exists log. reflexivity.
Qed.

(** A run that ends below the cap ends on a pass that derived nothing. *)
Lemma loop_run_below_cap n self log n' self' :
  loop_run n self log n' self' ->
  (n' < max_iterations self)%Z ->
  apply_all_rules (rule_manager self') (knowledge_base self') = Ok [].
Proof.
  induction 1 as [n self Hcap | n self Hn Hd | n self d log n' self' Hn Hd Hne Hrun IH];
    intros Hlt.
  - lia.
  - exact Hd.
  - apply IH. exact Hlt.
Qed.

Section Saturation.

Variable iteration : list Expression -> list Expression.
Hypothesis iteration_perm : forall s, Permutation s (iteration s).

(** When [infer_all] stops below the cap, what it leaves holds every
    candidate of every rule of the rule manager. *)
Lemma saturated_candidates (self self' : LogicEngine) (r : InferenceResult.t)
    (rule : DeductionRule) (C : list Expression -> Expression -> Prop) :
  engine_ok self ->
  infer_all iteration self = Ok (self', r) ->
  (InferenceResult.iterations r < max_iterations self)%Z ->
  In rule (rules (rule_manager self)) ->
  derives_exactly rule C ->
  forall e, C (knowledge_base self') e -> In e (knowledge_base self').
Proof.
  intros Hok Hrun Hlt Hrule HC e He.
  destruct (infer_all_as_log _ _ _ _ Hrun) as [log Hlog].
  destruct (infer_all_log_run iteration _ _ _ _ Hlog) as [mid [Hloop [_ [Hself' _]]]].
  pose proof (loop_run_below_cap _ _ _ _ _ Hloop Hlt) as Hnone.
  pose proof (loop_run_ok _ _ _ _ _ Hloop Hok) as [Hwf [_ [Hlawful _]]].
  destruct (loop_run_frame _ _ _ _ _ Hloop) as [_ [Hrm _]].
  assert (Hkb : knowledge_base self' = knowledge_base mid) by (subst self'; reflexivity).
  rewrite Hkb in *.
  destruct (apply_rules_spec _ _ Hwf Hlawful [] []) as [d [Hd [_ Hall]]].
  unfold apply_all_rules in Hnone. rewrite Hnone in Hd. injection Hd as <-.
  destruct (mem e (knowledge_base mid)) eqn:Hmem; [apply mem_In; exact Hmem |].
  apply mem_not_In in Hmem. exfalso.
  rewrite Hrm in Hall.
  destruct (Hall rule e Hrule) as [[] | []].
  apply (derives_exactly_derivable rule C _ HC Hwf). split; assumption.
Qed.

Lemma default_rules_In (enable_conjunction : bool) (rule : DeductionRule) :
  In rule [ModusPonens iteration; ModusTollens iteration;
           HypotheticalSyllogism iteration; DisjunctiveSyllogism iteration;
           Simplification iteration; Resolution iteration;
           BiconditionalElimination iteration] ->
  In rule (rules (RuleManager_init iteration enable_conjunction)).
Proof.
  intros H. unfold RuleManager_init. cbn [rules]. apply sort_by_priority_In.
  destruct enable_conjunction; [apply in_app_iff; left |]; exact H.
Qed.

Lemma scanned (kb : list Expression) (p : Expression -> bool) (x : Expression) :
  In x kb -> p x = true -> In x (filter p (iteration kb)).
Proof.
  intros Hx Hp. apply filter_In. split; [| exact Hp].
  apply (iteration_In iteration iteration_perm). exact Hx.
Qed.

Lemma mp_candidate_same (a c : Expression) : mp_candidate a c a = Some c.
Proof.
  unfold mp_candidate. rewrite _match_same.
  destruct a as [a | op ops]; [| rewrite expr_eqb_refl; reflexivity].
  destruct (matches_same a) as [b [-> Hb]]. cbn [fst snd].
  rewrite (_substitute_identically c b Hb). reflexivity.
Qed.

Lemma enumerate_nth_error {A} (l : list A) (i : nat) (x : A) :
  nth_error l i = Some x -> In (i, x) (enumerate l).
Proof.
  unfold enumerate. change i with (0 + i) at 2. generalize 0.
  revert i. induction l as [| y l IH]; intros [| i] s H; try discriminate.
  - injection H as ->. left. rewrite Nat.add_0_r. reflexivity.
  - right. cbn [length seq combine]. rewrite <- Nat.add_succ_comm. apply IH. exact H.
Qed.

Lemma negation_neq (e : Expression) : negation e <> e.
Proof.
  induction e as [a | op ops IH] using Expression_induction; [discriminate |].
  unfold negation. intros [= <- Hops]. rewrite <- Hops in IH.
  inversion IH as [| ? ? Hx _]; subst. apply Hx. unfold negation.
  rewrite <- Hops at 2. reflexivity.
Qed.

Lemma expr_eqb_neq (e1 e2 : Expression) : e1 <> e2 -> expr_eqb e1 e2 = false.
Proof.
  intros H. destruct (expr_eqb e1 e2) eqn:E; [| reflexivity].
  apply expr_eqb_eq in E. contradiction.
Qed.

(** X8.  When [infer_all] stops below the cap, the knowledge base is closed
    under Modus Ponens: with an implication and its antecedent (which must
    not itself be an implication) it holds the consequent, and with an
    implication whose antecedent is an atom that matches an atom of the
    knowledge base it holds the consequent with the bindings of the match
    substituted. *)
Theorem saturated_modus_ponens (self self' : LogicEngine) (r : InferenceResult.t)
    (enable_conjunction : bool) :
  engine_ok self ->
  rule_manager self = RuleManager_init iteration enable_conjunction ->
  infer_all iteration self = Ok (self', r) ->
  (InferenceResult.iterations r < max_iterations self)%Z ->
  (forall a c,
     In (implies a c) (knowledge_base self') -> In a (knowledge_base self') ->
     has_operator IMPLIES a = false ->
     In c (knowledge_base self')) /\
  (forall pattern fact c bindings,
     In (implies (EAtom pattern) c) (knowledge_base self') ->
     In (EAtom fact) (knowledge_base self') ->
     matches pattern fact [] = (true, bindings) ->
     In (_substitute c bindings) (knowledge_base self')).
Proof.
  intros Hok Hrm Hrun Hlt.
  assert (Hrule : In (ModusPonens iteration) (rules (rule_manager self))).
  { rewrite Hrm. apply default_rules_In. simpl. tauto. }
  pose proof (saturated_candidates _ _ _ _ _ Hok Hrun Hlt Hrule
                (ModusPonens_derives iteration iteration_perm)) as Hclosed.
  split.
  - intros a c Himpl Ha Hnot. apply Hclosed.
    exists (implies a c). split; [apply scanned; [exact Himpl | reflexivity] |].
    exists a. split; [apply scanned; [exact Ha | rewrite Hnot; reflexivity] |].
    apply mp_candidate_same.
  - intros p f c b Himpl Hf Hm. apply Hclosed.
    exists (implies (EAtom p) c). split; [apply scanned; [exact Himpl | reflexivity] |].
    exists (EAtom f). split; [apply scanned; [exact Hf | reflexivity] |].
    unfold mp_candidate, arg. cbn [implies operands nth _match].
    rewrite Hm. reflexivity.
Qed.

(** X9.  When [infer_all] stops below the cap, the knowledge base is closed
    under Modus Tollens: with an implication and the negation of something
    its consequent matches, it holds the negation of the antecedent. *)
Theorem saturated_modus_tollens (self self' : LogicEngine) (r : InferenceResult.t)
    (enable_conjunction : bool) :
  engine_ok self ->
  rule_manager self = RuleManager_init iteration enable_conjunction ->
  infer_all iteration self = Ok (self', r) ->
  (InferenceResult.iterations r < max_iterations self)%Z ->
  forall a c x,
    In (implies a c) (knowledge_base self') ->
    In (negation x) (knowledge_base self') ->
    _match c x = true ->
    In (negation a) (knowledge_base self').
Proof.
  intros Hok Hrm Hrun Hlt a c x Himpl Hneg Hm.
  assert (Hrule : In (ModusTollens iteration) (rules (rule_manager self))).
  { rewrite Hrm. apply default_rules_In. simpl. tauto. }
  apply (saturated_candidates _ _ _ _ _ Hok Hrun Hlt Hrule
           (ModusTollens_derives iteration iteration_perm)).
  exists (implies a c). split; [apply scanned; [exact Himpl | reflexivity] |].
  exists (negation x). split; [apply scanned; [exact Hneg | reflexivity] |].
  unfold arg. cbn [implies negation operands nth]. rewrite Hm. reflexivity.
Qed.

(** X10.  When [infer_all] stops below the cap, the knowledge base is closed
    under Hypothetical Syllogism: with two different implications, the
    consequent of the first being the antecedent of the second, it holds
    the implication from the first antecedent to the second consequent. *)
Theorem saturated_hypothetical_syllogism
    (self self' : LogicEngine) (r : InferenceResult.t) (enable_conjunction : bool) :
  engine_ok self ->
  rule_manager self = RuleManager_init iteration enable_conjunction ->
  infer_all iteration self = Ok (self', r) ->
  (InferenceResult.iterations r < max_iterations self)%Z ->
  forall a b c,
    In (implies a b) (knowledge_base self') ->
    In (implies b c) (knowledge_base self') ->
    implies a b <> implies b c ->
    In (implies a c) (knowledge_base self').
Proof.
  intros Hok Hrm Hrun Hlt a b c H1 H2 Hne.
  assert (Hrule : In (HypotheticalSyllogism iteration) (rules (rule_manager self))).
  { rewrite Hrm. apply default_rules_In. simpl. tauto. }
  apply (saturated_candidates _ _ _ _ _ Hok Hrun Hlt Hrule
           (HypotheticalSyllogism_derives iteration iteration_perm)).
  exists (implies a b). split; [apply scanned; [exact H1 | reflexivity] |].
  exists (implies b c). split; [apply scanned; [exact H2 | reflexivity] |].
  rewrite (expr_eqb_neq _ _ Hne). unfold arg. cbn [implies operands nth].
  rewrite expr_eqb_refl. reflexivity.
Qed.

(** X11.  When [infer_all] stops below the cap, the knowledge base is closed
    under Disjunctive Syllogism: with a disjunction and the negation of
    the operand at one position, it holds the operand at every other
    position. *)
Theorem saturated_disjunctive_syllogism
    (self self' : LogicEngine) (r : InferenceResult.t) (enable_conjunction : bool) :
  engine_ok self ->
  rule_manager self = RuleManager_init iteration enable_conjunction ->
  infer_all iteration self = Ok (self', r) ->
  (InferenceResult.iterations r < max_iterations self)%Z ->
  forall ops x i other j,
    In (disjunction ops) (knowledge_base self') ->
    In (negation x) (knowledge_base self') ->
    nth_error ops i = Some x -> nth_error ops j = Some other -> i <> j ->
    In other (knowledge_base self').
Proof.
  intros Hok Hrm Hrun Hlt ops x i other j Hd Hneg Hi Hj Hij.
  assert (Hrule : In (DisjunctiveSyllogism iteration) (rules (rule_manager self))).
  { rewrite Hrm. apply default_rules_In. simpl. tauto. }
  apply (saturated_candidates _ _ _ _ _ Hok Hrun Hlt Hrule
           (DisjunctiveSyllogism_derives iteration iteration_perm)).
  exists (disjunction ops). split; [apply scanned; [exact Hd | reflexivity] |].
  exists (negation x). split; [apply scanned; [exact Hneg | reflexivity] |].
  exists (i, x). split; [apply enumerate_nth_error; exact Hi |].
  exists (j, other). split; [apply enumerate_nth_error; exact Hj |].
  unfold arg. cbn [negation operands nth fst snd]. rewrite expr_eqb_refl.
  apply Nat.eqb_neq in Hij. rewrite Hij. reflexivity.
Qed.

(** X12.  When [infer_all] stops below the cap, the knowledge base is closed
    under Simplification: it holds every operand of every conjunction it
    holds. *)
Theorem saturated_simplification
    (self self' : LogicEngine) (r : InferenceResult.t) (enable_conjunction : bool) :
  engine_ok self ->
  rule_manager self = RuleManager_init iteration enable_conjunction ->
  infer_all iteration self = Ok (self', r) ->
  (InferenceResult.iterations r < max_iterations self)%Z ->
  forall ops x,
    In (LogicalExpression (Some AND) ops) (knowledge_base self') ->
    In x ops ->
    In x (knowledge_base self').
Proof.
  intros Hok Hrm Hrun Hlt ops x Hc Hx.
  assert (Hrule : In (Simplification iteration) (rules (rule_manager self))).
  { rewrite Hrm. apply default_rules_In. simpl. tauto. }
  apply (saturated_candidates _ _ _ _ _ Hok Hrun Hlt Hrule
           (Simplification_derives iteration iteration_perm)).
  exists (LogicalExpression (Some AND) ops).
  split; [apply scanned; [exact Hc | reflexivity] |].
  exists x. split; [exact Hx | reflexivity].
Qed.

(** X13.  When [infer_all] stops below the cap, the knowledge base is closed
    under Biconditional Elimination: with a biconditional it holds the
    implications in both directions. *)
Theorem saturated_biconditional_elimination
    (self self' : LogicEngine) (r : InferenceResult.t) (enable_conjunction : bool) :
  engine_ok self ->
  rule_manager self = RuleManager_init iteration enable_conjunction ->
  infer_all iteration self = Ok (self', r) ->
  (InferenceResult.iterations r < max_iterations self)%Z ->
  forall a b,
    In (LogicalExpression (Some IFF) [a; b]) (knowledge_base self') ->
    In (implies a b) (knowledge_base self') /\
    In (implies b a) (knowledge_base self').
Proof.
  intros Hok Hrm Hrun Hlt a b Hiff.
  assert (Hrule : In (BiconditionalElimination iteration) (rules (rule_manager self))).
  { rewrite Hrm. apply default_rules_In. simpl. tauto. }
  pose proof (saturated_candidates _ _ _ _ _ Hok Hrun Hlt Hrule
                (BiconditionalElimination_derives iteration iteration_perm)) as Hclosed.
  split; apply Hclosed; exists (LogicalExpression (Some IFF) [a; b]);
    (split; [apply scanned; [exact Hiff | reflexivity] |]);
    [left | right]; reflexivity.
Qed.

(** X14.  When [infer_all] stops below the cap, the knowledge base is closed
    under Resolution on two-operand disjunctions: with [p or q] and
    [not p or s], [q] being other than [p] and [s] other than [not p], it
    holds [s or q]. *)
Theorem saturated_resolution
    (self self' : LogicEngine) (r : InferenceResult.t) (enable_conjunction : bool) :
  engine_ok self ->
  rule_manager self = RuleManager_init iteration enable_conjunction ->
  infer_all iteration self = Ok (self', r) ->
  (InferenceResult.iterations r < max_iterations self)%Z ->
  forall p q s,
    In (disjunction [p; q]) (knowledge_base self') ->
    In (disjunction [negation p; s]) (knowledge_base self') ->
    q <> p -> s <> negation p ->
    In (disjunction [s; q]) (knowledge_base self').
Proof.
  intros Hok Hrm Hrun Hlt p q s H1 H2 Hq Hs.
  assert (Hrule : In (Resolution iteration) (rules (rule_manager self))).
  { rewrite Hrm. apply default_rules_In. simpl. tauto. }
  apply (saturated_candidates _ _ _ _ _ Hok Hrun Hlt Hrule
           (Resolution_derives iteration iteration_perm)).
  exists (disjunction [negation p; s]).
  split; [apply scanned; [exact H2 | reflexivity] |].
  exists (disjunction [p; q]).
  split; [apply scanned; [exact H1 | reflexivity] |].
  split.
  { apply expr_eqb_neq. intros [= Hp _]. exact (negation_neq p Hp). }
  exists (negation p). split; [left; reflexivity |].
  exists p. split; [left; reflexivity |].
  unfold resolvent, complementary, arg.
  cbn [negation disjunction has_operator op_eqb operands nth filter].
  rewrite !expr_eqb_refl, (expr_eqb_neq _ _ Hq), (expr_eqb_neq _ _ Hs).
  reflexivity.
Qed.

End Saturation.

(* ------------------------------------------------------------------ *)
(** ** The bookkeeping of the engine *)

Lemma emit_keeps kb new_fact justification : keeps_distinct (emit kb new_fact justification).
Proof.
  intros [derived new_facts] st' H [Hnd Hincl]. unfold emit in H.
  destruct (negb (mem new_fact kb) && negb (mem new_fact new_facts)) eqn:Hc.
  - destruct (format justification) as [j | x]; [| discriminate].
    cbn [bind] in H. injection H as <-.
    apply andb_true_iff in Hc. destruct Hc as [_ Hnew].
    apply negb_true_iff, mem_not_In in Hnew. unfold distinct_state.
    cbn [fst snd] in *. split.
    + rewrite map_app. cbn [map fst]. apply NoDup_app; [exact Hnd | | ].
      * constructor; [intros [] | constructor].
      * intros x Hx [<- | []]. apply Hnew, Hincl, Hx.
    + rewrite map_app. cbn [map fst]. intros x Hx. apply set_add_In.
      apply in_app_iff in Hx. destruct Hx as [Hx | [<- | []]]; [left; auto | right; auto].
  - injection H as <-. split; assumption.
Qed.

Lemma foldM_keeps {A} (body : A -> RuleState -> result RuleState) (l : list A) :
  (forall x, keeps_distinct (body x)) -> keeps_distinct (foldM body l).
Proof.
  intros Hbody. induction l as [| x l IH]; intros st st' H Hst.
  - injection H as <-. exact Hst.
  - cbn [foldM] in H. destruct (body x st) as [st1 |] eqn:E; [| discriminate].
    cbn [bind] in H. exact (IH _ _ H (Hbody x _ _ E Hst)).
Qed.

(** Follows a rule's loop nest down to its emissions. *)
Ltac keeps_distinct_tac :=
  repeat match goal with
  | |- keeps_distinct _ =>
      let st := fresh "st" in let st' := fresh "st'" in
      let H := fresh "H" in let HJ := fresh "HJ" in
      intros st st' H HJ; cbn beta in H
  | x : (nat * Expression)%type |- _ => destruct x
  | H : Ok ?st = Ok ?st', HJ : distinct_state ?st |- distinct_state ?st' =>
      injection H as <-; exact HJ
  | H : emit ?kb ?f ?j ?st = Ok ?st', HJ : distinct_state ?st
    |- distinct_state ?st' => exact (emit_keeps kb f j st st' H HJ)
  | H : foldM ?body ?l ?st = Ok ?st', HJ : distinct_state ?st
    |- distinct_state ?st' =>
      refine (foldM_keeps body l _ st st' H HJ); clear H HJ; intros ?
  | H : bind (emit ?kb ?f ?j ?st) _ = Ok _, HJ : distinct_state ?st |- _ =>
      let E := fresh "E" in
      destruct (emit kb f j st) as [? | ?] eqn:E; [| discriminate];
      cbn [bind] in H; cbv zeta in H;
      pose proof (emit_keeps kb f j st _ E HJ); clear E HJ
  | H : bind ?m _ = Ok _ |- _ =>
      destruct m as [? | ?]; [cbn [bind] in H; cbv zeta in H | discriminate]
  | H : (if ?b then _ else _) = Ok _ |- _ => destruct b
  | H : match ?x with _ => _ end = Ok _ |- _ => destruct x
  end.

Section Distinct.

Variable iteration : list Expression -> list Expression.

Lemma start_distinct (new_facts : list Expression) : distinct_state ([], new_facts).
Proof. split; [constructor | intros x []]. Qed.

Lemma keeps_distinct_rule (m : RuleState -> result RuleState)
    (new_facts : list Expression) (st' : RuleState) :
  keeps_distinct m -> m ([], new_facts) = Ok st' -> NoDup (map fst (fst st')).
Proof. intros Hm H. apply (Hm _ _ H (start_distinct new_facts)). Qed.

Lemma ModusPonens_distinct : distinct (ModusPonens iteration).
Proof.
  intros kb nf st'. apply keeps_distinct_rule. keeps_distinct_tac.
Qed.

Lemma ModusTollens_distinct : distinct (ModusTollens iteration).
Proof.
  intros kb nf st'. apply keeps_distinct_rule. keeps_distinct_tac.
Qed.

Lemma HypotheticalSyllogism_distinct : distinct (HypotheticalSyllogism iteration).
Proof.
  intros kb nf st'. apply keeps_distinct_rule. keeps_distinct_tac.
Qed.

Lemma DisjunctiveSyllogism_distinct : distinct (DisjunctiveSyllogism iteration).
Proof.
  intros kb nf st'. apply keeps_distinct_rule. keeps_distinct_tac.
Qed.

Lemma Simplification_distinct : distinct (Simplification iteration).
Proof.
  intros kb nf st'. apply keeps_distinct_rule. keeps_distinct_tac.
Qed.

Lemma Resolution_distinct : distinct (Resolution iteration).
Proof.
  intros kb nf st'. apply keeps_distinct_rule. keeps_distinct_tac.
Qed.

Lemma BiconditionalElimination_distinct : distinct (BiconditionalElimination iteration).
Proof.
  intros kb nf st'. apply keeps_distinct_rule. keeps_distinct_tac.
Qed.

Lemma conjunction_pairs_keeps (kb facts : list Expression) :
  keeps_distinct (conjunction_pairs kb facts).
Proof.
  induction facts as [| fact1 later IH]; intros st st' H HJ.
  - injection H as <-. exact HJ.
  - cbn [conjunction_pairs] in H.
    destruct (foldM _ later st) as [st1 |] eqn:E; [| discriminate].
    cbn [bind] in H. apply (IH _ _ H). revert E HJ. generalize st st1.
    change (keeps_distinct
              (foldM (fun fact2 st =>
                 emit kb (LogicalExpression (Some AND) [fact1; fact2])
                   [T (lit "Conjunction: "); E fact1;
                    T (lit " " ++ [glyph_and] ++ lit " "); E fact2;
                    T (lit " " ++ [glyph_turnstile] ++ lit " ");
                    E (LogicalExpression (Some AND) [fact1; fact2])] st) later)).
    apply foldM_keeps. intros fact2. apply emit_keeps.
Qed.

Lemma Conjunction_distinct : distinct (Conjunction iteration).
Proof.
  intros kb nf st'. cbn [apply Conjunction]. unfold Conjunction_apply.
  destruct (20 <? _).
  - intros [= <-]. constructor.
  - apply keeps_distinct_rule. apply conjunction_pairs_keeps.
Qed.

Lemma RuleManager_init_distinct (enable_conjunction : bool) :
  Forall distinct (rules (RuleManager_init iteration enable_conjunction)).
Proof.
  apply Forall_forall. intros rule H. unfold RuleManager_init in H. cbn [rules] in H.
  apply (proj1 (sort_by_priority_In _ _)) in H.
  assert (Hin : In rule [ModusPonens iteration; ModusTollens iteration;
                         HypotheticalSyllogism iteration; DisjunctiveSyllogism iteration;
                         Simplification iteration; Resolution iteration;
                         BiconditionalElimination iteration; Conjunction iteration]).
  { destruct enable_conjunction; [exact H |].
    change (In rule ([ModusPonens iteration; ModusTollens iteration;
                      HypotheticalSyllogism iteration; DisjunctiveSyllogism iteration;
                      Simplification iteration; Resolution iteration;
                      BiconditionalElimination iteration] ++ [Conjunction iteration])).
    apply in_or_app. left. exact H. }
  cbn [In] in Hin.
  repeat (destruct Hin as [<- | Hin];
          [first [ apply ModusPonens_distinct | apply ModusTollens_distinct
                 | apply HypotheticalSyllogism_distinct
                 | apply DisjunctiveSyllogism_distinct | apply Simplification_distinct
                 | apply Resolution_distinct | apply BiconditionalElimination_distinct
                 | apply Conjunction_distinct ] |]).
  destruct Hin.
Qed.

End Distinct.

(** *** One pass derives no fact twice *)

Lemma apply_rules_distinct (rs : list DeductionRule) (kb : list Expression) :
  forallb well_formed kb = true ->
  Forall lawful rs -> Forall distinct rs ->
  forall all_derived new_facts res,
    apply_rules rs kb all_derived new_facts = Ok res ->
    NoDup (map fst all_derived) -> incl (map fst all_derived) new_facts ->
    NoDup (map fst res).
Proof.
  intros Hwf Hlawful Hdistinct. induction rs as [| rule rs IH];
    intros all nf res H Hnd Hincl.
  - injection H as <-. exact Hnd.
  - inversion Hlawful as [| ? ? Hrule Hrest]; subst.
    inversion Hdistinct as [| ? ? Hd Hdrest]; subst.
    destruct (Hrule kb Hwf) as [C HC].
    destruct (HC nf) as [st' [Happly [[added [Hfst [Hsnd Hadded]]] _]]].
    cbn [apply_rules] in H. rewrite Happly in H. cbn [bind] in H.
    destruct st' as [derived nf']. cbn [fst snd app] in *. subst derived.
    apply (IH Hrest Hdrest _ _ _ H).
    + rewrite map_app. apply NoDup_app; [exact Hnd | |].
      * apply (Hd _ _ _ Happly).
      * intros x Hx Hx'. apply (Hadded x Hx'). apply Hincl. exact Hx.
    + rewrite map_app. intros x Hx. apply Hsnd. apply in_app_iff in Hx.
      destruct Hx as [Hx | Hx]; [left; apply Hincl; exact Hx | right; exact Hx].
Qed.

Lemma add_all_app (d : Derived) :
  forall kb,
    NoDup (map fst d) -> (forall e, In e (map fst d) -> ~ In e kb) ->
    add_all kb d = kb ++ map fst d.
Proof.
  unfold add_all. induction d as [| [e j] d IH]; intros kb Hnd Hnew.
  - cbn. rewrite app_nil_r. reflexivity.
  - cbn [map fst fold_left] in *. inversion Hnd as [| ? ? Hne Hnd']; subst.
    assert (Hadd : set_add kb e = kb ++ [e]).
    { unfold set_add. destruct (mem e kb) eqn:Hm; [| reflexivity].
      apply mem_In in Hm. exfalso. apply (Hnew e); [left; reflexivity | exact Hm]. }
    rewrite Hadd, IH; [rewrite <- app_assoc; reflexivity | exact Hnd' |].
    intros x Hx Hin. apply in_app_iff in Hin. destruct Hin as [Hin | [<- | []]].
    + apply (Hnew x); [right; exact Hx | exact Hin].
    + exact (Hne Hx).
Qed.

Lemma chains_of_conclusions (n : Z) (d : Derived) :
  map conclusion (chains_of n d) = map fst d.
Proof. unfold chains_of. rewrite map_map. reflexivity. Qed.

(** What a run adds to the knowledge base is the conclusions of the chains
    it appends, each of them once. *)
Lemma loop_run_count n self log n' self' :
  loop_run n self log n' self' ->
  engine_ok self -> Forall distinct (rules (rule_manager self)) ->
  knowledge_base self'
  = knowledge_base self ++ map conclusion (chains_of_log n log) /\
  NoDup (map conclusion (chains_of_log n log)) /\
  (forall e, In e (map conclusion (chains_of_log n log)) ->
             ~ In e (knowledge_base self)).
Proof.
  induction 1 as [n self Hcap | n self Hn Hd | n self d log n' self' Hn Hd Hne Hrun IH];
    intros Hok Hdist.
  - cbn. rewrite app_nil_r. split; [reflexivity |]. split; [constructor | intros e []].
  - cbn. rewrite app_nil_r. split; [reflexivity |]. split; [constructor | intros e []].
  - destruct (pass_ok self Hok) as [d' [Hd' [Hnew Hok']]].
    rewrite Hd in Hd'. injection Hd' as <-.
    destruct Hok as [Hwf [Hnd [Hlawful Hchains]]].
    assert (Hdd : NoDup (map fst d)).
    { apply (apply_rules_distinct _ _ Hwf Hlawful Hdist [] [] d Hd);
        [constructor | intros x []]. }
    assert (Happ : add_all (knowledge_base self) d = knowledge_base self ++ map fst d).
    { apply add_all_app; [exact Hdd | intros e He; apply (Hnew e He)]. }
    destruct (IH (Hok' _) Hdist) as [Hkb [Hnd' Hfresh]].
    cbn [record_pass knowledge_base] in Hkb, Hfresh. rewrite Happ in Hkb, Hfresh.
    cbn [chains_of_log derived_in]. rewrite map_app, chains_of_conclusions.
    split; [rewrite Hkb, <- app_assoc; reflexivity |]. split.
    + apply NoDup_app; [exact Hdd | exact Hnd' |].
      intros x Hx Hx'. apply (Hfresh x Hx'). apply in_app_iff. right. exact Hx.
    + intros e He Hin. apply in_app_iff in He. destruct He as [He | He].
      * apply (Hnew e He). exact Hin.
      * apply (Hfresh e He). apply in_app_iff. left. exact Hin.
Qed.

Lemma chains_of_log_depth (log : list Pass) :
  forall n c,
    In c (chains_of_log n log) ->
    (n < depth c <= n + Z.of_nat (length log))%Z /\
    premises c = [] /\
    exists p, nth_error log (Z.to_nat (depth c - n - 1)) = Some p /\
              In (conclusion c, justification c) (derived_in p).
Proof.
  induction log as [| p log IH]; intros n c Hc; [destruct Hc |].
  cbn [chains_of_log] in Hc. apply in_app_iff in Hc. destruct Hc as [Hc | Hc].
  - unfold chains_of in Hc. apply in_map_iff in Hc. destruct Hc as [[e j] [<- Hin]].
    cbn [depth premises conclusion justification fst snd length].
    split; [lia |]. split; [reflexivity |].
    exists p. replace (n + 1 - n - 1)%Z with 0%Z by lia. split; [reflexivity | exact Hin].
  - destruct (IH _ _ Hc) as [Hd [Hp [q [Hq Hin]]]]. cbn [length].
    split; [lia |]. split; [exact Hp |]. exists q. split; [| exact Hin].
    replace (Z.to_nat (depth c - n - 1)) with (S (Z.to_nat (depth c - (n + 1) - 1)))
      by lia.
    exact Hq.
Qed.

(** *** Grouping by depth *)

Lemma depth_get_append (chain : DerivationChain) (d : Z)
    (by_depth : list (Z * list DerivationChain)) :
  depth_get d (by_depth_append chain by_depth)
  = if (depth chain =? d)%Z
    then Some (match depth_get d by_depth with
               | Some chains => chains ++ [chain]
               | None => [chain]
               end)
    else depth_get d by_depth.
Proof.
  induction by_depth as [| [d' chains] rest IH].
  - cbn. destruct (depth chain =? d)%Z; reflexivity.
  - cbn [by_depth_append depth_get].
    destruct (d' =? depth chain)%Z eqn:E1; cbn [depth_get].
    + apply Z.eqb_eq in E1. subst d'. destruct (depth chain =? d)%Z; reflexivity.
    + destruct (d' =? d)%Z eqn:E2; [| exact IH].
      apply Z.eqb_eq in E2. subst d'. rewrite Z.eqb_sym, E1. reflexivity.
Qed.

Lemma find_unique {A} (f : A -> Expression) (l : list A) (c : A) :
  NoDup (map f l) -> In c l ->
  find (fun x => expr_eqb (f x) (f c)) l = Some c.
Proof.
  induction l as [| x l IH]; intros Hnd Hin; [destruct Hin |].
  cbn [map] in Hnd. inversion Hnd as [| ? ? Hx Hnd']; subst. cbn [find].
  destruct Hin as [-> | Hin].
  - rewrite expr_eqb_refl. reflexivity.
  - destruct (expr_eqb (f x) (f c)) eqn:E; [| apply IH; assumption].
    apply expr_eqb_eq in E. exfalso. apply Hx. rewrite E. apply in_map. exact Hin.
Qed.

Lemma get_all_facts_In (r : InferenceResult.t) (e : Expression) :
  In e (get_all_facts r) <->
  In e (InferenceResult.original_facts r) \/
  In e (map conclusion (InferenceResult.derived_facts r)).
Proof.
  unfold get_all_facts. generalize (InferenceResult.original_facts r).
  induction (InferenceResult.derived_facts r) as [| c chains IH]; intros facts.
  - cbn. tauto.
  - cbn [fold_left map]. rewrite IH, set_add_In. cbn [In]. intuition.
Qed.

(** *** What the methods keep *)

Section Kept.

Variable iteration : list Expression -> list Expression.
Hypothesis iteration_perm : forall s, Permutation s (iteration s).

(** What one call of [infer_all] appends and adds. *)
Lemma infer_all_new (self self' : LogicEngine) (r : InferenceResult.t)
    (log : list Pass) :
  engine_ok self -> Forall distinct (rules (rule_manager self)) ->
  infer_all_log iteration self = Ok (self', r, log) ->
  InferenceResult.derived_facts r = derivation_chains self ++ chains_of_log 0 log /\
  derivation_chains self' = derivation_chains self ++ chains_of_log 0 log /\
  knowledge_base self'
  = knowledge_base self ++ map conclusion (chains_of_log 0 log) /\
  NoDup (map conclusion (chains_of_log 0 log)) /\
  (forall e, In e (map conclusion (chains_of_log 0 log)) ->
             ~ In e (knowledge_base self)) /\
  InferenceResult.original_facts r = original_facts self /\
  InferenceResult.original_rules r = original_rules self /\
  original_facts self' = original_facts self /\
  original_rules self' = original_rules self /\
  rule_manager self' = rule_manager self /\
  InferenceResult.iterations r = Z.of_nat (length log).
Proof.
  intros Hok Hdist Hlog.
  destruct (infer_all_log_run iteration _ _ _ _ Hlog) as [mid [Hloop [_ [Hself' Hr]]]].
  destruct (loop_run_frame _ _ _ _ _ Hloop)
    as [_ [Hrm [Hof [Hor [_ [Hchains [_ Hn]]]]]]].
  destruct (loop_run_count _ _ _ _ _ Hloop Hok Hdist) as [Hkb [Hnd Hfresh]].
  rewrite Hr, Hself'. cbn. rewrite Hchains, Hkb, Hof, Hor, Hrm, Hn.
  repeat split; auto.
Qed.

Lemma infer_all_kept (self self' : LogicEngine) (r : InferenceResult.t) :
  kept iteration self -> infer_all iteration self = Ok (self', r) ->
  kept iteration self'.
Proof.
  intros [Hok [[b Hrm] [Hnd Hacc]]] Hrun.
  destruct (infer_all_as_log _ _ _ _ Hrun) as [log Hlog].
  assert (Hdist : Forall distinct (rules (rule_manager self)))
    by (rewrite Hrm; apply RuleManager_init_distinct).
  destruct (infer_all_new _ _ _ _ Hok Hdist Hlog)
    as [_ [Hchains [Hkb [Hnew [Hfresh [_ [_ [Hof [Hor [Hrm' _]]]]]]]]]].
  split; [apply (infer_all_ok iteration iteration_perm _ _ _ Hok Hrun) |].
  split; [exists b; rewrite Hrm'; exact Hrm |]. split.
  - rewrite Hchains, map_app. apply NoDup_app; [exact Hnd | exact Hnew |].
    intros x Hx Hx'. apply (Hfresh x Hx'). apply Hacc. right. right. exact Hx.
  - intros e. rewrite Hkb, Hchains, Hof, Hor, map_app, !in_app_iff, (Hacc e). tauto.
Qed.

Lemma add_fact_kept (self self' : LogicEngine) (x : argument) :
  kept iteration self -> argument_ok x -> add_fact self x = Ok self' ->
  kept iteration self'.
Proof.
  intros [Hok [Hrm [Hnd Hacc]]] Hx H.
  split; [apply (add_fact_ok _ _ _ Hok Hx H) |].
  unfold add_fact in H. destruct (parsed x) as [e | err]; [| discriminate].
  cbn [bind] in H. injection H as <-. cbn.
  split; [exact Hrm |]. split; [exact Hnd |].
  intros e'. cbn. rewrite !set_add_In, (Hacc e'). tauto.
Qed.

Lemma add_rule_kept (self self' : LogicEngine) (x : argument) :
  kept iteration self -> argument_ok x -> add_rule self x = Ok self' ->
  kept iteration self'.
Proof.
  intros [Hok [Hrm [Hnd Hacc]]] Hx H.
  split; [apply (add_rule_ok _ _ _ Hok Hx H) |].
  unfold add_rule in H. destruct (parsed x) as [e | err]; [| discriminate].
  cbn [bind] in H. destruct (is_rule e); injection H as <-; cbn;
    (split; [exact Hrm |]); (split; [exact Hnd |]);
    intros e'; cbn; rewrite !set_add_In, (Hacc e'); tauto.
Qed.

Lemma perform_kept (c : call) (self self' : LogicEngine) :
  kept iteration self -> call_ok c -> perform iteration c self = Ok self' ->
  kept iteration self'.
Proof.
  intros Hk Hc H. destruct c as [x | x | | x |]; cbn [perform call_ok] in *.
  - apply (add_fact_kept _ _ _ Hk Hc H).
  - apply (add_rule_kept _ _ _ Hk Hc H).
  - destruct (infer_all iteration self) as [[s r] | e] eqn:Hrun; [| discriminate].
    cbn [bind] in H. injection H as <-. apply (infer_all_kept _ _ _ Hk Hrun).
  - destruct (query self x); [| discriminate]. injection H as <-. exact Hk.
  - injection H as <-. destruct Hk as [Hok [Hrm _]].
    split; [apply clear_ok; exact Hok |]. split; [exact Hrm |].
    split; [constructor |]. intros e. cbn. tauto.
Qed.

Lemma perform_all_kept (calls : list call) :
  forall self self',
    kept iteration self -> Forall call_ok calls ->
    foldM (perform iteration) calls self = Ok self' -> kept iteration self'.
Proof.
  induction calls as [| c calls IH]; intros self self' Hk Hcalls H.
  - injection H as <-. exact Hk.
  - inversion Hcalls as [| ? ? Hc Hrest]; subst. cbn [foldM] in H.
    destruct (perform iteration c self) as [s |] eqn:E; [| discriminate].
    cbn [bind] in H. apply (IH _ _ (perform_kept _ _ _ Hk Hc E) Hrest H).
Qed.

Lemma built_kept (self : LogicEngine) : built iteration self -> kept iteration self.
Proof.
  intros [m [b [calls [Hcalls H]]]]. apply (perform_all_kept calls _ _ ) in H; auto.
  split; [apply (LogicEngine_init_ok iteration iteration_perm) |].
  split; [exists b; reflexivity |]. split; [constructor |]. intros e. cbn. tauto.
Qed.

Lemma depth_get_fold (d : Z) (chains : list DerivationChain) :
  forall by_depth,
    depth_get d (fold_left (fun by_depth chain => by_depth_append chain by_depth)
                   chains by_depth)
    = match depth_get d by_depth, filter (fun c => (depth c =? d)%Z) chains with
      | None, [] => None
      | None, found => Some found
      | Some before, found => Some (before ++ found)
      end.
Proof.
  induction chains as [| c chains IH]; intros by_depth.
  - cbn. destruct (depth_get d by_depth); [rewrite app_nil_r |]; reflexivity.
  - cbn [fold_left filter]. rewrite IH, depth_get_append.
    destruct (depth c =? d)%Z.
    + destruct (depth_get d by_depth) as [before |];
        [rewrite <- app_assoc |]; reflexivity.
    + reflexivity.
Qed.

(** X15.  What [infer_all] adds is what it reports.  The chains of the result
    are those the engine had followed by new ones; the new ones conclude
    pairwise different facts, none of which was in the knowledge base; and
    the knowledge base afterwards is the one before together with exactly
    these conclusions, so it grows by the number of new chains. *)
Theorem infer_all_adds_what_it_reports
    (self self' : LogicEngine) (r : InferenceResult.t) (enable_conjunction : bool) :
  engine_ok self ->
  rule_manager self = RuleManager_init iteration enable_conjunction ->
  infer_all iteration self = Ok (self', r) ->
  exists more,
    InferenceResult.derived_facts r = derivation_chains self ++ more /\
    NoDup (map conclusion more) /\
    (forall c, In c more -> ~ In (conclusion c) (knowledge_base self)) /\
    (forall e, In e (knowledge_base self') <->
               In e (knowledge_base self) \/ In e (map conclusion more)) /\
    length (knowledge_base self') = length (knowledge_base self) + length more.
Proof.
  intros Hok Hrm Hrun. destruct (infer_all_as_log _ _ _ _ Hrun) as [log Hlog].
  assert (Hdist : Forall distinct (rules (rule_manager self)))
    by (rewrite Hrm; apply RuleManager_init_distinct).
  destruct (infer_all_new _ _ _ _ Hok Hdist Hlog)
    as [Hr [_ [Hkb [Hnew [Hfresh _]]]]].
  exists (chains_of_log 0 log). split; [exact Hr |]. split; [exact Hnew |]. split.
  - intros c Hc. apply Hfresh. apply in_map. exact Hc.
  - split.
    + intros e. rewrite Hkb, in_app_iff. tauto.
    + rewrite Hkb, length_app, length_map. reflexivity.
Qed.

(** X16.  The depth of a chain is the number of the pass that derived it: every
    chain a call of [infer_all] appends has a depth between 1 and the
    iteration count of the result, its conclusion and justification were
    derived by the pass of that number, and its list of premises is
    empty. *)
Theorem chain_depth_is_pass_number
    (self self' : LogicEngine) (r : InferenceResult.t) (log : list Pass) :
  infer_all_log iteration self = Ok (self', r, log) ->
  exists more,
    InferenceResult.derived_facts r = derivation_chains self ++ more /\
    forall c, In c more ->
      (1 <= depth c <= InferenceResult.iterations r)%Z /\
      premises c = [] /\
      exists p, nth_error log (Z.to_nat (depth c - 1)) = Some p /\
                In (conclusion c, justification c) (derived_in p).
Proof.
  intros Hlog.
  destruct (infer_all_log_run iteration _ _ _ _ Hlog) as [mid [Hloop [_ [_ Hr]]]].
  destruct (loop_run_frame _ _ _ _ _ Hloop) as [_ [_ [_ [_ [_ [Hchains [_ Hn]]]]]]].
  exists (chains_of_log 0 log). split; [rewrite Hr; cbn; exact Hchains |].
  intros c Hc. destruct (chains_of_log_depth _ _ _ Hc) as [Hd [Hp [p [Hnth Hin]]]].
  split; [lia |]. split; [exact Hp |]. exists p.
  replace (depth c - 1)%Z with (depth c - 0 - 1)%Z by lia. auto.
Qed.

(** X17.  On an engine built by the constructor and calls of its methods,
    after [infer_all] the knowledge base is [get_all_facts] of the result
    together with the original rules: every element is an original fact,
    an original rule or a derived conclusion, and nothing else. *)
Theorem knowledge_base_accounted
    (self self' : LogicEngine) (r : InferenceResult.t) :
  built iteration self ->
  infer_all iteration self = Ok (self', r) ->
  forall e, In e (knowledge_base self') <->
            In e (get_all_facts r) \/ In e (InferenceResult.original_rules r).
Proof.
  intros Hb Hrun e. pose proof (built_kept _ Hb) as Hk.
  destruct (infer_all_kept _ _ _ Hk Hrun) as [_ [_ [_ Hacc]]].
  destruct (infer_all_history iteration _ _ _ Hrun) as [Hd _].
  destruct (infer_all_as_log _ _ _ _ Hrun) as [log Hlog].
  destruct Hk as [Hok [[b Hrm] _]].
  assert (Hdist : Forall distinct (rules (rule_manager self)))
    by (rewrite Hrm; apply RuleManager_init_distinct).
  destruct (infer_all_new _ _ _ _ Hok Hdist Hlog)
    as [_ [_ [_ [_ [_ [Hof [Hor [Hof' [Hor' _]]]]]]]]].
  rewrite get_all_facts_In, (Hacc e), Hd, Hof, Hor, Hof', Hor'. tauto.
Qed.

(** X18.  On an engine built by the constructor and calls of its methods, no
    fact has two derivation chains: [get_derivation_chain] returns every
    chain of the history when asked for its conclusion, and returns [None]
    exactly for the expressions no chain concludes. *)
Theorem get_derivation_chain_unique (self : LogicEngine) :
  built iteration self ->
  (forall fact c,
     In c (derivation_chains self) -> parsed fact = Ok (conclusion c) ->
     get_derivation_chain self fact = Ok (Some c)) /\
  (forall fact e,
     parsed fact = Ok e ->
     (get_derivation_chain self fact = Ok None <->
      ~ In e (map conclusion (derivation_chains self)))).
Proof.
  intros Hb. destruct (built_kept _ Hb) as [_ [_ [Hnd _]]]. split.
  - intros fact c Hc Hp. unfold get_derivation_chain. rewrite Hp. cbn [bind].
    rewrite (find_unique conclusion _ c Hnd Hc). reflexivity.
  - intros fact e Hp. unfold get_derivation_chain. rewrite Hp. cbn [bind]. split.
    + intros [= Hfind] Hin. apply in_map_iff in Hin. destruct Hin as [c [<- Hc]].
      pose proof (find_none _ _ Hfind c Hc) as Hne. cbn beta in Hne.
      rewrite expr_eqb_refl in Hne. discriminate.
    + intros Hnot. destruct (find _ _) as [c |] eqn:Hfind; [| reflexivity].
      apply find_some in Hfind. destruct Hfind as [Hc Heq].
      apply expr_eqb_eq in Heq. exfalso. apply Hnot. rewrite <- Heq.
      apply in_map. exact Hc.
Qed.

End Kept.

(** X19.  [get_facts_by_depth] loses no chain and keeps their order: the entry
    for a depth is the list of the chains of that depth in the order of
    [derived_facts], and a depth without chains has no entry. *)
Theorem get_facts_by_depth_groups (r : InferenceResult.t) (d : Z) :
  depth_get d (get_facts_by_depth r)
  = match filter (fun c => (depth c =? d)%Z) (InferenceResult.derived_facts r) with
    | [] => None
    | chains => Some chains
    end.
Proof. unfold get_facts_by_depth. rewrite depth_get_fold. reflexivity. Qed.

(* ------------------------------------------------------------------ *)
(** ** Calls, files and the API *)

Lemma set_add_idempotent (s : list Expression) (e : Expression) :
  set_add (set_add s e) e = set_add s e.
Proof.
  unfold set_add. destruct (mem e s) eqn:Hm; cbv iota.
  - rewrite Hm. reflexivity.
  - assert (H : mem e (s ++ [e]) = true).
    { apply mem_In. apply in_app_iff. right. left. reflexivity. }
    rewrite H. reflexivity.
Qed.

Section Api_lemmas.

Variable iteration : list Expression -> list Expression.
Hypothesis iteration_perm : forall s, Permutation s (iteration s).

Lemma infer_all_grows (self self' : LogicEngine) (r : InferenceResult.t) :
  infer_all iteration self = Ok (self', r) ->
  incl (knowledge_base self) (knowledge_base self').
Proof.
  intros Hrun. destruct (infer_all_as_log _ _ _ _ Hrun) as [log Hlog].
  destruct (infer_all_log_run iteration _ _ _ _ Hlog) as [mid [Hloop [_ [-> _]]]].
  destruct (loop_run_frame _ _ _ _ _ Hloop) as [_ [_ [_ [_ [_ [_ [Hch _]]]]]]].
  apply (chained_final _ _ _ Hch).
Qed.

Lemma perform_grows (c : call) (self self' : LogicEngine) :
  is_clear c = false -> perform iteration c self = Ok self' ->
  incl (knowledge_base self) (knowledge_base self').
Proof.
  intros Hc H. destruct c as [x | x | | x |]; cbn [perform] in H; try discriminate.
  - unfold add_fact in H. destruct (parsed x); [| discriminate].
    injection H as <-. intros e He. apply set_add_In. left. exact He.
  - unfold add_rule in H. destruct (parsed x) as [e |]; [| discriminate].
    cbn [bind] in H. destruct (is_rule e); injection H as <-;
      intros e' He; apply set_add_In; left; exact He.
  - destruct (infer_all iteration self) as [[s r] |] eqn:Hrun; [| discriminate].
    injection H as <-. apply (infer_all_grows _ _ _ Hrun).
  - destruct (query self x); [| discriminate]. injection H as <-. apply incl_refl.
Qed.

Lemma perform_all_grows (calls : list call) :
  forall self self',
    existsb is_clear calls = false ->
    foldM (perform iteration) calls self = Ok self' ->
    incl (knowledge_base self) (knowledge_base self').
Proof.
  induction calls as [| c calls IH]; intros self self' Hc H.
  - injection H as <-. apply incl_refl.
  - cbn [existsb] in Hc. apply orb_false_iff in Hc. destruct Hc as [Hc Hcs].
    cbn [foldM] in H. destruct (perform iteration c self) as [s |] eqn:E; [| discriminate].
    cbn [bind] in H.
    exact (incl_tran (perform_grows _ _ _ Hc E) (IH _ _ Hcs H)).
Qed.

(** X20.  What was added is known: after [add_fact] or [add_rule] returned,
    a [query] on the same argument that returns answers [True], and still
    does after any further calls other than [clear]; and, its text having
    been parsed once, the query raises no [ValueError]. *)
Theorem added_is_known (self self1 self2 : LogicEngine) (x : argument)
    (calls : list call) :
  add_fact self x = Ok self1 \/ add_rule self x = Ok self1 ->
  existsb is_clear calls = false ->
  foldM (perform iteration) calls self1 = Ok self2 ->
  (forall answer, query self1 x = Ok answer -> answer = true) /\
  (forall answer, query self2 x = Ok answer -> answer = true) /\
  (forall error, query self1 x <> Raise (ValueError error)) /\
  (forall error, query self2 x <> Raise (ValueError error)).
Proof.
  intros Hadd Hc Hcalls.
  assert (H1 : exists e, parsed x = Ok e /\ In e (knowledge_base self1)).
  { destruct Hadd as [H | H]; [unfold add_fact in H | unfold add_rule in H];
      destruct (parsed x) as [e |]; try discriminate; cbn [bind] in H;
      exists e; (split; [reflexivity |]).
    - injection H as <-. apply set_add_In. right. reflexivity.
    - destruct (is_rule e); injection H as <-; apply set_add_In; right; reflexivity. }
  destruct H1 as [e [Hp He]]. unfold query. rewrite Hp. cbn [bind].
  assert (H2 : In e (knowledge_base self2))
    by (apply (perform_all_grows _ _ _ Hc Hcalls); exact He).
  apply mem_In in He. apply mem_In in H2. rewrite He, H2.
  repeat split; try discriminate; intros answer [= <-]; reflexivity.
Qed.

End Api_lemmas.

(** X21.  Adding twice is adding once: [add_fact] and [add_rule] on an
    argument that was just added, when they return, leave the engine as it
    is. *)
Theorem add_twice (self self1 self2 : LogicEngine) (x : argument) :
  add_fact self x = Ok self1 -> add_rule self x = Ok self2 ->
  (forall self', add_fact self1 x = Ok self' -> self' = self1) /\
  (forall self', add_rule self2 x = Ok self' -> self' = self2).
Proof.
  unfold add_fact, add_rule. destruct (parsed x) as [e |]; [| discriminate].
  cbn [bind]. intros [= <-] H2. cbn. rewrite !set_add_idempotent.
  split; [intros self' [= <-]; reflexivity |].
  destruct (is_rule e); injection H2 as <-; cbn; rewrite !set_add_idempotent;
    intros self' [= <-]; reflexivity.
Qed.

(** Of the exceptions of the repository's code, [str] raises [IndexError]
    only. *)
Lemma to_str_raises (e : Expression) :
  forall x, to_str e = Raise x -> x = IndexError.
Proof.
  induction e as [a | op ops IH] using Expression_induction; intros x H;
    [discriminate |].
  assert (Hstrs : forall y,
            (fix strs (l : list Expression) : result (list str) :=
               match l with
               | [] => Ok []
               | x :: xs => s <- to_str x ;; ss <- strs xs ;; Ok (s :: ss)
               end) ops = Raise y -> y = IndexError).
  { clear H. induction ops as [| o ops IHops]; intros y Hy; [discriminate |].
    inversion IH as [| ? ? Ho Hrest]; subst.
    destruct (to_str o) as [s |] eqn:Es; [| injection Hy as <-; apply Ho; reflexivity].
    cbn [bind] in Hy.
    destruct ((fix strs (l : list Expression) : result (list str) :=
                 match l with
                 | [] => Ok []
                 | x :: xs => s <- to_str x ;; ss <- strs xs ;; Ok (s :: ss)
                 end) ops) as [ss |] eqn:Ess; [discriminate |].
    injection Hy as <-. apply (IHops Hrest). reflexivity. }
  destruct op as [[] |]; cbn [to_str] in H;
    try (match type of H with
         | bind ?m _ = _ => destruct m as [ss |] eqn:E;
                            [discriminate | injection H as <-; apply Hstrs; reflexivity]
         end).
  - destruct ops as [| o ops]; [injection H as <-; reflexivity |].
    inversion IH as [| ? ? Ho _]; subst.
    destruct (to_str o) as [s |] eqn:Es; [discriminate |].
    injection H as <-. apply Ho. reflexivity.
  - destruct ops as [| o ops]; [discriminate |].
    inversion IH as [| ? ? Ho _]; subst. apply Ho. exact H.
Qed.

(** X22.  [str] raises [IndexError] only on an expression that is not
    well formed (one with a negation without operand on the way), and it
    raises neither [AttributeError] (the operator of an expression without
    one is not read) nor [ValueError]. *)
Theorem str_raises_no_index_error (e : Expression) :
  (well_formed e = true -> to_str e <> Raise IndexError) /\
  to_str e <> Raise AttributeError /\
  (forall error, to_str e <> Raise (ValueError error)).
Proof.
  split; [| split].
  - intros Hwf H. destruct (to_str_total e Hwf) as [s Hs]. congruence.
  - intros H. apply to_str_raises in H. discriminate.
  - intros error H. apply to_str_raises in H. discriminate.
Qed.

Section Passes.

Variable iteration : list Expression -> list Expression.
Hypothesis iteration_perm : forall s, Permutation s (iteration s).

(** Every pass of a run applied the rule manager to a well-formed
    knowledge base. *)
Lemma loop_run_passes n self log n' self' :
  loop_run n self log n' self' -> engine_ok self ->
  forall p, In p log ->
    forallb well_formed (entering p) = true /\
    apply_all_rules (rule_manager self) (entering p) = Ok (derived_in p).
Proof.
  induction 1 as [n self Hcap | n self Hn Hd | n self d log n' self' Hn Hd Hne Hrun IH];
    intros Hok p Hp.
  - destruct Hp.
  - destruct Hp as [<- | []]. split; [apply Hok | exact Hd].
  - destruct Hp as [<- | Hp]; [split; [apply Hok | exact Hd] |].
    destruct (pass_ok self Hok) as [d' [Hd' [_ Hok']]].
    rewrite Hd in Hd'. injection Hd' as <-. apply (IH (Hok' _) p Hp).
Qed.

(** X23.  Every derived fact is justified: with the default rule manager, the
    facts a pass of [infer_all] derives are exactly the candidates of the
    seven rules on the knowledge base the pass entered with that this
    knowledge base does not hold. *)
Theorem derived_facts_justified
    (self self' : LogicEngine) (r : InferenceResult.t) (log : list Pass) :
  engine_ok self ->
  rule_manager self = RuleManager_init iteration false ->
  infer_all_log iteration self = Ok (self', r, log) ->
  forall p e, In p log ->
    (In e (map fst (derived_in p)) <->
     default_candidates iteration (entering p) e /\ ~ In e (entering p)).
Proof.
  intros Hok Hrm Hlog p e Hp.
  destruct (infer_all_log_run iteration _ _ _ _ Hlog) as [mid [Hloop _]].
  destruct (loop_run_passes _ _ _ _ _ Hloop Hok p Hp) as [Hwf Hd].
  destruct (apply_all_rules_derives iteration iteration_perm _ Hwf) as [d [Hd' Hspec]].
  rewrite Hrm, Hd' in Hd. injection Hd as <-. apply Hspec.
Qed.

Lemma literal_has_no_operator (kb : list Expression) (op : LogicalOperator)
    (x : Expression) :
  literals_only kb = true -> op <> NOT ->
  In x (filter (has_operator op) (iteration kb)) -> False.
Proof.
  intros Hkb Hop Hx. apply filter_In in Hx. destruct Hx as [Hx Hhas].
  apply (proj1 (iteration_In iteration iteration_perm _ _)) in Hx.
  unfold literals_only in Hkb. rewrite forallb_forall in Hkb.
  specialize (Hkb x Hx). destruct x as [a | [o |] ops]; try discriminate.
  cbn in Hkb, Hhas. destruct o, op; try discriminate; congruence.
Qed.

Lemma literals_no_candidates (kb : list Expression) (e : Expression) :
  literals_only kb = true -> ~ default_candidates iteration kb e.
Proof.
  intros Hkb H. unfold default_candidates in H.
  repeat (destruct H as [H | H]); destruct H as [x [Hx _]];
    apply (literal_has_no_operator kb _ x Hkb) in Hx; try exact Hx; discriminate.
Qed.

(** X24.  Facts alone derive nothing: on a knowledge base of atoms and
    negations only, [infer_all] with the default rule manager returns
    after one pass, leaving the knowledge base and the derivation history
    as they were. *)
Theorem literals_derive_nothing (self : LogicEngine) :
  engine_ok self ->
  rule_manager self = RuleManager_init iteration false ->
  literals_only (knowledge_base self) = true ->
  (0 < max_iterations self)%Z ->
  exists self' r,
    infer_all iteration self = Ok (self', r) /\
    knowledge_base self' = knowledge_base self /\
    InferenceResult.derived_facts r = derivation_chains self /\
    InferenceResult.iterations r = 1%Z.
Proof.
  intros Hok Hrm Hlit Hmax.
  destruct (infer_all_log_total iteration iteration_perm self Hok)
    as [self' [r [log [Hlog _]]]].
  exists self', r. split; [unfold infer_all; rewrite Hlog; reflexivity |].
  destruct (infer_all_log_run iteration _ _ _ _ Hlog) as [mid [Hloop [_ [Hself' Hr]]]].
  assert (Hnone : apply_all_rules (rule_manager self) (knowledge_base self) = Ok []).
  { destruct (apply_all_rules_derives iteration iteration_perm _ (proj1 Hok))
      as [d [Hd Hspec]].
    rewrite Hrm, Hd. f_equal. destruct d as [| [e j] d]; [reflexivity |].
    exfalso. apply (literals_no_candidates _ e Hlit).
    apply (Hspec e). left. reflexivity. }
  inversion Hloop as [n s Hcap | n s Hn Hd | n s d log' n' s' Hn Hd Hne Hrun]; subst.
  - lia.
  - rewrite Hr. cbn. auto.
  - rewrite Hnone in Hd. injection Hd as <-. contradiction Hne. reflexivity.
Qed.

End Passes.

(** *** The Conjunction rule *)

Lemma filter_length_perm {A} (p : A -> bool) (l l' : list A) :
  Permutation l l' -> length (filter p l) = length (filter p l').
Proof.
  induction 1 as [| x l l' _ IH | x y l | l l' l'' _ IH1 _ IH2]; cbn [filter].
  - reflexivity.
  - destruct (p x); cbn [length]; rewrite IH; reflexivity.
  - destruct (p x), (p y); reflexivity.
  - rewrite IH1. exact IH2.
Qed.

Lemma conjunction_candidates_pair (facts : list Expression) (a b : Expression) :
  In a facts -> In b facts -> a <> b ->
  conjunction_candidates facts (LogicalExpression (Some AND) [a; b]) \/
  conjunction_candidates facts (LogicalExpression (Some AND) [b; a]).
Proof.
  induction facts as [| x facts IH]; intros Ha Hb Hne; [destruct Ha |].
  cbn [conjunction_candidates]. destruct Ha as [-> | Ha], Hb as [-> | Hb].
  - contradiction Hne. reflexivity.
  - left. left. exists b. auto.
  - right. left. exists a. auto.
  - destruct (IH Ha Hb Hne) as [H | H]; [left | right]; right; exact H.
Qed.

Section Conjunction_rule.

Variable iteration : list Expression -> list Expression.
Hypothesis iteration_perm : forall s, Permutation s (iteration s).

(** X25.  The Conjunction rule returns on a well-formed knowledge base.  With
    at most 20 atoms, for any two different atoms of the knowledge base
    their conjunction, in one order or the other, is afterwards in the
    knowledge base or in [new_facts]; with more than 20 atoms the rule
    derives nothing. *)
Theorem conjunction_pairs_the_atoms (kb new_facts : list Expression) :
  forallb well_formed kb = true ->
  exists derived new_facts',
    apply (Conjunction iteration) kb new_facts = Ok (derived, new_facts') /\
    (length (filter is_atom kb) <= 20 ->
     forall a b, In (EAtom a) kb -> In (EAtom b) kb -> a <> b ->
       In (LogicalExpression (Some AND) [EAtom a; EAtom b]) (kb ++ new_facts') \/
       In (LogicalExpression (Some AND) [EAtom b; EAtom a]) (kb ++ new_facts')) /\
    (20 < length (filter is_atom kb) -> derived = [] /\ new_facts' = new_facts).
Proof.
  intros Hwf.
  destruct (Conjunction_derives iteration iteration_perm kb Hwf new_facts)
    as [[derived nf'] [Happly [_ Hall]]].
  exists derived, nf'. split; [exact Happly |].
  pose proof (filter_length_perm is_atom _ _ (iteration_perm kb)) as Hlen.
  split.
  - intros Hle a b Ha Hb Hne.
    assert (Hin : forall x, In (EAtom x) kb ->
                            In (EAtom x) (filter is_atom (iteration kb))).
    { intros x Hx. apply filter_In. split; [| reflexivity].
      apply (iteration_In iteration iteration_perm). exact Hx. }
    assert (Hne' : EAtom a <> EAtom b) by congruence.
    destruct (conjunction_candidates_pair _ _ _ (Hin a Ha) (Hin b Hb) Hne') as [H | H];
      [left | right]; apply in_app_iff; apply Hall; split; try exact H;
      apply Nat.ltb_ge; lia.
  - intros Hgt. cbn [apply Conjunction] in Happly. unfold Conjunction_apply in Happly.
    assert (Hgate : (20 <? length (filter is_atom (iteration kb))) = true)
      by (apply Nat.ltb_lt; lia).
    rewrite Hgate in Happly. injection Happly as <- <-. auto.
Qed.

End Conjunction_rule.

(** *** The order of the rules *)

Lemma insert_by_priority_sorted (r : DeductionRule) (l : list DeductionRule) :
  StronglySorted (fun r1 r2 => (priority r2 <= priority r1)%Z) l ->
  StronglySorted (fun r1 r2 => (priority r2 <= priority r1)%Z) (insert_by_priority r l).
Proof.
  induction 1 as [| r' rest Hsorted IH Hall]; cbn [insert_by_priority].
  - constructor; constructor.
  - destruct (priority r <? priority r')%Z eqn:E.
    + apply Z.ltb_lt in E. constructor; [exact IH |].
      apply Forall_forall. intros x Hx. apply insert_by_priority_In in Hx.
      destruct Hx as [-> | Hx]; [lia |]. rewrite Forall_forall in Hall. auto.
    + apply Z.ltb_ge in E. constructor; [constructor; assumption |].
      constructor; [exact E |]. apply Forall_forall. intros x Hx.
      rewrite Forall_forall in Hall. specialize (Hall x Hx). lia.
Qed.

Lemma sort_by_priority_sorted (l : list DeductionRule) :
  StronglySorted (fun r1 r2 => (priority r2 <= priority r1)%Z) (sort_by_priority l).
Proof.
  unfold sort_by_priority. induction l as [| r l IH]; cbn [fold_right].
  - constructor.
  - apply insert_by_priority_sorted. exact IH.
Qed.

(** X26.  The rule manager holds its rules in descending priority, rules of
    equal priority in the order of the constructor's list; [get_rule_names]
    lists them in that order, the Conjunction rule last when enabled. *)
Theorem rules_in_priority_order (iteration : list Expression -> list Expression)
    (enable_conjunction : bool) :
  StronglySorted (fun r1 r2 => (priority r2 <= priority r1)%Z)
    (rules (RuleManager_init iteration enable_conjunction)) /\
  get_rule_names (RuleManager_init iteration enable_conjunction)
  = [lit "Modus Ponens"; lit "Simplification"; lit "Modus Tollens";
     lit "Biconditional Elimination"; lit "Disjunctive Syllogism";
     lit "Hypothetical Syllogism"; lit "Resolution"] ++
    (if enable_conjunction then [lit "Conjunction"] else []).
Proof.
  split; [apply sort_by_priority_sorted |]. destruct enable_conjunction; reflexivity.
Qed.

(** *** Loading a file *)

Lemma split_on_nonempty (sep : char) (s : str) : split_on sep s <> [].
Proof.
  destruct s as [| c s]; [discriminate |]. cbn [split_on].
  destruct (N.eqb c sep); [discriminate |]. destruct (split_on sep s); discriminate.
Qed.

Lemma split_on_app (sep : char) (a b : str) :
  split_on sep (a ++ sep :: b) = split_on sep a ++ split_on sep b.
Proof.
  induction a as [| c a IH]; cbn [app split_on].
  - rewrite N.eqb_refl. reflexivity.
  - destruct (N.eqb c sep); [rewrite IH; reflexivity |]. rewrite IH.
    pose proof (split_on_nonempty sep a) as Hne.
    destruct (split_on sep a) as [| p ps]; [contradiction Hne; reflexivity |].
    reflexivity.
Qed.

Lemma foldM_app {A S} (body : A -> S -> result S) (l1 l2 : list A) (s : S) :
  foldM body (l1 ++ l2) s = (s' <- foldM body l1 s ;; foldM body l2 s').
Proof.
  revert s. induction l1 as [| x l1 IH]; intros s; [reflexivity |].
  cbn [app foldM]. destruct (body x s); [apply IH | reflexivity].
Qed.

Lemma add_raises (self : LogicEngine) (text : str) (x : exn) :
  add_fact self (Text text) = Raise x \/ add_rule self (Text text) = Raise x ->
  is_value_error x.
Proof.
  unfold add_fact, add_rule. cbn [parsed]. unfold parse_expression.
  destruct (parse text) as [e |] eqn:E.
  - cbn [bind]. destruct (is_rule e); intros [H | H]; discriminate.
  - cbn [bind]. intros [[= <-] | [= <-]]; apply (parse_raises _ _ E).
Qed.

Section Loading.

Variable iteration : list Expression -> list Expression.

(** A line of the file is skipped, or fails with a warning, or is one
    call. *)
Lemma load_line_as_calls (self : LogicEngine) (warnings : list Warning) (line : str) :
  exists calls new,
    Forall (fun c => exists text, c = AddFact (Text text) \/ c = AddRule (Text text))
           calls /\
    foldM (perform iteration) calls self
    = Ok (fst (load_line (self, warnings) line)) /\
    snd (load_line (self, warnings) line) = warnings ++ new /\
    length calls + length new <= 1 /\
    Forall (fun w => is_value_error (snd w)) new.
Proof.
  assert (Hskip : exists calls new : list _,
            Forall (fun c => exists text,
                      c = AddFact (Text text) \/ c = AddRule (Text text)) calls /\
            foldM (perform iteration) calls self = Ok self /\
            warnings = warnings ++ new /\
            length calls + length new <= 1 /\
            Forall (fun w : Warning => is_value_error (snd w)) new).
  { exists [], []. rewrite app_nil_r.
    split; [constructor |]. split; [reflexivity |]. split; [reflexivity |].
    split; [cbn [length]; lia | constructor]. }
  unfold load_line. destruct (strip line) as [| c l] eqn:Hstrip; [exact Hskip |].
  destruct (startswith (c :: l) 35%N); [exact Hskip |]. clear Hskip.
  set (line' := if char_in 35%N (c :: l)
                then strip (hd [] (split_on 35%N (c :: l))) else c :: l).
  destruct (startswith_str line' (lit "Rule:")).
  - destruct (add_rule self (Text (strip (skipn 5 line')))) as [self' | e] eqn:E.
    + exists [AddRule (Text (strip (skipn 5 line')))], []. rewrite app_nil_r.
      split; [constructor; [eexists; right; reflexivity | constructor] |].
      split; [cbn [foldM perform]; rewrite E; reflexivity |].
      split; [reflexivity |]. split; [cbn [length]; lia | constructor].
    + exists [], [(line', e)]. split; [constructor |]. split; [reflexivity |].
      split; [reflexivity |]. split; [cbn [length]; lia |].
      constructor; [| constructor].
      apply (add_raises self (strip (skipn 5 line'))). right. exact E.
  - destruct (add_fact self (Text line')) as [self' | e] eqn:E.
    + exists [AddFact (Text line')], []. rewrite app_nil_r.
      split; [constructor; [eexists; left; reflexivity | constructor] |].
      split; [cbn [foldM perform]; rewrite E; reflexivity |].
      split; [reflexivity |]. split; [cbn [length]; lia | constructor].
    + exists [], [(line', e)]. split; [constructor |]. split; [reflexivity |].
      split; [reflexivity |]. split; [cbn [length]; lia |].
      constructor; [| constructor].
      apply (add_raises self line'). left. exact E.
Qed.

Lemma load_lines_as_calls (lines : list str) :
  forall self warnings,
  exists calls new,
    Forall (fun c => exists text, c = AddFact (Text text) \/ c = AddRule (Text text))
           calls /\
    foldM (perform iteration) calls self
    = Ok (fst (fold_left load_line lines (self, warnings))) /\
    snd (fold_left load_line lines (self, warnings)) = warnings ++ new /\
    length calls + length new <= length lines /\
    Forall (fun w => is_value_error (snd w)) new.
Proof.
  induction lines as [| line lines IH]; intros self warnings.
  - exists [], []. rewrite app_nil_r.
    split; [constructor |]. split; [reflexivity |]. split; [reflexivity |].
    split; [cbn [length]; lia | constructor].
  - cbn [fold_left].
    destruct (load_line_as_calls self warnings line)
      as [calls1 [new1 [H1 [E1 [W1 [L1 V1]]]]]].
    destruct (load_line (self, warnings) line) as [self1 warnings1].
    cbn [fst snd] in E1, W1. subst warnings1.
    destruct (IH self1 (warnings ++ new1)) as [calls2 [new2 [H2 [E2 [W2 [L2 V2]]]]]].
    exists (calls1 ++ calls2), (new1 ++ new2).
    split; [apply Forall_app; split; assumption |].
    split; [rewrite foldM_app, E1; exact E2 |].
    split; [rewrite W2, app_assoc; reflexivity |].
    split; [rewrite !length_app; cbn [length]; lia |].
    apply Forall_app. split; assumption.
Qed.

(** X27.  A load whose warnings are all [ValueError]s (lines that do not
    parse; the handler of [load_from_file] reports any other exception the
    same way) leaves the engine that a sequence of [add_fact] and
    [add_rule] calls on texts leaves, every line giving at most one call
    or one warning: a line that does not parse is skipped and does not
    stop the loading. *)
Theorem load_from_file_as_calls (self self' : LogicEngine) (content : str)
    (errors : list (str * ParseError)) :
  load_from_file self content
  = (self', map (fun w => (fst w, ValueError (snd w))) errors) ->
  exists calls,
    Forall (fun c => exists text, c = AddFact (Text text) \/ c = AddRule (Text text))
           calls /\
    foldM (perform iteration) calls self = Ok self' /\
    length calls + length errors <= length (split_on 10%N content).
Proof.
  intros Hload. unfold load_from_file in Hload.
  destruct (load_lines_as_calls (split_on 10%N content) self [])
    as [calls [new [H [E [W [L V]]]]]].
  rewrite Hload in E, W. cbn [fst snd app] in E, W. subst new.
  rewrite length_map in L. exists calls. auto.
Qed.

End Loading.

Lemma load_line_skips (st : LogicEngine * list Warning) (line : str) :
  strip line = [] \/ startswith (strip line) 35%N = true ->
  load_line st line = st.
Proof.
  intros H. unfold load_line. destruct st as [self warnings].
  destruct (strip line) as [| c l]; [reflexivity |].
  destruct H as [H | H]; [discriminate |]. rewrite H. reflexivity.
Qed.

(** X28.  A blank line or a line that starts with [#] (after white space)
    between two lines of a file changes neither the engine loaded nor the
    warnings. *)
Theorem comment_lines_are_skipped (self : LogicEngine) (before comment after : str) :
  char_in 10%N comment = false ->
  strip comment = [] \/ startswith (strip comment) 35%N = true ->
  load_from_file self (before ++ [10%N] ++ comment ++ [10%N] ++ after)
  = load_from_file self (before ++ [10%N] ++ after).
Proof.
  intros Hline Hskip. unfold load_from_file. cbn [app].
  rewrite !split_on_app, (split_on_no_separator _ _ Hline), !fold_left_app.
  cbn [fold_left]. rewrite (load_line_skips _ _ Hskip). reflexivity.
Qed.

(** *** [deduce_all] *)

Section Deduce.

Variable iteration : list Expression -> list Expression.
Hypothesis iteration_perm : forall s, Permutation s (iteration s).

(** What the engine of [deduce_all] is before inference: no derivation
    history, the cap of the constructor. *)
Lemma adds_fresh {A} (add : A -> LogicEngine -> result LogicEngine) (l : list A) :
  (forall x self self', add x self = Ok self' ->
     kept iteration self -> 
     kept iteration self' /\ derivation_chains self' = derivation_chains self /\
     max_iterations self' = max_iterations self /\
     rule_manager self' = rule_manager self) ->
  forall self self',
    foldM add l self = Ok self' -> kept iteration self ->
    kept iteration self' /\ derivation_chains self' = derivation_chains self /\
    max_iterations self' = max_iterations self /\
    rule_manager self' = rule_manager self.
Proof.
  intros Hadd. induction l as [| x l IH]; intros self self' H Hk.
  - injection H as <-. auto.
  - cbn [foldM] in H. destruct (add x self) as [s |] eqn:E; [| discriminate].
    cbn [bind] in H. destruct (Hadd _ _ _ E Hk) as [Hk1 [Hc1 [Hm1 Hr1]]].
    destruct (IH _ _ H Hk1) as [Hk2 [Hc2 [Hm2 Hr2]]].
    split; [exact Hk2 |]. split; [congruence |]. split; congruence.
Qed.

Lemma add_fact_frame (self self' : LogicEngine) (x : argument) :
  add_fact self x = Ok self' ->
  derivation_chains self' = derivation_chains self /\
  max_iterations self' = max_iterations self /\
  rule_manager self' = rule_manager self.
Proof.
  unfold add_fact. destruct (parsed x); [| discriminate]. intros [= <-]. auto.
Qed.

Lemma add_rule_frame (self self' : LogicEngine) (x : argument) :
  add_rule self x = Ok self' ->
  derivation_chains self' = derivation_chains self /\
  max_iterations self' = max_iterations self /\
  rule_manager self' = rule_manager self.
Proof.
  unfold add_rule. destruct (parsed x) as [e |]; [| discriminate]. cbn [bind].
  destruct (is_rule e); intros [= <-]; auto.
Qed.

(** X29.  When [deduce_all] returns, it made at most 100 passes, the derived
    facts of its result are pairwise different, none of them is among the
    original facts or rules, and each has a depth between 1 and the
    iteration count. *)
Theorem deduce_all_result (facts rule_texts : list str) (r : InferenceResult.t) :
  deduce_all iteration facts rule_texts = Ok r ->
  (InferenceResult.iterations r <= 100)%Z /\
  NoDup (map conclusion (InferenceResult.derived_facts r)) /\
  forall c, In c (InferenceResult.derived_facts r) ->
    (1 <= depth c <= InferenceResult.iterations r)%Z /\
    ~ In (conclusion c) (InferenceResult.original_facts r) /\
    ~ In (conclusion c) (InferenceResult.original_rules r).
Proof.
  unfold deduce_all. intros H.
  destruct (foldM _ facts _) as [e1 |] eqn:E1; [| discriminate]. cbn [bind] in H.
  destruct (foldM _ rule_texts e1) as [e2 |] eqn:E2; [| discriminate]. cbn [bind] in H.
  destruct (infer_all iteration e2) as [[e3 r'] |] eqn:E3; [| discriminate].
  cbn [bind] in H. injection H as ->.
  assert (K0 : kept iteration (LogicEngine_init iteration 100 false)).
  { split; [apply (LogicEngine_init_ok iteration iteration_perm) |].
    split; [exists false; reflexivity |]. split; [constructor |]. intros e. cbn. tauto. }
  destruct (adds_fresh (fun fact engine => add_fact engine (Text fact)) facts) 
    with (self := LogicEngine_init iteration 100 false) (self' := e1)
    as [K1 [C1 [M1 R1]]]; [| exact E1 | exact K0 |].
  { intros x s s' Hx Hs. split; [apply (add_fact_kept iteration s s' (Text x) Hs I Hx) |].
    apply (add_fact_frame _ _ _ Hx). }
  destruct (adds_fresh (fun rule engine =>
              add_rule engine (Text (strip (replace rule (lit "Rule:") [])))) rule_texts)
    with (self := e1) (self' := e2) as [K2 [C2 [M2 R2]]]; [| exact E2 | exact K1 |].
  { intros x s s' Hx Hs. split; [apply (add_rule_kept iteration s s' (Text (strip (replace x (lit "Rule:") []))) Hs I Hx) |].
    apply (add_rule_frame _ _ _ Hx). }
  destruct (infer_all_as_log _ _ _ _ E3) as [log Hlog].
  destruct K2 as [Hok [[b Hrm] [_ Hacc]]].
  assert (Hdist : Forall distinct (rules (rule_manager e2)))
    by (rewrite Hrm; apply RuleManager_init_distinct).
  destruct (infer_all_new iteration _ _ _ _ Hok Hdist Hlog)
    as [Hr [_ [_ [Hnew [Hfresh [Hof [Hor [_ [_ [_ Hn]]]]]]]]]].
  rewrite C2, C1 in Hr. cbn [derivation_chains LogicEngine_init app] in Hr.
  destruct (infer_all_log_run iteration _ _ _ _ Hlog) as [mid [Hloop _]].
  destruct (loop_run_bound _ _ _ _ _ Hloop) as [Hcap _];
    [rewrite M2, M1; cbn; lia |].
  rewrite M2, M1 in Hcap. cbn [max_iterations LogicEngine_init] in Hcap.
  split; [exact Hcap |]. rewrite Hr. split; [exact Hnew |].
  intros c Hc. destruct (chains_of_log_depth _ _ _ Hc) as [Hd _].
  split; [lia |].
  assert (Hout : ~ In (conclusion c) (knowledge_base e2))
    by (apply Hfresh; apply in_map; exact Hc).
  rewrite Hof, Hor. split; intros Hin; apply Hout; apply Hacc; auto.
Qed.

End Deduce.

(* ------------------------------------------------------------------ *)
(** ** The further theorems at concrete inputs *)

Lemma ascii_spelling_ok (op : LogicalOperator) : In (ascii_spelling op) (spellings op).
Proof. destruct op; cbn; auto. Defined.

Lemma sample_engine_built : built insertion_order sample_engine.
Proof.
  exists 100%Z, false, sample_calls. split; [repeat constructor |].
  vm_compute. reflexivity.
Defined.

Lemma sample_inferred_built : built insertion_order sample_inferred.
Proof.
  exists 100%Z, false, (sample_calls ++ [InferAll]). split; [repeat constructor |].
  vm_compute. reflexivity.
Defined.

Lemma sample_engine_ok : engine_ok sample_engine.
Proof.
  exact (proj1 (built_kept insertion_order insertion_order_perm sample_engine
                  sample_engine_built)).
Defined.

Lemma sample_run :
  infer_all insertion_order sample_engine
  = Ok (sample_inferred, the_result (infer_all insertion_order sample_engine)).
Proof. vm_compute. reflexivity. Defined.

Lemma sample_run_log :
  infer_all_log insertion_order sample_engine
  = Ok (sample_inferred, the_result (infer_all insertion_order sample_engine),
        log_of (infer_all_log insertion_order sample_engine)).
Proof. vm_compute. reflexivity. Defined.

Lemma sample_run_below_cap :
  (InferenceResult.iterations (the_result (infer_all insertion_order sample_engine))
   < max_iterations sample_engine)%Z.
Proof. vm_compute. reflexivity. Defined.

Lemma roundtrip_literal_witness :
  to_str (negation (negation (atom0 "Pedro" "Feliz"))) <> Raise IndexError /\
  forall text,
    to_str (negation (negation (atom0 "Pedro" "Feliz"))) = Ok text ->
    (forall error, parse text <> Raise (ValueError error)) /\
    (forall e', parse text = Ok e' -> e' = negation (negation (atom0 "Pedro" "Feliz"))).
Proof.
  apply (roundtrip_literal (negation (negation (atom0 "Pedro" "Feliz")))).
  reflexivity.
Defined.

Lemma parse_inverts_notation_witness :
  (forall error, parse (written ascii_spelling sample_expression)
                 <> Raise (ValueError error)) /\
  (forall e', parse (written ascii_spelling sample_expression) = Ok e' ->
              e' = sample_expression).
Proof.
  apply (parse_inverts_notation ascii_spelling sample_expression).
  - exact ascii_spelling_ok.
  - reflexivity.
Defined.

Lemma parse_blank_text_witness :
  parse (lit "   ") = Raise (ValueError EmptyExpression).
Proof. apply (parse_blank_text (lit "   ")). reflexivity. Defined.

Lemma parse_ignores_outer_space_witness :
  parse (lit " " ++ lit "(a)P() -> (b)Q()" ++ lit "  ") = parse (lit "(a)P() -> (b)Q()").
Proof.
  apply (parse_ignores_outer_space (lit " ") (lit "(a)P() -> (b)Q()") (lit "  "));
    reflexivity.
Defined.

Lemma parse_returns_grammar_witness :
  in_grammar parsed_atom (implies (atom0 "a" "P") (atom0 "b" "Q")) = true.
Proof.
  apply (parse_returns_grammar (lit "(a)P() -> (b)Q()")). vm_compute. reflexivity.
Defined.

Lemma matches_ground_sound_witness :
  substitute x_atom [(lit "X", lit "Pedro")] = pedro_atom.
Proof.
  apply (matches_ground_sound x_atom pedro_atom [(lit "X", lit "Pedro")]).
  - reflexivity.
  - vm_compute. reflexivity.
Defined.

Lemma premises_engine_built : built insertion_order premises_engine.
Proof.
  exists 100%Z, false, premises_calls. split; [repeat constructor |].
  vm_compute. reflexivity.
Defined.

Lemma premises_engine_ok : engine_ok premises_engine.
Proof.
  exact (proj1 (built_kept insertion_order insertion_order_perm premises_engine
                  premises_engine_built)).
Defined.

Lemma premises_run :
  infer_all insertion_order premises_engine
  = Ok (premises_inferred, the_result (infer_all insertion_order premises_engine)).
Proof. vm_compute. reflexivity. Defined.

Lemma premises_run_below_cap :
  (InferenceResult.iterations (the_result (infer_all insertion_order premises_engine))
   < max_iterations premises_engine)%Z.
Proof. vm_compute. reflexivity. Defined.

(** Membership in a concrete knowledge base, by evaluation. *)
Lemma known (e : Expression) (kb : list Expression) : mem e kb = true -> In e kb.
Proof. apply mem_In. Defined.

Lemma saturated_modus_ponens_witness :
  In (atom0 "a" "Q") (knowledge_base premises_inferred) /\
  In (_substitute (atom0 "a" "Q") []) (knowledge_base premises_inferred).
Proof.
  destruct (saturated_modus_ponens insertion_order insertion_order_perm premises_engine
              premises_inferred (the_result (infer_all insertion_order premises_engine))
              false premises_engine_ok eq_refl premises_run premises_run_below_cap)
    as [H1 H2].
  split.
  - apply (H1 (atom0 "a" "P") (atom0 "a" "Q"));
      [apply known; vm_compute; reflexivity | apply known; vm_compute; reflexivity
      | reflexivity].
  - apply (H2 (mkAtom (lit "a") (lit "P") []) (mkAtom (lit "a") (lit "P") [])
              (atom0 "a" "Q") []);
      [apply known; vm_compute; reflexivity | apply known; vm_compute; reflexivity
      | vm_compute; reflexivity].
Defined.

Lemma saturated_modus_tollens_witness :
  In (negation (atom0 "a" "T")) (knowledge_base premises_inferred).
Proof.
  apply (saturated_modus_tollens insertion_order insertion_order_perm premises_engine
           premises_inferred (the_result (infer_all insertion_order premises_engine))
           false premises_engine_ok eq_refl premises_run premises_run_below_cap
           (atom0 "a" "T") (atom0 "a" "S") (atom0 "a" "S"));
    [apply known; vm_compute; reflexivity | apply known; vm_compute; reflexivity
    | vm_compute; reflexivity].
Defined.

Lemma saturated_hypothetical_syllogism_witness :
  In (implies (atom0 "a" "P") (atom0 "a" "R")) (knowledge_base premises_inferred).
Proof.
  apply (saturated_hypothetical_syllogism insertion_order insertion_order_perm
           premises_engine premises_inferred
           (the_result (infer_all insertion_order premises_engine))
           false premises_engine_ok eq_refl premises_run premises_run_below_cap
           (atom0 "a" "P") (atom0 "a" "Q") (atom0 "a" "R"));
    [apply known; vm_compute; reflexivity | apply known; vm_compute; reflexivity
    | intros H; vm_compute in H; discriminate H].
Defined.

Lemma saturated_disjunctive_syllogism_witness :
  In (atom0 "a" "U") (knowledge_base premises_inferred).
Proof.
  apply (saturated_disjunctive_syllogism insertion_order insertion_order_perm
           premises_engine premises_inferred
           (the_result (infer_all insertion_order premises_engine))
           false premises_engine_ok eq_refl premises_run premises_run_below_cap
           [atom0 "a" "U"; atom0 "a" "S"] (atom0 "a" "S") 1 (atom0 "a" "U") 0);
    [apply known; vm_compute; reflexivity | apply known; vm_compute; reflexivity
    | reflexivity | reflexivity | lia].
Defined.

Lemma saturated_simplification_witness :
  In (atom0 "a" "W") (knowledge_base premises_inferred).
Proof.
  apply (saturated_simplification insertion_order insertion_order_perm
           premises_engine premises_inferred
           (the_result (infer_all insertion_order premises_engine))
           false premises_engine_ok eq_refl premises_run premises_run_below_cap
           [atom0 "a" "V"; atom0 "a" "W"] (atom0 "a" "W"));
    [apply known; vm_compute; reflexivity | right; left; reflexivity].
Defined.

Lemma saturated_biconditional_elimination_witness :
  In (implies (atom0 "a" "M") (atom0 "a" "N")) (knowledge_base premises_inferred) /\
  In (implies (atom0 "a" "N") (atom0 "a" "M")) (knowledge_base premises_inferred).
Proof.
  apply (saturated_biconditional_elimination insertion_order insertion_order_perm
           premises_engine premises_inferred
           (the_result (infer_all insertion_order premises_engine))
           false premises_engine_ok eq_refl premises_run premises_run_below_cap
           (atom0 "a" "M") (atom0 "a" "N")).
  apply known. vm_compute. reflexivity.
Defined.

Lemma saturated_resolution_witness :
  In (disjunction [atom0 "a" "K"; atom0 "a" "S"]) (knowledge_base premises_inferred).
Proof.
  apply (saturated_resolution insertion_order insertion_order_perm
           premises_engine premises_inferred
           (the_result (infer_all insertion_order premises_engine))
           false premises_engine_ok eq_refl premises_run premises_run_below_cap
           (atom0 "a" "U") (atom0 "a" "S") (atom0 "a" "K"));
    [apply known; vm_compute; reflexivity | apply known; vm_compute; reflexivity
    | intros H; vm_compute in H; discriminate H
    | intros H; vm_compute in H; discriminate H].
Defined.

Lemma infer_all_adds_what_it_reports_witness :
  exists more,
    InferenceResult.derived_facts (the_result (infer_all insertion_order sample_engine))
    = derivation_chains sample_engine ++ more /\
    NoDup (map conclusion more) /\
    (forall c, In c more -> ~ In (conclusion c) (knowledge_base sample_engine)) /\
    (forall e, In e (knowledge_base sample_inferred) <->
               In e (knowledge_base sample_engine) \/ In e (map conclusion more)) /\
    length (knowledge_base sample_inferred)
    = length (knowledge_base sample_engine) + length more.
Proof.
  apply (infer_all_adds_what_it_reports insertion_order sample_engine
           sample_inferred (the_result (infer_all insertion_order sample_engine)) false
           sample_engine_ok eq_refl sample_run).
Defined.

Lemma chain_depth_is_pass_number_witness :
  exists more,
    InferenceResult.derived_facts (the_result (infer_all insertion_order sample_engine))
    = derivation_chains sample_engine ++ more /\
    forall c, In c more ->
      (1 <= depth c
       <= InferenceResult.iterations
            (the_result (infer_all insertion_order sample_engine)))%Z /\
      premises c = [] /\
      exists p,
        nth_error (log_of (infer_all_log insertion_order sample_engine))
          (Z.to_nat (depth c - 1)) = Some p /\
        In (conclusion c, justification c) (derived_in p).
Proof.
  apply (chain_depth_is_pass_number insertion_order sample_engine sample_inferred
           (the_result (infer_all insertion_order sample_engine))
           (log_of (infer_all_log insertion_order sample_engine)) sample_run_log).
Defined.

Lemma knowledge_base_accounted_witness :
  In (atom0 "a" "Q") (knowledge_base sample_inferred) <->
  In (atom0 "a" "Q")
     (get_all_facts (the_result (infer_all insertion_order sample_engine))) \/
  In (atom0 "a" "Q")
     (InferenceResult.original_rules
        (the_result (infer_all insertion_order sample_engine))).
Proof.
  apply (knowledge_base_accounted insertion_order insertion_order_perm sample_engine
           sample_inferred (the_result (infer_all insertion_order sample_engine))
           sample_engine_built sample_run (atom0 "a" "Q")).
Defined.

Lemma get_derivation_chain_unique_witness :
  (forall fact c,
     In c (derivation_chains sample_inferred) -> parsed fact = Ok (conclusion c) ->
     get_derivation_chain sample_inferred fact = Ok (Some c)) /\
  (forall fact e,
     parsed fact = Ok e ->
     (get_derivation_chain sample_inferred fact = Ok None <->
      ~ In e (map conclusion (derivation_chains sample_inferred)))).
Proof.
  apply (get_derivation_chain_unique insertion_order insertion_order_perm
           sample_inferred sample_inferred_built).
Defined.

Lemma added_is_known_witness :
  (forall answer,
     query (after [AddFact (Text (lit "(a)P()"))]) (Text (lit "(a)P()")) = Ok answer ->
     answer = true) /\
  (forall answer,
     query sample_inferred (Text (lit "(a)P()")) = Ok answer -> answer = true) /\
  (forall error,
     query (after [AddFact (Text (lit "(a)P()"))]) (Text (lit "(a)P()"))
     <> Raise (ValueError error)) /\
  (forall error,
     query sample_inferred (Text (lit "(a)P()")) <> Raise (ValueError error)).
Proof.
  apply (added_is_known insertion_order (LogicEngine_init insertion_order 100 false)
           (after [AddFact (Text (lit "(a)P()"))]) sample_inferred
           (Text (lit "(a)P()")) (tl sample_calls ++ [InferAll])).
  - left. vm_compute. reflexivity.
  - reflexivity.
  - vm_compute. reflexivity.
Defined.

Lemma add_twice_witness :
  (forall self',
     add_fact (after [AddFact (Text (lit "(a)P()"))]) (Text (lit "(a)P()")) = Ok self' ->
     self' = after [AddFact (Text (lit "(a)P()"))]) /\
  (forall self',
     add_rule (after [AddRule (Text (lit "(a)P()"))]) (Text (lit "(a)P()")) = Ok self' ->
     self' = after [AddRule (Text (lit "(a)P()"))]).
Proof.
  apply (add_twice (LogicEngine_init insertion_order 100 false));
    vm_compute; reflexivity.
Defined.

Lemma derived_facts_justified_witness :
  In (atom0 "a" "Q")
     (map fst (derived_in (hd (mkPass [] [])
                             (log_of (infer_all_log insertion_order sample_engine))))) <->
  default_candidates insertion_order
    (entering (hd (mkPass [] []) (log_of (infer_all_log insertion_order sample_engine))))
    (atom0 "a" "Q") /\
  ~ In (atom0 "a" "Q")
       (entering (hd (mkPass [] [])
                     (log_of (infer_all_log insertion_order sample_engine)))).
Proof.
  apply (derived_facts_justified insertion_order insertion_order_perm sample_engine
           sample_inferred (the_result (infer_all insertion_order sample_engine))
           (log_of (infer_all_log insertion_order sample_engine))
           sample_engine_ok eq_refl sample_run_log
           (hd (mkPass [] []) (log_of (infer_all_log insertion_order sample_engine)))
           (atom0 "a" "Q")).
  vm_compute. left. reflexivity.
Defined.

Lemma literals_derive_nothing_witness :
  exists self' r,
    infer_all insertion_order feliz_engine = Ok (self', r) /\
    knowledge_base self' = knowledge_base feliz_engine /\
    InferenceResult.derived_facts r = derivation_chains feliz_engine /\
    InferenceResult.iterations r = 1%Z.
Proof.
  apply (literals_derive_nothing insertion_order insertion_order_perm feliz_engine
           feliz_engine_ok eq_refl eq_refl eq_refl).
Defined.

Lemma conjunction_pairs_the_atoms_witness :
  exists derived new_facts',
    apply (Conjunction insertion_order) (knowledge_base sample_inferred) []
    = Ok (derived, new_facts') /\
    (length (filter is_atom (knowledge_base sample_inferred)) <= 20 ->
     forall a b,
       In (EAtom a) (knowledge_base sample_inferred) ->
       In (EAtom b) (knowledge_base sample_inferred) -> a <> b ->
       In (LogicalExpression (Some AND) [EAtom a; EAtom b])
          (knowledge_base sample_inferred ++ new_facts') \/
       In (LogicalExpression (Some AND) [EAtom b; EAtom a])
          (knowledge_base sample_inferred ++ new_facts')) /\
    (20 < length (filter is_atom (knowledge_base sample_inferred)) ->
     derived = [] /\ new_facts' = []).
Proof.
  apply (conjunction_pairs_the_atoms insertion_order insertion_order_perm
           (knowledge_base sample_inferred) []).
  reflexivity.
Defined.

Lemma load_from_file_as_calls_witness :
  exists calls,
    Forall (fun c => exists text, c = AddFact (Text text) \/ c = AddRule (Text text))
           calls /\
    foldM (perform insertion_order) calls (LogicEngine_init insertion_order 100 false)
    = Ok (fst sample_loaded) /\
    length calls + length sample_errors <= length (split_on 10%N sample_file).
Proof.
  apply (load_from_file_as_calls insertion_order
           (LogicEngine_init insertion_order 100 false) (fst sample_loaded) sample_file
           sample_errors).
  vm_compute. reflexivity.
Defined.

Lemma comment_lines_are_skipped_witness :
  load_from_file (LogicEngine_init insertion_order 100 false)
    (lit "(a)P()" ++ [10%N] ++ lit "  # a note" ++ [10%N] ++ lit "Rule: (a)P() -> (a)Q()")
  = load_from_file (LogicEngine_init insertion_order 100 false)
      (lit "(a)P()" ++ [10%N] ++ lit "Rule: (a)P() -> (a)Q()").
Proof.
  apply (comment_lines_are_skipped (LogicEngine_init insertion_order 100 false)
           (lit "(a)P()") (lit "  # a note") (lit "Rule: (a)P() -> (a)Q()")).
  - reflexivity.
  - right. reflexivity.
Defined.

Lemma deduce_all_result_witness :
  (InferenceResult.iterations
     (deduced (deduce_all insertion_order [lit "(a)P()"]
                 [lit "Rule: (a)P() -> (a)Q()"])) <= 100)%Z /\
  NoDup (map conclusion
           (InferenceResult.derived_facts
              (deduced (deduce_all insertion_order [lit "(a)P()"]
                          [lit "Rule: (a)P() -> (a)Q()"])))) /\
  forall c,
    In c (InferenceResult.derived_facts
            (deduced (deduce_all insertion_order [lit "(a)P()"]
                        [lit "Rule: (a)P() -> (a)Q()"]))) ->
    (1 <= depth c
     <= InferenceResult.iterations
          (deduced (deduce_all insertion_order [lit "(a)P()"]
                      [lit "Rule: (a)P() -> (a)Q()"])))%Z /\
    ~ In (conclusion c)
         (InferenceResult.original_facts
            (deduced (deduce_all insertion_order [lit "(a)P()"]
                        [lit "Rule: (a)P() -> (a)Q()"]))) /\
    ~ In (conclusion c)
         (InferenceResult.original_rules
            (deduced (deduce_all insertion_order [lit "(a)P()"]
                        [lit "Rule: (a)P() -> (a)Q()"]))).
Proof.
  apply (deduce_all_result insertion_order insertion_order_perm [lit "(a)P()"]
           [lit "Rule: (a)P() -> (a)Q()"]).
  vm_compute. reflexivity.
Defined.
